(** * Knot: reference extraction, citation matching and the literature graph

    A shallow embedding of the pure cores of the Knot reference manager:

    - [lib/referenceParser]: [findReferencesSection] and [parseReferences],
      the bibliography locator and segmenter, and the white space of the
      page texts of [extractPdfText];
    - [lib/citationMatcher]: [calculateSimilarity], [normalizeString],
      [fuzzyMatch], [findMatchingItems] and [matchReferencesToLibrary],
      with the use that [components/DetailPanel] makes of them;
    - [lib/graphUtils]: [buildGraphData] and [getConnectedNodes].

    JavaScript strings are sequences of UTF-16 code units and are modelled
    as [list N].  Regular expressions are modelled by an abstract syntax and
    a backtracking matcher that enumerates the successful continuations in
    the priority order of the ECMAScript pattern semantics.  Numbers used as
    scores are modelled as exact rationals, where the host rounds each
    operation to a double.  The filter and the sort of [findMatchingItems],
    where the last place of a score can decide, are also given for a score
    that is a parameter (module [Ranking]), which covers the rounded
    score. *)

From Stdlib Require Import ZArith NArith QArith Lqa Lia String Ascii.
From stdpp Require Import gmap list sorting.

Close Scope Q_scope.
Local Open Scope nat_scope.

(** ** JavaScript strings *)

Module JS.

Definition jsstring := list N.

(** Code units of an ASCII literal. *)
Definition js (s : string) : jsstring :=
  map N_of_ascii (list_ascii_of_string s).

Definition LF : N := 10%N.

Definition in_range (lo hi c : N) : bool := (lo <=? c)%N && (c <=? hi)%N.

(** [\d] *)
Definition is_digit (c : N) : bool := in_range 48 57 c.

Definition is_upper (c : N) : bool := in_range 65 90 c.
Definition is_lower (c : N) : bool := in_range 97 122 c.

(** [\w] *)
Definition is_word (c : N) : bool :=
  is_digit c || is_upper c || is_lower c || (c =? 95)%N.

(** LineTerminator: LF, CR, LS, PS. *)
Definition is_line_terminator (c : N) : bool :=
  (c =? 10)%N || (c =? 13)%N || (c =? 8232)%N || (c =? 8233)%N.

(** [\s], which is also the set removed by [String.prototype.trim]:
    WhiteSpace (TAB, VT, FF, SP, NBSP, ZWNBSP and category Zs) together
    with LineTerminator. *)
Definition is_space (c : N) : bool :=
  in_range 9 13 c || (c =? 32)%N || (c =? 160)%N || (c =? 5760)%N
  || in_range 8192 8202 c || (c =? 8232)%N || (c =? 8233)%N
  || (c =? 8239)%N || (c =? 8287)%N || (c =? 12288)%N || (c =? 65279)%N.

(** ASCII case folding of one code unit. *)
Definition lower_unit (c : N) : N := if is_upper c then (c + 32)%N else c.

Definition substring (s : jsstring) (a b : nat) : jsstring :=
  take (b - a) (drop a s).

Fixpoint trimStart (s : jsstring) : jsstring :=
  match s with
  | c :: s' => if is_space c then trimStart s' else s
  | [] => []
  end.

Definition trimEnd (s : jsstring) : jsstring := rev (trimStart (rev s)).

Definition trim (s : jsstring) : jsstring := trimEnd (trimStart s).

Definition unit_eqb (a b : N) : bool := (a =? b)%N.

Fixpoint str_eqb (a b : jsstring) : bool :=
  match a, b with
  | [], [] => true
  | x :: a', y :: b' => unit_eqb x y && str_eqb a' b'
  | _, _ => false
  end.

Fixpoint starts_with (p s : jsstring) : bool :=
  match p, s with
  | [], _ => true
  | x :: p', y :: s' => unit_eqb x y && starts_with p' s'
  | _ :: _, [] => false
  end.

(** [s.indexOf(p)], searching from offset [i]; [None] stands for -1. *)
Fixpoint indexOf_from (p s : jsstring) (i : nat) : option nat :=
  if starts_with p s then Some i
  else match s with
       | [] => None
       | _ :: s' => indexOf_from p s' (S i)
       end.

Definition indexOf (s p : jsstring) : option nat := indexOf_from p s 0.

Definition includes (s p : jsstring) : bool :=
  match indexOf s p with Some _ => true | None => false end.

(** [s.split(sep)] for a one-unit separator string. *)
Fixpoint split_unit (sep : N) (cur : jsstring) (s : jsstring) : list jsstring :=
  match s with
  | [] => [rev cur]
  | c :: s' =>
      if unit_eqb c sep then rev cur :: split_unit sep [] s'
      else split_unit sep (c :: cur) s'
  end.

(** Truthiness of an optional string: [undefined] and [""] are falsy. *)
Definition truthy (o : option jsstring) : bool :=
  match o with
  | Some (_ :: _) => true
  | _ => false
  end.

End JS.

(** ** Regular expressions

    The abstract syntax covers the constructs the two modules use.  A
    character class is a predicate on code units; the [i] flag is expressed
    in the predicate (see [ci]).  [Rep greedy min max r] is the quantifier
    [r{min,max}], [max = None] meaning no upper bound; [Grp n r] is the
    capturing group number [n]; [Look r] is the lookahead [(?=r)]; [Bol] and
    [Eol] are [^] and [$] without the [m] flag; [WordB] is [\b]. *)

Module Regex.
Import JS.

Inductive regex : Type :=
| Eps
| Cls (p : N -> bool)
| Seq (r1 r2 : regex)
| Alt (r1 r2 : regex)
| Rep (greedy : bool) (min : nat) (max : option nat) (r : regex)
| Grp (n : nat) (r : regex)
| Look (r : regex)
| Bol
| Eol
| WordB.

(** Captures: group number to the (start, end) offsets of its last match. *)
Definition caps := list (nat * (nat * nat)).

Fixpoint cap_get (n : nat) (c : caps) : option (nat * nat) :=
  match c with
  | [] => None
  | (k, v) :: c' => if Nat.eqb k n then Some v else cap_get n c'
  end.

Definition cap_set (n : nat) (v : nat * nat) (c : caps) : caps := (n, v) :: c.

Definition cap_clear (ns : list nat) (c : caps) : caps :=
  List.filter (fun p => negb (existsb (Nat.eqb (fst p)) ns)) c.

Fixpoint groups (r : regex) : list nat :=
  match r with
  | Seq r1 r2 | Alt r1 r2 => groups r1 ++ groups r2
  | Rep _ _ _ r' | Look r' => groups r'
  | Grp n r' => n :: groups r'
  | _ => []
  end.

(** A state of the matcher is an end offset and the captures so far; a
    matcher maps a state to the list of states it can reach, most preferred
    first.  The head of the list is the result of the ECMAScript
    backtracking search. *)
Definition state := (nat * caps)%type.
Definition matcher := nat -> caps -> list state.

(** RepeatMatcher of the ECMAScript specification.  An iteration that
    matches the empty string once [min] is exhausted is rejected; the
    captures of the repeated atom are reset at each iteration. *)
Fixpoint repeat_matcher (m : matcher) (reset : caps -> caps) (greedy : bool)
    (min max : nat) (i : nat) (c : caps) {struct max} : list state :=
  match max with
  | O => [(i, c)]
  | S max' =>
      let iter :=
        flat_map (fun y : state =>
                    if Nat.eqb min 0 && Nat.eqb (fst y) i then []
                    else repeat_matcher m reset greedy (pred min) max' (fst y) (snd y))
                 (m i (reset c)) in
      if negb (Nat.eqb min 0) then iter
      else if greedy then iter ++ [(i, c)]
      else (i, c) :: iter
  end.

Definition word_at (s : jsstring) (i : nat) : bool :=
  match s !! i with Some a => is_word a | None => false end.

(** An unbounded quantifier is run with the iteration bound
    [min + (length s - i) + 1]: past [min], every iteration consumes at
    least one code unit, so the bound is never the reason a match stops. *)
Fixpoint run (s : jsstring) (r : regex) (i : nat) (c : caps) {struct r} : list state :=
  match r with
  | Eps => [(i, c)]
  | Cls p =>
      match s !! i with
      | Some a => if p a then [(S i, c)] else []
      | None => []
      end
  | Seq r1 r2 => flat_map (fun y : state => run s r2 (fst y) (snd y)) (run s r1 i c)
  | Alt r1 r2 => run s r1 i c ++ run s r2 i c
  | Rep g mn mx r' =>
      repeat_matcher (run s r') (cap_clear (groups r')) g mn
        (match mx with Some k => k | None => mn + (length s - i) + 1 end) i c
  | Grp n r' => map (fun y : state => (fst y, cap_set n (i, fst y) (snd y))) (run s r' i c)
  | Look r' =>
      match run s r' i c with
      | [] => []
      | y :: _ => [(i, snd y)]
      end
  | Bol => if Nat.eqb i 0 then [(i, c)] else []
  | Eol => if Nat.eqb i (length s) then [(i, c)] else []
  | WordB =>
      let a := match i with O => false | S j => word_at s j end in
      if xorb a (word_at s i) then [(i, c)] else []
  end.

(** The match found at exactly offset [i] (a sticky match). *)
Definition exec_at (r : regex) (s : jsstring) (i : nat) : option state :=
  head (run s r i []).

(** A successful match: start and end offsets and captures. *)
Record rmatch := { m_start : nat; m_end : nat; m_caps : caps }.

Fixpoint first_match (r : regex) (s : jsstring) (starts : list nat) : option rmatch :=
  match starts with
  | [] => None
  | i :: rest =>
      match exec_at r s i with
      | Some y => Some {| m_start := i; m_end := fst y; m_caps := snd y |}
      | None => first_match r s rest
      end
  end.

(** RegExpBuiltinExec for a pattern without the [g] and [y] flags: the
    leftmost start offset, from 0 to the length of the string included. *)
Definition exec (r : regex) (s : jsstring) : option rmatch :=
  first_match r s (seq 0 (S (length s))).

(** [r.test(s)] *)
Definition test (r : regex) (s : jsstring) : bool :=
  match exec r s with Some _ => true | None => false end.

(** [m[0]] and [m[n]] of a match object. *)
Definition matched (s : jsstring) (m : rmatch) : jsstring :=
  substring s (m_start m) (m_end m).

Definition group (s : jsstring) (m : rmatch) (n : nat) : option jsstring :=
  match cap_get n (m_caps m) with
  | Some (a, b) => Some (substring s a b)
  | None => None
  end.

(** All the matches of a pattern with the [g] flag, as [lastIndex] walks
    the string; after an empty match [lastIndex] advances by one. *)
Fixpoint scan_all (r : regex) (s : jsstring) (starts : list nat) (last : nat)
    : list (nat * nat) :=
  match starts with
  | [] => []
  | i :: rest =>
      if Nat.ltb i last then scan_all r s rest last
      else match exec_at r s i with
           | Some y =>
               (i, fst y) :: scan_all r s rest (if Nat.eqb (fst y) i then S i else fst y)
           | None => scan_all r s rest last
           end
  end.

Definition match_all (r : regex) (s : jsstring) : list (nat * nat) :=
  scan_all r s (seq 0 (S (length s))) 0.

(** [s.replace(r, repl)] for [r] without the [g] flag and [repl] free of
    [$] patterns. *)
Definition replace (r : regex) (repl : jsstring) (s : jsstring) : jsstring :=
  match exec r s with
  | Some m => take (m_start m) s ++ repl ++ drop (m_end m) s
  | None => s
  end.

Fixpoint splice (s : jsstring) (repl : jsstring) (from : nat) (ms : list (nat * nat))
    : jsstring :=
  match ms with
  | [] => drop from s
  | (a, b) :: ms' => substring s from a ++ repl ++ splice s repl b ms'
  end.

(** [s.replace(r, repl)] for [r] with the [g] flag. *)
Definition replace_all (r : regex) (repl : jsstring) (s : jsstring) : jsstring :=
  splice s repl 0 (match_all r s).

(** [s.split(r)], for a pattern [r] without capturing groups: offsets
    [q < length s] are tried in turn with a sticky match; a match ending
    at the start [p] of the pending segment does not split. *)
Fixpoint split_scan (r : regex) (s : jsstring) (qs : list nat) (p : nat)
    : list jsstring :=
  match qs with
  | [] => [drop p s]
  | q :: rest =>
      if Nat.ltb q p then split_scan r s rest p
      else match exec_at r s q with
           | None => split_scan r s rest p
           | Some y =>
               let e := Nat.min (fst y) (length s) in
               if Nat.eqb e p then split_scan r s rest p
               else substring s p q :: split_scan r s rest e
           end
  end.

Definition split (r : regex) (s : jsstring) : list jsstring :=
  match s with
  | [] => match exec_at r s 0 with Some _ => [] | None => [[]] end
  | _ => split_scan r s (seq 0 (length s)) 0
  end.

(** A lower bound on the number of code units a match consumes. *)
Fixpoint minlen (r : regex) : nat :=
  match r with
  | Cls _ => 1
  | Seq r1 r2 => minlen r1 + minlen r2
  | Alt r1 r2 => Nat.min (minlen r1) (minlen r2)
  | Rep _ mn mx r' =>
      match mx with Some k => Nat.min mn k | None => mn end * minlen r'
  | Grp _ r' => minlen r'
  | _ => 0
  end.

(** A matcher advances by [k] on [s] when every state it reaches lies at
    least [k] code units further and, from an offset inside [s], inside
    [s]. *)
Definition advances (s : jsstring) (k : nat) (m : matcher) : Prop :=
  forall i c y, In y (m i c) ->
    i + k <= fst y /\ (i <= length s -> fst y <= length s).

(** *** Pattern notation *)

Definition chr (c : N) : regex := Cls (unit_eqb c).

(** A literal code unit under the [i] flag: ASCII letters match in either
    case (a code unit outside ASCII never canonicalizes to an ASCII one). *)
Definition ci (c : N) : regex := Cls (fun a => unit_eqb (lower_unit a) (lower_unit c)).

Fixpoint seqs (rs : list regex) : regex :=
  match rs with
  | [] => Eps
  | [r] => r
  | r :: rs' => Seq r (seqs rs')
  end.

Definition lit (s : string) : regex := seqs (map chr (js s)).
Definition lit_ci (s : string) : regex := seqs (map ci (js s)).

Definition one_of (s : string) : regex :=
  Cls (fun a => existsb (unit_eqb a) (js s)).
Definition none_of (s : string) : regex :=
  Cls (fun a => negb (existsb (unit_eqb a) (js s))).

Definition digit : regex := Cls is_digit.
Definition space : regex := Cls is_space.
Definition upper : regex := Cls is_upper.
Definition lower : regex := Cls is_lower.
(** [.] *)
Definition dot : regex := Cls (fun a => negb (is_line_terminator a)).

Definition star (r : regex) : regex := Rep true 0 None r.
Definition plus (r : regex) : regex := Rep true 1 None r.
Definition opt (r : regex) : regex := Rep true 0 (Some 1) r.
Definition times (n : nat) (r : regex) : regex := Rep true n (Some n) r.

End Regex.

(** ** Data model ([lib/db]) *)

Module Db.
Import JS.

Inductive CreatorType := author | editor | translator.

Record Creator := {
  firstName : option jsstring;
  lastName : jsstring;
  creatorType : CreatorType
}.

Record ParsedReference := {
  index : Z;
  text : jsstring;
  doi : option jsstring;
  authors : option jsstring;
  title : option jsstring;
  year : option jsstring
}.

(** The fields of a library item that the matcher reads. *)
Record ReferenceItem := {
  item_id : jsstring;
  item_title : jsstring;
  item_creators : list Creator;
  item_date : option jsstring;
  item_doi : option jsstring
}.

End Db.

(** ** The reference parser ([lib/referenceParser]) *)

Module ReferenceParser.
Import JS Regex Db.

Definition QUOTES : regex := Cls (fun a => unit_eqb a 34 || unit_eqb a 39).

(** [/10\.\d{4,9}\/[-._;()/:A-Z0-9]+/gi] *)
Definition DOI_REGEX : regex :=
  seqs [lit "10."; Rep true 4 (Some 9) digit; chr 47;
        plus (Cls (fun a => existsb (unit_eqb a) (js "-._;()/:")
                             || is_upper a || is_lower a || is_digit a))].

Definition header (body : list regex) : regex :=
  seqs ([Bol] ++ body ++ [star space; Eol]).

Definition REFERENCE_SECTION_PATTERNS : list regex :=
  [ header [lit_ci "reference"; opt (ci 115)];
    header [lit_ci "bibliography"];
    header [lit_ci "work"; opt (ci 115); plus space; lit_ci "cited"];
    header [lit_ci "literature"; plus space; lit_ci "cited"];
    header [lit_ci "citation"; opt (ci 115)];
    header (map chr [21442; 32771; 25991; 29486]%N);
    header (map chr [24341; 29992; 25991; 29486]%N) ].

Definition REFERENCE_NUMBER_PATTERNS : list regex :=
  [ seqs [Bol; chr 91; Grp 1 (plus digit); chr 93; star space];
    seqs [Bol; Grp 1 (plus digit); chr 46; plus space];
    seqs [Bol; chr 40; Grp 1 (plus digit); chr 41; star space];
    seqs [Bol; Grp 1 (plus digit); plus space] ].

(** [parseInt(d, 10)] on a string of decimal digits.  The exact integer
    is kept; the rounding of integers above 2^53 is not modelled. *)
Definition parseInt (d : jsstring) : Z :=
  fold_left (fun acc c => (10 * acc + (Z.of_N c - 48))%Z) d 0%Z.

(** [findReferencesSection]; the result -1 means that no header was found. *)
Fixpoint find_header (text : jsstring) (lines : list jsstring) : Z :=
  match lines with
  | [] => (-1)%Z
  | l :: rest =>
      let line := trim l in
      if existsb (fun pattern => test pattern line) REFERENCE_SECTION_PATTERNS
      then ((match indexOf text line with Some k => Z.of_nat k | None => -1 end)
            + Z.of_nat (length line))%Z
      else find_header text rest
  end.

Definition findReferencesSection (text : jsstring) : Z :=
  find_header text (split (Cls (fun a => unit_eqb a 46 || unit_eqb a LF)) text).

(** The four segmentation patterns of [parseReferences]. *)
Definition line_start : regex := Alt Bol (chr LF).

Definition numberedSplit : regex :=
  Look (Alt (seqs [chr 91; plus digit; chr 93])
       (Alt (seqs [line_start; plus digit; chr 46])
            (seqs [line_start; chr 40; plus digit; chr 41]))).

Definition patternWithParen : regex :=
  Look (seqs [Alt Bol space; upper; plus lower; chr 44; plus space; upper; chr 46;
              Rep false 0 (Some 100) (none_of "."); chr 40; times 4 digit; chr 41]).

Definition patternWithPeriod : regex :=
  Look (seqs [Alt Bol space; upper; Rep true 2 None lower; chr 44; plus space; upper;
              chr 46; Rep false 0 (Some 100) (none_of "."); chr 44; plus space;
              times 4 digit; chr 46]).

Definition looseSplit : regex :=
  Look (seqs [space; upper; Rep true 2 None lower; chr 44; plus space; upper; chr 46]).

(** [.filter(l => l.trim())] *)
Definition nonblank (l : jsstring) : bool :=
  match trim l with [] => false | _ => true end.

Definition splitLines (pattern : regex) (referencesText : jsstring) : list jsstring :=
  List.filter nonblank (split pattern referencesText).

Definition segments (referencesText : jsstring) : list jsstring :=
  let lines := splitLines numberedSplit referencesText in
  if length lines <? 3 then
    let lines := splitLines patternWithParen referencesText in
    let lines :=
      if length lines <? 3 then splitLines patternWithPeriod referencesText
      else lines in
    if length lines <? 3 then splitLines looseSplit referencesText else lines
  else lines.

(** The loop over [REFERENCE_NUMBER_PATTERNS]: index and text of a segment. *)
Fixpoint stripNumber (patterns : list regex) (index : Z) (trimmed : jsstring)
    : Z * jsstring :=
  match patterns with
  | [] => (index, trimmed)
  | pattern :: rest =>
      match exec pattern trimmed with
      | Some m =>
          (match group trimmed m 1 with Some d => parseInt d | None => index end,
           trim (replace pattern [] trimmed))
      | None => stripNumber rest index trimmed
      end
  end.

Definition first_group (r : regex) (s : jsstring) : option jsstring :=
  match exec r s with
  | Some m => group s m 1
  | None => None
  end.

Definition yearToken : regex := seqs [WordB; times 4 digit; WordB].

Definition extractDoi (text : jsstring) : option jsstring :=
  match match_all DOI_REGEX text with
  | [] => None
  | (a, b) :: _ => Some (substring text a b)
  end.

(** The three year patterns, [\((\d{4})\)], [,\s+(\d{4})\.] and
    [\b(\d{4})\b]. *)
Definition yearCapture : regex := Grp 1 (times 4 digit).
Definition yearParen : regex := seqs [chr 40; yearCapture; chr 41].
Definition yearPeriod : regex := seqs [chr 44; plus space; yearCapture; chr 46].
Definition yearAny : regex := seqs [WordB; yearCapture; WordB].

Definition extractYear (text : jsstring) : option jsstring :=
  let yearMatchParen := first_group yearParen text in
  let yearMatchPeriod := first_group yearPeriod text in
  let yearMatchAny := first_group yearAny text in
  match yearMatchParen with
  | Some y => Some y
  | None => match yearMatchPeriod with
            | Some y => Some y
            | None => yearMatchAny
            end
  end.

(** The pattern built from the year: the year, [[).]*], [\s+], an optional
    quote (double or single), the captured group of 10 to 150 code units
    other than a period and a double quote, an optional quote, and a
    period or [In:]. *)
Definition afterYear (year : jsstring) : regex :=
  seqs [seqs (map chr year); star (one_of ")."); plus space; opt QUOTES;
        Grp 1 (Rep true 10 (Some 150)
                 (Cls (fun a => negb (unit_eqb a 46 || unit_eqb a 34))));
        opt QUOTES; Alt (chr 46) (lit "In:")].

Definition extractTitle (text : jsstring) (year : option jsstring) : option jsstring :=
  match year with
  | Some ((_ :: _) as y) =>
      match first_group (afterYear y) text with
      | Some ((_ :: _) as g) => Some (substring (trim g) 0 200)
      | _ => None
      end
  | _ => None
  end.

(** The pattern built from the year, [(.+?)(?:\(year\)|,?\s+year[.)])]. *)
Definition yearPattern (year : jsstring) : regex :=
  seqs [Grp 1 (Rep false 1 None dot);
        Alt (seqs [chr 40; seqs (map chr year); chr 41])
            (seqs [opt (chr 44); plus space; seqs (map chr year); one_of ".)"])].

Definition leadingWord : regex :=
  seqs [Bol; opt (Grp 1 (Alt (seqs [lit "and"; plus space])
                              (seqs [lit "from"; plus space])))].

Definition extractAuthors (text : jsstring) (year : option jsstring) : option jsstring :=
  match year with
  | Some ((_ :: _) as y) =>
      match first_group (yearPattern y) text with
      | Some ((_ :: _) as g) =>
          Some (substring
                  (trim (replace_all (plus space) (js " ") (replace leadingWord [] g)))
                  0 250)
      | _ => None
      end
  | _ => None
  end.

(** The sanity filter on [authors]. *)
Definition checkAuthors (authors : option jsstring) : option jsstring :=
  match authors with
  | Some ((_ :: _) as a) =>
      if (length a <? 3) || test (seqs [Bol; digit]) a then None else authors
  | _ => authors
  end.

(** One iteration of the loop of [parseReferences]; [count] is
    [references.length].  [None] is a [continue]. *)
Definition parseLine (count : nat) (line : jsstring) : option ParsedReference :=
  let trimmed := trim line in
  if negb (truthy (Some trimmed)) || (length trimmed <? 20) || (1000 <? length trimmed)
  then None
  else if negb (test yearToken trimmed) then None
  else
    let '(index, text) :=
      stripNumber REFERENCE_NUMBER_PATTERNS (Z.of_nat count + 1)%Z trimmed in
    let doi := extractDoi text in
    let year := extractYear text in
    let title := extractTitle text year in
    let authors := extractAuthors text year in
    if negb (truthy year) then None
    else
      Some {| index := index;
              text := substring text 0 500;
              doi := doi;
              authors := checkAuthors authors;
              title := title;
              year := year |}.

Definition pushLine (references : list ParsedReference) (line : jsstring)
    : list ParsedReference :=
  match parseLine (length references) line with
  | Some r => references ++ [r]
  | None => references
  end.

Definition parseReferences (referencesText : jsstring) : list ParsedReference :=
  fold_left pushLine (segments referencesText) [].

(** A segment passes the two year checks of the loop: the [\b\d{4}\b]
    test on the trimmed segment and the truthiness of the extracted year. *)
Definition hasYear (line : jsstring) : bool :=
  test yearToken (trim line)
  && truthy (extractYear
               (snd (stripNumber REFERENCE_NUMBER_PATTERNS 0%Z (trim line)))).

(** Four decimal digits stand at offset [j] of [s]. *)
Definition fourDigits (s : jsstring) (j : nat) : Prop :=
  forall k, k < 4 -> exists a, s !! (j + k) = Some a /\ is_digit a = true.

(** Whatever the pattern [r] matches in [s], its group 1 holds four digits. *)
Definition capturesYear (s : jsstring) (r : regex) : Prop :=
  forall i c y, In y (run s r i c) ->
    exists j, cap_get 1 (snd y) = Some (j, j + 4) /\ fourDigits s j.

(** A year as the segmenter stores it: four decimal digits. *)
Definition isYear (o : option jsstring) : Prop :=
  match o with
  | Some y => length y = 4 /\ Forall (fun a => is_digit a = true) y
  | None => False
  end.

(** An optional field is well formed when it is absent or non-empty. *)
Definition absentOrNonEmpty (o : option jsstring) : Prop :=
  match o with
  | Some [] => False
  | _ => True
  end.

(** An optional field, when present, has at most [n] code units. *)
Definition atMost (n : nat) (o : option jsstring) : Prop :=
  match o with
  | Some v => length v <= n
  | None => True
  end.

(** What the sanity filter leaves in [authors]: nothing, the empty string,
    or at least three code units not starting with a digit. *)
Definition authorsFiltered (o : option jsstring) : Prop :=
  match o with
  | Some ((_ :: _) as a) => 3 <= length a /\ test (seqs [Bol; digit]) a = false
  | _ => True
  end.

(** What every record that the loop body emits satisfies. *)
Record emitted (r : ParsedReference) : Prop := {
  emitted_year : isYear (year r);
  emitted_text : length (text r) <= 500;
  emitted_title : atMost 200 (title r);
  emitted_authors : atMost 250 (authors r);
  emitted_filtered : authorsFiltered (authors r);
  emitted_doi : forall d, doi r = Some d -> 9 <= length d
}.

End ReferenceParser.

(** ** The citation matcher ([lib/citationMatcher]) *)

Module CitationMatcher.
Import JS Regex Db.

Record MatchResult := {
  itemId : jsstring;
  similarity : Q;
  item : ReferenceItem
}.

(** The value of an optional string where the code has checked that it
    is present. *)
Definition str (o : option jsstring) : jsstring := default [] o.

(** [fuzzyMatch]: Jaccard similarity of the sets of words longer than two
    code units. *)
Definition wordSet (s : jsstring) : gset jsstring :=
  list_to_set (List.filter (fun w => 2 <? length w) (split_unit 32 [] s)).

Definition fuzzyMatch (str1 str2 : jsstring) : Q :=
  let words1 := wordSet str1 in
  let words2 := wordSet str2 in
  if (size words1 =? 0) && (size words2 =? 0) then 1%Q
  else if (size words1 =? 0) || (size words2 =? 0) then 0%Q
  else
    let intersection := filter (fun w => w ∈ words2) words1 in
    let union := words1 ∪ words2 in
    (inject_Z (Z.of_nat (size intersection)) / inject_Z (Z.of_nat (size union)))%Q.

Section Matcher.

(** Two built-ins of the host are parameters of the model:
    [String.prototype.toLowerCase], and the year of a date string,
    [new Date(d).getFullYear().toString()]. *)
Variable toLowerCase : jsstring -> jsstring.
Variable fullYear : jsstring -> jsstring.

Definition normalizeString (s : jsstring) : jsstring :=
  trim (replace_all (plus space) (js " ")
          (replace_all (Cls (fun a => negb (is_word a || is_space a))) (js " ")
             (toLowerCase s))).

(** The running pair [(score, totalWeight)] of [calculateSimilarity]. *)
Definition tally := (Q * Q)%type.

Definition doiComparable (reference : ParsedReference) (it : ReferenceItem) : bool :=
  truthy (doi reference) && truthy (item_doi it).

Definition doiMatches (reference : ParsedReference) (it : ReferenceItem) : bool :=
  doiComparable reference it
  && str_eqb (toLowerCase (str (doi reference))) (toLowerCase (str (item_doi it))).

Definition yearComparable (reference : ParsedReference) (it : ReferenceItem) : bool :=
  truthy (year reference) && truthy (item_date it).

Definition titleComparable (reference : ParsedReference) (it : ReferenceItem) : bool :=
  truthy (title reference) && truthy (Some (item_title it)).

Definition authorsComparable (reference : ParsedReference) (it : ReferenceItem) : bool :=
  truthy (authors reference) && (0 <? length (item_creators it)).

Definition doiSignal (reference : ParsedReference) (it : ReferenceItem) (t : tally) : tally :=
  if doiComparable reference it then
    (if doiMatches reference it then (fst t + 10)%Q else fst t, (snd t + 10)%Q)
  else t.

Definition yearSignal (reference : ParsedReference) (it : ReferenceItem) (t : tally) : tally :=
  if yearComparable reference it then
    let itemYear := fullYear (str (item_date it)) in
    (if str_eqb (str (year reference)) itemYear then (fst t + 2)%Q else fst t,
     (snd t + 2)%Q)
  else t.

Definition titleSignal (reference : ParsedReference) (it : ReferenceItem) (t : tally) : tally :=
  if titleComparable reference it then
    let titleSimilarity :=
      fuzzyMatch (normalizeString (str (title reference)))
                 (normalizeString (item_title it)) in
    ((fst t + titleSimilarity * 5)%Q, (snd t + 5)%Q)
  else t.

(** [c.lastName c.firstName] as the template literal prints it: an absent
    first name prints as [undefined]. *)
Definition creatorName (c : Creator) : jsstring :=
  toLowerCase (lastName c ++ js " " ++ default (js "undefined") (firstName c)).

Fixpoint join (sep : jsstring) (l : list jsstring) : jsstring :=
  match l with
  | [] => []
  | [x] => x
  | x :: l' => x ++ sep ++ join sep l'
  end.

Definition authorsSignal (reference : ParsedReference) (it : ReferenceItem) (t : tally) : tally :=
  if authorsComparable reference it then
    let refAuthors := normalizeString (str (authors reference)) in
    let itemAuthors := join (js " ") (map creatorName (item_creators it)) in
    let score :=
      match item_creators it with
      | firstAuthor :: _ =>
          if includes refAuthors (toLowerCase (lastName firstAuthor))
          then (fst t + (3 # 2))%Q else fst t
      | [] => fst t
      end in
    let authorSimilarity := fuzzyMatch refAuthors itemAuthors in
    ((score + authorSimilarity * (3 # 2))%Q, (snd t + 3)%Q)
  else t.

(** The three signals that follow the DOI signal. *)
Definition otherSignals (reference : ParsedReference) (it : ReferenceItem)
    (t : tally) : tally :=
  authorsSignal reference it (titleSignal reference it (yearSignal reference it t)).

(** A signal adds [s] to the score and [w] to the total weight. *)
Definition shifts (f : tally -> tally) (s w : Q) : Prop :=
  forall t, (fst (f t) == fst t + s /\ snd (f t) == snd t + w)%Q.

Definition signals (reference : ParsedReference) (it : ReferenceItem) : tally :=
  authorsSignal reference it
    (titleSignal reference it
       (yearSignal reference it
          (doiSignal reference it (0%Q, 0%Q)))).

Definition calculateSimilarity (reference : ParsedReference) (it : ReferenceItem) : Q :=
  let '(score, totalWeight) := signals reference it in
  if Qeq_bool totalWeight 0 then 0%Q else (score / totalWeight)%Q.

(** [Array.prototype.sort] with the comparator
    [(a, b) => b.similarity - a.similarity].  The sort is stable; the list
    is built from the right, and an element goes before the first of the
    later elements whose similarity is not higher, so that elements of
    equal similarity keep their order. *)
Fixpoint insertMatch (x : MatchResult) (l : list MatchResult) : list MatchResult :=
  match l with
  | [] => [x]
  | y :: l' =>
      if Qle_bool (similarity y) (similarity x) then x :: l
      else y :: insertMatch x l'
  end.

Definition sortMatches (l : list MatchResult) : list MatchResult :=
  foldr insertMatch [] l.

Definition candidate (reference : ParsedReference) (it : ReferenceItem)
    : list MatchResult :=
  let sim := calculateSimilarity reference it in
  if Qle_bool (1 # 2) sim
  then [{| itemId := item_id it; similarity := sim; item := it |}]
  else [].

Definition findMatchingItems (reference : ParsedReference)
    (libraryItems : list ReferenceItem) : list MatchResult :=
  sortMatches (flat_map (candidate reference) libraryItems).

Definition setMatches (libraryItems : list ReferenceItem)
    (matchMap : gmap Z (list MatchResult)) (reference : ParsedReference)
    : gmap Z (list MatchResult) :=
  let matches := findMatchingItems reference libraryItems in
  if 0 <? length matches then <[index reference := matches]> matchMap
  else matchMap.

Definition matchReferencesToLibrary (references : list ParsedReference)
    (libraryItems : list ReferenceItem) : gmap Z (list MatchResult) :=
  fold_left (setMatches libraryItems) references ∅.

End Matcher.

(** A list of matches in descending order of similarity. *)
Definition descending : list MatchResult -> Prop :=
  StronglySorted (fun a b => (similarity b <= similarity a)%Q).

(** Two references, or two items, that differ in the DOI at most. *)
Definition sameExceptDoi (r1 r2 : ParsedReference) : Prop :=
  index r1 = index r2 /\ text r1 = text r2 /\ authors r1 = authors r2
  /\ title r1 = title r2 /\ year r1 = year r2.

Definition sameItemExceptDoi (i1 i2 : ReferenceItem) : Prop :=
  item_id i1 = item_id i2 /\ item_title i1 = item_title i2
  /\ item_creators i1 = item_creators i2 /\ item_date i1 = item_date i2.

(** Instances of the two built-ins that agree with the host on ASCII
    strings and on dates written [YYYY-MM-DD] away from the turn of the
    year; they serve to run the model on such data. *)
Definition asciiLowerCase (s : jsstring) : jsstring := map lower_unit s.
Definition isoFullYear (d : jsstring) : jsstring := take 4 d.

End CitationMatcher.

(** ** The reference list of the detail panel ([components/DetailPanel])

    The panel matches the references of an item against the other items
    of the library. *)

Module DetailPanel.
Import JS Db CitationMatcher.

Section Panel.

Variable toLowerCase : jsstring -> jsstring.
Variable fullYear : jsstring -> jsstring.

(** The record that [findMatchingItems] pushes for an item. *)
Definition matchOf (reference : ParsedReference) (it : ReferenceItem) : MatchResult :=
  {| itemId := item_id it;
     similarity := calculateSimilarity toLowerCase fullYear reference it;
     item := it |}.

(** [allItems.filter(i => i.id !== itemId)] *)
Definition otherItems (itemId : jsstring) (allItems : list ReferenceItem)
    : list ReferenceItem :=
  List.filter (fun i => negb (str_eqb (item_id i) itemId)) allItems.

(** [matchReferencesToLibrary(references, allItems.filter(...))] *)
Definition citationMatchesFor (itemId : jsstring) (references : list ParsedReference)
    (allItems : list ReferenceItem) : gmap Z (list MatchResult) :=
  matchReferencesToLibrary toLowerCase fullYear references (otherItems itemId allItems).

End Panel.

(** The weight of a signal: [w] when both sides have data, else 0. *)
Definition weightOf (comparable : bool) (w : Q) : Q :=
  if comparable then w else 0%Q.

(** The total weight of the year, title and author signals. *)
Definition otherWeight (reference : ParsedReference) (it : ReferenceItem) : Q :=
  (weightOf (yearComparable reference it) 2
   + weightOf (titleComparable reference it) 5
   + weightOf (authorsComparable reference it) 3)%Q.

(** The matches of a list whose similarity equals [v]. *)
Definition tiedAt (v : Q) (l : list MatchResult) : list MatchResult :=
  List.filter (fun m => Qeq_bool (similarity m) v) l.

End DetailPanel.

(** ** The ranking of [findMatchingItems], whatever the score

    [findMatchingItems] uses of [calculateSimilarity] only the number that
    it returns.  The host computes this number in double precision, with a
    rounding at each operation, where the model above computes the exact
    quotient; the two can differ in the last place, and so fall on either
    side of the threshold or break a tie.  A double is a rational, and
    [>=], and the sign of [b.similarity - a.similarity], compare two
    doubles as the rationals they are.  So the filter and the sort are
    given here for a score that is a parameter: what is proved of them
    holds of the rounded score of the host as well as of the exact one. *)

Module Ranking.
Import JS Db CitationMatcher.

Section Ranking.

(** The value of [calculateSimilarity(reference, item)]. *)
Variable calculateSimilarity : ParsedReference -> ReferenceItem -> Q.

(** The body of the loop over the library. *)
Definition candidate (reference : ParsedReference) (it : ReferenceItem)
    : list MatchResult :=
  let sim := calculateSimilarity reference it in
  if Qle_bool (1 # 2) sim
  then [{| itemId := item_id it; similarity := sim; item := it |}]
  else [].

Definition findMatchingItems (reference : ParsedReference)
    (libraryItems : list ReferenceItem) : list MatchResult :=
  sortMatches (flat_map (candidate reference) libraryItems).

End Ranking.

End Ranking.

(** ** The literature graph ([lib/graphUtils]) *)

Module Graph.
Import JS Db.

Inductive NodeType := Paper | Author | Tag.

Record GraphNode := {
  node_id : jsstring;
  node_name : jsstring;
  node_type : NodeType;
  node_val : N;
  node_color : jsstring;
  node_itemId : option jsstring
}.

(** An end of a link is the id of a node; once the force layout has run
    it is the node itself, which is why [getConnectedNodes] tests it. *)
Inductive LinkEnd :=
| EndId (nodeId : jsstring)
| EndNode (node : GraphNode).

Record GraphLink := {
  link_source : LinkEnd;
  link_target : LinkEnd;
  link_color : option jsstring
}.

Record GraphData := {
  nodes : list GraphNode;
  links : list GraphLink
}.

(** A library item with its [tags], the field of [ReferenceItem] that the
    matcher does not read. *)
Record TaggedItem := {
  tagged : ReferenceItem;
  tags : list jsstring
}.

(** The value of [authorMap]: [{ id, displayName, score }]. *)
Record AuthorEntry := {
  author_id : jsstring;
  author_displayName : jsstring;
  author_score : nat
}.

(** A [Map] with string keys, in insertion order: [set] on a key that is
    present replaces the value in place. *)
Definition AuthorMap := list (jsstring * AuthorEntry).

Fixpoint map_get (k : jsstring) (m : AuthorMap) : option AuthorEntry :=
  match m with
  | [] => None
  | (k', v) :: m' => if str_eqb k' k then Some v else map_get k m'
  end.

Fixpoint map_set (k : jsstring) (v : AuthorEntry) (m : AuthorMap) : AuthorMap :=
  match m with
  | [] => [(k, v)]
  | (k', v') :: m' =>
      if str_eqb k' k then (k, v) :: m' else (k', v') :: map_set k v m'
  end.

(** A [Set] of strings, in insertion order. *)
Definition set_add (x : jsstring) (l : list jsstring) : list jsstring :=
  if existsb (str_eqb x) l then l else l ++ [x].

Section Build.

(** [String.prototype.toLowerCase] and [toUpperCase] are parameters. *)
Variable toLowerCase : jsstring -> jsstring.
Variable toUpperCase : jsstring -> jsstring.

(** [s.trim()] of an optional string, or the empty string. *)
Definition trimmed (o : option jsstring) : jsstring :=
  match o with
  | Some s => trim s
  | None => []
  end.

Definition normalizeAuthorKey (creator : Creator) : jsstring :=
  let lastName := toLowerCase (trim (lastName creator)) in
  let firstName :=
    match firstName creator with
    | Some f => toLowerCase (trim f)
    | None => []
    end in
  let firstInitial := take 1 firstName in
  lastName ++ js "|" ++ firstInitial.

Definition getAuthorDisplayName (creator : Creator) : jsstring :=
  let lastName :=
    match trim (lastName creator) with
    | [] => js "Unknown"
    | l => l
    end in
  let firstName := trimmed (firstName creator) in
  if 2 <? length firstName then lastName ++ js ", " ++ firstName
  else if 0 <? length firstName
       then lastName ++ js ", " ++ toUpperCase firstName ++ js "."
       else lastName.

(** [creator.firstName?.length || 0] *)
Definition nameScore (creator : Creator) : nat :=
  match firstName creator with
  | Some f => length f
  | None => 0
  end.

(** The body of the loop over the creators, in the first pass. *)
Definition addCreator (authorMap : AuthorMap) (creator : Creator) : AuthorMap :=
  let key := normalizeAuthorKey creator in
  if negb (truthy (Some key)) || str_eqb key (js "|") then authorMap
  else
    let displayName := getAuthorDisplayName creator in
    let score := nameScore creator in
    match map_get key authorMap with
    | Some existing =>
        if author_score existing <? score
        then map_set key {| author_id := js "author_" ++ key;
                            author_displayName := displayName;
                            author_score := score |} authorMap
        else authorMap
    | None =>
        map_set key {| author_id := js "author_" ++ key;
                       author_displayName := displayName;
                       author_score := score |} authorMap
    end.

(** The body of the loop over the tags, in the first pass. *)
Definition addTag (tagSet : list jsstring) (tag : jsstring) : list jsstring :=
  if truthy (Some (trim tag)) then set_add (toLowerCase (trim tag)) tagSet
  else tagSet.

Definition firstPass (items : list TaggedItem) : AuthorMap * list jsstring :=
  fold_left
    (fun st item =>
       (fold_left addCreator (item_creators (tagged item)) (fst st),
        fold_left addTag (tags item) (snd st)))
    items ([], []).

Definition authorNode (entry : jsstring * AuthorEntry) : GraphNode :=
  {| node_id := author_id (snd entry);
     node_name := author_displayName (snd entry);
     node_type := Author;
     node_val := 8;
     node_color := js "#22c55e";
     node_itemId := None |}.

Definition tagNode (tag : jsstring) : GraphNode :=
  {| node_id := js "tag_" ++ tag;
     node_name := js "#" ++ tag;
     node_type := Tag;
     node_val := 6;
     node_color := js "#f97316";
     node_itemId := None |}.

Definition paperNode (item : TaggedItem) : GraphNode :=
  {| node_id := js "paper_" ++ item_id (tagged item);
     node_name :=
       match item_title (tagged item) with
       | [] => js "Untitled"
       | t => t
       end;
     node_type := Paper;
     node_val := 10;
     node_color := js "#3b82f6";
     node_itemId := Some (item_id (tagged item)) |}.

Definition authorLink (authorMap : AuthorMap) (item : TaggedItem) (creator : Creator)
    : list GraphLink :=
  match map_get (normalizeAuthorKey creator) authorMap with
  | Some found =>
      [{| link_source := EndId (node_id (paperNode item));
          link_target := EndId (author_id found);
          link_color := Some (js "rgba(34, 197, 94, 0.3)") |}]
  | None => []
  end.

Definition tagLink (item : TaggedItem) (tag : jsstring) : list GraphLink :=
  let normalizedTag := toLowerCase (trim tag) in
  if truthy (Some normalizedTag)
  then [{| link_source := EndId (node_id (paperNode item));
           link_target := EndId (js "tag_" ++ normalizedTag);
           link_color := Some (js "rgba(249, 115, 22, 0.3)") |}]
  else [].

(** The links of one item: to its authors, then to its tags. *)
Definition itemLinks (authorMap : AuthorMap) (item : TaggedItem) : list GraphLink :=
  flat_map (authorLink authorMap item) (item_creators (tagged item))
  ++ flat_map (tagLink item) (tags item).

(** [buildGraphData]: the author nodes in the order of the map, the tag
    nodes in the order of the set, then one paper node for each item; the
    links of the items in the order of the items. *)
Definition buildGraphData (items : list TaggedItem) : GraphData :=
  let '(authorMap, tagSet) := firstPass items in
  {| nodes := map authorNode authorMap ++ map tagNode tagSet ++ map paperNode items;
     links := flat_map (itemLinks authorMap) items |}.

End Build.

Definition endId (e : LinkEnd) : jsstring :=
  match e with
  | EndId s => s
  | EndNode n => node_id n
  end.

(** The body of the loop of [getConnectedNodes]. *)
Definition visit (nodeId : jsstring) (connected : gset jsstring) (link : GraphLink)
    : gset jsstring :=
  let sourceId := endId (link_source link) in
  let targetId := endId (link_target link) in
  if str_eqb sourceId nodeId then {[targetId]} ∪ connected
  else if str_eqb targetId nodeId then {[sourceId]} ∪ connected
  else connected.

Definition getConnectedNodes (graphData : GraphData) (nodeId : jsstring)
    : gset jsstring :=
  fold_left (visit nodeId) (links graphData) {[nodeId]}.

(** Some link joins the nodes [a] and [b], in either direction. *)
Definition linked (graphData : GraphData) (a b : jsstring) : Prop :=
  exists l, In l (links graphData)
    /\ ((endId (link_source l) = a /\ endId (link_target l) = b)
        \/ (endId (link_target l) = a /\ endId (link_source l) = b)).

Definition isPaper (n : GraphNode) : bool :=
  match node_type n with
  | Paper => true
  | _ => false
  end.

Section Invariants.

Variable toLowerCase : jsstring -> jsstring.
Variable toUpperCase : jsstring -> jsstring.

(** Among the creators [cs], [c] has the key [k] and the longest first
    name of those that have it. *)
Definition bestNamed (cs : list Creator) (k : jsstring) (c : Creator) : Prop :=
  In c cs /\ normalizeAuthorKey toLowerCase c = k
  /\ forall c', In c' cs -> normalizeAuthorKey toLowerCase c' = k ->
                nameScore c' <= nameScore c.

(** What the author map holds once the creators [cs] have been added. *)
Record authorsOf (cs : list Creator) (m : AuthorMap) : Prop := {
  authors_distinct : NoDup (map fst m);
  authors_entry : forall k e, In (k, e) m ->
    k <> js "|" /\ author_id e = js "author_" ++ k
    /\ exists c, bestNamed cs k c
         /\ author_displayName e = getAuthorDisplayName toUpperCase c
         /\ author_score e = nameScore c;
  authors_present : forall c, In c cs ->
    normalizeAuthorKey toLowerCase c <> js "|" ->
    In (normalizeAuthorKey toLowerCase c) (map fst m)
}.

(** All the tags of the items, in the order of the first pass. *)
Definition allTags (items : list TaggedItem) : list jsstring :=
  flat_map tags items.

(** A node of the graph has the id [i] and the type [t]. *)
Definition hasNode (graphData : GraphData) (i : jsstring) (t : NodeType) : Prop :=
  exists n, In n (nodes graphData) /\ node_id n = i /\ node_type n = t.

End Invariants.

(** All the creators of the items, in the order of the first pass. *)
Definition allCreators (items : list TaggedItem) : list Creator :=
  flat_map (fun item => item_creators (tagged item)) items.

End Graph.

(** ** Pieces of a text *)

Module Pieces.
Import JS Regex Db ReferenceParser.

(** [p] occurs in [s] as a contiguous piece. *)
Definition occursIn (p s : jsstring) : Prop := exists a b, s = a ++ p ++ b.

Definition optOccursIn (o : option jsstring) (s : jsstring) : Prop :=
  match o with
  | Some v => occursIn v s
  | None => True
  end.

(** The test of [findReferencesSection] on a trimmed segment. *)
Definition isHeader (line : jsstring) : bool :=
  existsb (fun pattern => test pattern line) REFERENCE_SECTION_PATTERNS.

(** The separator of [findReferencesSection], a period or a line feed. *)
Definition lineBreak : regex := Cls (fun a => unit_eqb a 46 || unit_eqb a LF).

(** A trimmed segment starts with one of the reference number markers. *)
Definition hasMarker (trimmed : jsstring) : bool :=
  existsb (fun pattern => test pattern trimmed) REFERENCE_NUMBER_PATTERNS.

(** A pattern that starts with [^]. *)
Definition anchored (r : regex) : Prop := exists r', r = Seq Bol r'.

(** The pieces of a record that are copied from the text [s]. *)
Definition copied (s : jsstring) (r : ParsedReference) : Prop :=
  occursIn (text r) s /\ optOccursIn (doi r) s
  /\ optOccursIn (title r) s /\ optOccursIn (year r) s.

(** The indices 1, 2, ..., [n]. *)
Definition ordinals (n : nat) : list Z :=
  map (fun k => (Z.of_nat k + 1)%Z) (seq 0 n).

End Pieces.

(** ** Sample data *)

Module Samples.
Import JS Db CitationMatcher.

(** A reference known by its title and its DOI, and the same reference
    without the DOI. *)
Definition titledWithDoi : ParsedReference :=
  {| index := 1; text := js "Deep learning. 10.1000/xyz";
     doi := Some (js "10.1000/xyz"); authors := None;
     title := Some (js "Deep learning"); year := None |}.

Definition titledNoDoi : ParsedReference :=
  {| index := 1; text := js "Deep learning. 10.1000/xyz";
     doi := None; authors := None;
     title := Some (js "Deep learning"); year := None |}.

(** The same reference again, with the DOI of another paper. *)
Definition titledOtherDoi : ParsedReference :=
  {| index := 1; text := js "Deep learning. 10.1000/xyz";
     doi := Some (js "10.2000/abc"); authors := None;
     title := Some (js "Deep learning"); year := None |}.

Definition deepLearning : ReferenceItem :=
  {| item_id := js "item-1"; item_title := js "Deep Learning";
     item_creators := []; item_date := None;
     item_doi := Some (js "10.1000/XYZ") |}.

(** A reference and an item with nothing to compare. *)
Definition bare : ParsedReference :=
  {| index := 3; text := js "unreadable"; doi := None; authors := None;
     title := None; year := None |}.

Definition untitled : ReferenceItem :=
  {| item_id := js "item-0"; item_title := []; item_creators := [];
     item_date := None; item_doi := None |}.

(** Two references that carry the index 1 and cite different items. *)
Definition firstCitation : ParsedReference :=
  {| index := 1; text := js "10.1000/xyz"; doi := Some (js "10.1000/xyz");
     authors := None; title := None; year := None |}.

Definition secondCitation : ParsedReference :=
  {| index := 1; text := js "10.2000/abc"; doi := Some (js "10.2000/abc");
     authors := None; title := None; year := None |}.

Definition otherPaper : ReferenceItem :=
  {| item_id := js "item-2"; item_title := js "Shallow Learning";
     item_creators := []; item_date := None;
     item_doi := Some (js "10.2000/abc") |}.

Definition library : list ReferenceItem := [deepLearning; otherPaper].

Definition sampleMatch (it : ReferenceItem) : MatchResult :=
  {| itemId := item_id it; similarity := (10 # 10)%Q; item := it |}.

End Samples.

(** ** White space: the page texts and the normalised strings *)

Module PdfText.
Import JS Regex CitationMatcher.

(** The length of the run of code units that satisfy [p] at the head of [s]. *)
Fixpoint runLength (p : N -> bool) (s : jsstring) : nat :=
  match s with
  | a :: s' => if p a then S (runLength p s') else 0
  | [] => 0
  end.

(** [s] with each maximal run of code units that satisfy [p] replaced by
    [repl]; [inRun] tells that the code unit before [s] was in a run. *)
Fixpoint squeeze (p : N -> bool) (repl : jsstring) (inRun : bool) (s : jsstring)
    : jsstring :=
  match s with
  | [] => []
  | a :: s' =>
      if p a
      then if inRun then squeeze p repl true s' else repl ++ squeeze p repl true s'
      else a :: squeeze p repl false s'
  end.


(** The text of a page: the [str] of its items joined by spaces, with
    each run of white space replaced by one space.  An item without [str]
    joins as the empty string. *)
Definition pageText (strs : list jsstring) : jsstring :=
  replace_all (plus space) (js " ") (join (js " ") strs).

(** [pageTexts.join(' ')], the text that [extractReferencesFromPdf]
    searches. *)
Definition fullText (pages : list (list jsstring)) : jsstring :=
  join (js " ") (map pageText pages).

(** The only white space of [s] is the space. *)
Definition plainSpaced (s : jsstring) : Prop :=
  Forall (fun a => is_space a = true -> a = 32%N) s.

(** No two spaces of [s] are adjacent. *)
Definition spacedOnce (s : jsstring) : Prop := ~ Pieces.occursIn (js "  ") s.

(** [s] is a list of words of word characters, separated by one space. *)
Definition wordsOnly (s : jsstring) : Prop :=
  Forall (fun a => is_word a = true \/ a = 32%N) s
  /\ spacedOnce s
  /\ (forall a, head s = Some a -> a <> 32%N)
  /\ (forall a, last s = Some a -> a <> 32%N).


(** An optional field, when present, has no white space but single spaces
    and does not start with one. *)
Definition singleSpaced (o : option jsstring) : Prop :=
  match o with
  | Some a =>
      plainSpaced a /\ spacedOnce a /\ forall c, head a = Some c -> c <> 32%N
  | None => True
  end.

End PdfText.

(** ** More sample data: a small library for the graph, and two texts *)

Module Examples.
Import JS Db Graph.

(** ASCII case raising, which agrees with [toUpperCase] on ASCII strings. *)
Definition upper_unit (c : N) : N := if is_lower c then (c - 32)%N else c.
Definition asciiUpperCase (s : jsstring) : jsstring := map upper_unit s.

(** One author under two spellings. *)
Definition smithJ : Creator :=
  {| firstName := Some (js "J"); lastName := js "Smith"; creatorType := author |}.

Definition smithJohn : Creator :=
  {| firstName := Some (js "John"); lastName := js " smith"; creatorType := author |}.

(** A creator with neither name, whose key is the bare separator. *)
Definition nameless : Creator :=
  {| firstName := None; lastName := []; creatorType := editor |}.

Definition onKnots : TaggedItem :=
  {| tagged := {| item_id := js "a"; item_title := js "On knots";
                  item_creators := [smithJ; nameless]; item_date := None;
                  item_doi := None |};
     tags := [js "Topology"; js " "] |}.

Definition moreKnots : TaggedItem :=
  {| tagged := {| item_id := js "b"; item_title := [];
                  item_creators := [smithJohn]; item_date := None;
                  item_doi := None |};
     tags := [js " topology "; js "Braids"] |}.

Definition shelf : list TaggedItem := [onKnots; moreKnots].

(** A text whose header word also occurs earlier in a sentence. *)
Definition withHeader : jsstring :=
  js "In References we list sources. References. Smith 2020.".

(** Three references in the author and year style, without numbers. *)
Definition authorYearList : jsstring :=
  js "Smith, J. (2020). Deep learning for knot theory. Journal of Knots. Doe, A. (2019). Another study of tangles and braids. Nature. Roe, B. (2018). A third paper on related matters. Science.".

(** A title as a reference list prints it. *)
Definition rawTitle : jsstring := js "Deep  Learning, 2nd ed!".

End Examples.

(** * Properties *)

(** ** The matcher moves forward and stays inside the string *)

Module RegexFacts.
Import JS Regex.

Lemma repeat_matcher_advances s k m reset g :
  advances s k m ->
  forall max min i c y,
    In y (repeat_matcher m reset g min max i c) ->
    i + Nat.min min max * k <= fst y /\ (i <= length s -> fst y <= length s).
Proof.
  intros Hm. induction max as [|max IH]; intros min i c y Hy; simpl in Hy.
  - destruct Hy as [<-|[]]. simpl. rewrite Nat.min_0_r. lia.
  - assert (Hiter :
      In y (flat_map (fun y0 : state =>
              if Nat.eqb min 0 && Nat.eqb (fst y0) i then []
              else repeat_matcher m reset g (pred min) max (fst y0) (snd y0))
              (m i (reset c))) ->
      i + Nat.min min (S max) * k <= fst y /\ (i <= length s -> fst y <= length s)).
    { intros Hin. apply in_flat_map in Hin as (y1 & Hy1 & Hin).
      apply Hm in Hy1 as [Hlo Hhi].
      destruct (Nat.eqb min 0 && Nat.eqb (fst y1) i); [destruct Hin|].
      apply IH in Hin as [Hlo' Hhi'].
      split; [|lia].
      destruct min as [|p]; simpl in *; lia. }
    assert (Hskip : min = 0 -> y = (i, c) ->
      i + Nat.min min (S max) * k <= fst y /\ (i <= length s -> fst y <= length s)).
    { intros -> ->. simpl. lia. }
    destruct (Nat.eqb_spec min 0) as [Hz|Hz]; simpl in Hy.
    + destruct g.
      * apply in_app_iff in Hy as [Hy|[Hy|[]]]; auto.
      * destruct Hy as [Hy|Hy]; auto.
    + auto.
Qed.

Lemma flat_map_ext_in {A B} (f g : A -> list B) l :
  (forall a, In a l -> f a = g a) -> flat_map f l = flat_map g l.
Proof.
  induction l as [|a l IH]; intros H; simpl; [reflexivity|].
  rewrite (H a) by now left. rewrite IH; [reflexivity|].
  intros b Hb. apply H. now right.
Qed.

(** The iteration bound of a quantifier does not matter once it exceeds
    [min + (length s - i)]: all larger bounds give the same states, so the
    bound chosen in [run] for an unbounded quantifier stands for no bound
    at all. *)
Lemma repeat_matcher_unbounded s m reset g :
  advances s 0 m ->
  forall n min i c max1 max2,
    min + (length s - i) < n -> i <= length s -> n <= max1 -> n <= max2 ->
    repeat_matcher m reset g min max1 i c = repeat_matcher m reset g min max2 i c.
Proof.
  intros Hm. induction n as [|n IH]; intros min i c max1 max2 Hn Hi H1 H2; [lia|].
  destruct max1 as [|max1]; [lia|]. destruct max2 as [|max2]; [lia|]. simpl.
  assert (E : forall k1 k2, n <= k1 -> n <= k2 ->
    flat_map (fun y : state =>
                if Nat.eqb min 0 && Nat.eqb (fst y) i then []
                else repeat_matcher m reset g (pred min) k1 (fst y) (snd y))
             (m i (reset c))
    = flat_map (fun y : state =>
                if Nat.eqb min 0 && Nat.eqb (fst y) i then []
                else repeat_matcher m reset g (pred min) k2 (fst y) (snd y))
             (m i (reset c))).
  { intros k1 k2 Hk1 Hk2. apply flat_map_ext_in. intros y Hy.
    apply Hm in Hy as [Hlo Hhi]. specialize (Hhi Hi).
    destruct (Nat.eqb_spec min 0) as [Hz|Hz]; simpl.
    - destruct (Nat.eqb_spec (fst y) i) as [He|He]; [reflexivity|].
      apply IH; lia.
    - apply IH; lia. }
  now rewrite (E max1 max2) by lia.
Qed.

Lemma run_advances s r : advances s (minlen r) (run s r).
Proof.
  induction r as [|p|r1 IH1 r2 IH2|r1 IH1 r2 IH2|g mn mx r IH|n r IH|r IH| | |];
    intros i c y Hy; simpl in Hy |- *.
  - destruct Hy as [<-|[]]; simpl; lia.
  - destruct (s !! i) as [a|] eqn:Ha; [|destruct Hy].
    apply lookup_lt_Some in Ha.
    destruct (p a); [|destruct Hy].
    destruct Hy as [<-|[]]; simpl; lia.
  - apply in_flat_map in Hy as (y1 & Hy1 & Hy).
    apply IH1 in Hy1. apply IH2 in Hy. lia.
  - apply in_app_iff in Hy as [Hy|Hy]; [apply IH1 in Hy|apply IH2 in Hy]; lia.
  - apply (repeat_matcher_advances s (minlen r)) in Hy; [|exact IH].
    destruct mx as [k|]; [exact Hy|].
    rewrite Nat.min_l in Hy by lia. exact Hy.
  - apply in_map_iff in Hy as (y1 & <- & Hy1). apply IH in Hy1. simpl. lia.
  - destruct (run s r i c) as [|y1 l]; [destruct Hy|].
    destruct Hy as [<-|[]]; simpl; lia.
  - destruct (Nat.eqb i 0); [|destruct Hy]. destruct Hy as [<-|[]]; simpl; lia.
  - destruct (Nat.eqb i (length s)); [|destruct Hy].
    destruct Hy as [<-|[]]; simpl; lia.
  - destruct (xorb _ _); [|destruct Hy]. destruct Hy as [<-|[]]; simpl; lia.
Qed.

Lemma advances_weaken s k m : advances s k m -> advances s 0 m.
Proof. intros H i c y Hy. apply H in Hy. lia. Qed.

(** An unbounded quantifier behaves as the bounded one for every large
    enough bound. *)
Lemma run_unbounded s g mn r i c max :
  i <= length s -> mn + (length s - i) + 1 <= max ->
  run s (Rep g mn None r) i c = run s (Rep g mn (Some max) r) i c.
Proof.
  intros Hi Hmax. simpl.
  apply (repeat_matcher_unbounded s (run s r) _ g
           (advances_weaken _ _ _ (run_advances s r))
           (mn + (length s - i) + 1)); lia.
Qed.

(** *** Captures *)

Lemma cap_clear_nil c : cap_clear [] c = c.
Proof.
  unfold cap_clear. induction c as [|p c IH]; simpl; [reflexivity|].
  f_equal. exact IH.
Qed.

Lemma repeat_matcher_keeps (m : matcher) reset g :
  (forall i c y, In y (m i c) -> snd y = c) ->
  (forall c, reset c = c) ->
  forall max min i c y, In y (repeat_matcher m reset g min max i c) -> snd y = c.
Proof.
  intros Hm Hreset. induction max as [|max IH]; intros min i c y Hy; simpl in Hy.
  - now destruct Hy as [<-|[]].
  - assert (Hiter :
      In y (flat_map (fun y0 : state =>
              if Nat.eqb min 0 && Nat.eqb (fst y0) i then []
              else repeat_matcher m reset g (pred min) max (fst y0) (snd y0))
              (m i (reset c))) -> snd y = c).
    { intros Hin. apply in_flat_map in Hin as (y1 & Hy1 & Hin).
      apply Hm in Hy1. rewrite Hreset in Hy1.
      destruct (Nat.eqb min 0 && Nat.eqb (fst y1) i); [destruct Hin|].
      apply IH in Hin. congruence. }
    destruct (negb (Nat.eqb min 0)); [auto|].
    destruct g.
    + apply in_app_iff in Hy as [Hy|[<-|[]]]; auto.
    + destruct Hy as [<-|Hy]; auto.
Qed.

(** A pattern without capturing groups leaves the captures as they are. *)
Lemma run_keeps s r :
  groups r = [] -> forall i c y, In y (run s r i c) -> snd y = c.
Proof.
  induction r as [|p|r1 IH1 r2 IH2|r1 IH1 r2 IH2|g mn mx r IH|n r IH|r IH| | |];
    simpl groups; intros Hg i c y Hy; simpl in Hy.
  - now destruct Hy as [<-|[]].
  - destruct (s !! i) as [a|]; [|destruct Hy].
    destruct (p a); [|destruct Hy]. now destruct Hy as [<-|[]].
  - apply app_eq_nil in Hg as [Hg1 Hg2].
    apply in_flat_map in Hy as (y1 & Hy1 & Hy).
    apply (IH1 Hg1) in Hy1. apply (IH2 Hg2) in Hy. congruence.
  - apply app_eq_nil in Hg as [Hg1 Hg2].
    apply in_app_iff in Hy as [Hy|Hy]; [now apply (IH1 Hg1) in Hy|now apply (IH2 Hg2) in Hy].
  - eapply repeat_matcher_keeps; [exact (IH Hg)| |exact Hy].
    intros c'. rewrite Hg. apply cap_clear_nil.
  - discriminate Hg.
  - destruct (run s r i c) as [|y1 l] eqn:E; [destruct Hy|].
    destruct Hy as [<-|[]]. simpl. apply (IH Hg i c). rewrite E. now left.
  - destruct (Nat.eqb i 0); [|destruct Hy]. now destruct Hy as [<-|[]].
  - destruct (Nat.eqb i (length s)); [|destruct Hy]. now destruct Hy as [<-|[]].
  - destruct (xorb _ _); [|destruct Hy]. now destruct Hy as [<-|[]].
Qed.

(** [p{n}] for a character class [p] consumes exactly [n] code units of
    the class. *)
Lemma repeat_class p s n i c y :
  In y (repeat_matcher (run s (Cls p)) (cap_clear []) true n n i c) ->
  y = (i + n, c)
  /\ forall k, k < n -> exists a, s !! (i + k) = Some a /\ p a = true.
Proof.
  induction n as [|n IH] in i, c |- *; simpl; intros Hy.
  - destruct Hy as [<-|[]]. split; [f_equal; lia|]. intros k Hk. lia.
  - apply in_flat_map in Hy as (y1 & Hy1 & Hy).
    rewrite cap_clear_nil in Hy1.
    destruct (s !! i) as [a|] eqn:Ha; [|destruct Hy1].
    destruct (p a) eqn:Hp; [|destruct Hy1].
    destruct Hy1 as [<-|[]]. simpl in Hy.
    apply IH in Hy as [-> Hrest]. split; [f_equal; lia|].
    intros [|k] Hk.
    + exists a. rewrite Nat.add_0_r. auto.
    + destruct (Hrest k) as (b & Hb & Hpb); [lia|].
      exists b. split; [|exact Hpb]. rewrite <- Hb. f_equal. lia.
Qed.

Lemma exec_at_advances r s i y :
  exec_at r s i = Some y ->
  i + minlen r <= fst y /\ (i <= length s -> fst y <= length s).
Proof.
  unfold exec_at. intros H. apply (run_advances s r i [] y).
  destruct (run s r i []); [discriminate|]. injection H as ->. now left.
Qed.

(** The first match of a [g] pattern lies inside the string and spans at
    least [minlen] code units. *)
Lemma scan_all_head r s starts last a b rest :
  Forall (fun i => i <= length s) starts ->
  scan_all r s starts last = (a, b) :: rest ->
  a + minlen r <= b /\ b <= length s.
Proof.
  induction starts as [|i starts IH] in last |- *; intros Hall H; simpl in H.
  - discriminate.
  - apply Forall_cons in Hall as [Hi Hall].
    destruct (Nat.ltb i last); [eauto|].
    destruct (exec_at r s i) as [y|] eqn:Hy; [|eauto].
    injection H as <- <- _. apply exec_at_advances in Hy. lia.
Qed.

Lemma starts_in_string (s : jsstring) :
  Forall (fun i => i <= length s) (seq 0 (S (length s))).
Proof. apply Forall_forall. intros i Hi. apply elem_of_seq in Hi. lia. Qed.

Lemma match_all_head r s a b rest :
  match_all r s = (a, b) :: rest -> a + minlen r <= b /\ b <= length s.
Proof. apply scan_all_head, starts_in_string. Qed.

Lemma length_substring (s : jsstring) a b :
  b <= length s -> length (substring s a b) = b - a.
Proof. intros H. unfold substring. rewrite length_take, length_drop. lia. Qed.

Lemma length_prefix (s : jsstring) n : length (substring s 0 n) <= n.
Proof. unfold substring. rewrite length_take. lia. Qed.

End RegexFacts.

(** ** The reference parser *)

Module ReferenceParserFacts.
Import JS Regex Db ReferenceParser RegexFacts.

(** *** The year is four digits *)

Lemma run_Seq s r1 r2 i c :
  run s (Seq r1 r2) i c
  = flat_map (fun y : state => run s r2 (fst y) (snd y)) (run s r1 i c).
Proof. reflexivity. Qed.

Lemma run_yearCapture s i c :
  run s yearCapture i c
  = map (fun y : state => (fst y, cap_set 1 (i, fst y) (snd y)))
        (repeat_matcher (run s (Cls is_digit)) (cap_clear []) true 4 4 i c).
Proof. reflexivity. Qed.

Lemma yearCapture_then s post :
  groups post = [] -> capturesYear s (Seq yearCapture post).
Proof.
  intros Hg i c y Hy. rewrite run_Seq, run_yearCapture in Hy.
  apply in_flat_map in Hy as (y1 & Hy1 & Hy).
  apply in_map_iff in Hy1 as (y0 & <- & Hy0).
  apply repeat_class in Hy0 as [-> Hdigits].
  apply (run_keeps s post Hg) in Hy. simpl in Hy.
  exists i. rewrite Hy. simpl. split; [reflexivity|exact Hdigits].
Qed.

Lemma capturesYear_after s pre r : capturesYear s r -> capturesYear s (Seq pre r).
Proof.
  intros Hr i c y Hy. rewrite run_Seq in Hy.
  apply in_flat_map in Hy as (y1 & _ & Hy). exact (Hr _ _ _ Hy).
Qed.

Lemma year_patterns_capture s :
  capturesYear s yearParen /\ capturesYear s yearPeriod /\ capturesYear s yearAny.
Proof.
  unfold yearParen, yearPeriod, yearAny. simpl seqs.
  repeat split;
    repeat first [apply yearCapture_then; reflexivity | apply capturesYear_after].
Qed.

Lemma fourDigits_substring s j :
  fourDigits s j -> isYear (Some (substring s j (j + 4))).
Proof.
  intros H. unfold substring. replace (j + 4 - j) with 4 by lia. split.
  - destruct (H 3) as (a & Ha & _); [lia|]. apply lookup_lt_Some in Ha.
    rewrite length_take, length_drop. lia.
  - apply Forall_lookup. intros k a Hk.
    apply lookup_take_Some in Hk as [Hk Hlt]. rewrite lookup_drop in Hk.
    destruct (H k Hlt) as (b & Hb & Hd).
    unfold jsstring in *. rewrite Hk in Hb. now injection Hb as <-.
Qed.

Lemma first_group_year r s y :
  capturesYear s r -> first_group r s = Some y -> isYear (Some y).
Proof.
  intros Hr. unfold first_group, exec.
  generalize (seq 0 (S (length s))). intros starts.
  induction starts as [|i starts IH]; simpl; [discriminate|].
  unfold exec_at. destruct (run s r i []) as [|y0 l] eqn:E; simpl; [exact IH|].
  destruct (Hr i [] y0) as (j & Hj & Hd); [rewrite E; now left|].
  unfold group. simpl. rewrite Hj. intros [= <-]. now apply fourDigits_substring.
Qed.

Lemma extractYear_year text y : extractYear text = Some y -> isYear (Some y).
Proof.
  destruct (year_patterns_capture text) as (H1 & H2 & H3).
  unfold extractYear.
  destruct (first_group yearParen text) as [y1|] eqn:E1.
  - intros [= <-]. exact (first_group_year _ _ _ H1 E1).
  - destruct (first_group yearPeriod text) as [y2|] eqn:E2.
    + intros [= <-]. exact (first_group_year _ _ _ H2 E2).
    + intros E3. exact (first_group_year _ _ _ H3 E3).
Qed.

Lemma isYear_truthy o : isYear o -> truthy o = true.
Proof. destruct o as [[|a y]|]; simpl; [intros [H _]; discriminate H|reflexivity|tauto]. Qed.

Lemma extractDoi_length text d : extractDoi text = Some d -> 9 <= length d.
Proof.
  unfold extractDoi. destruct (match_all DOI_REGEX text) as [|[a b] rest] eqn:E.
  - discriminate.
  - intros [= <-]. apply match_all_head in E as [Hlo Hhi].
    rewrite length_substring by exact Hhi.
    change (minlen DOI_REGEX) with 9 in Hlo. lia.
Qed.

Lemma extractTitle_length text y : atMost 200 (extractTitle text y).
Proof.
  unfold extractTitle. destruct y as [[|u y]|]; try exact I.
  destruct (first_group _ text) as [[|v g]|]; try exact I.
  unfold atMost. apply length_prefix.
Qed.

Lemma extractAuthors_length text y : atMost 250 (extractAuthors text y).
Proof.
  unfold extractAuthors. destruct y as [[|u y]|]; try exact I.
  destruct (first_group _ text) as [[|v g]|]; try exact I.
  unfold atMost. apply length_prefix.
Qed.

Lemma checkAuthors_length o : atMost 250 o -> atMost 250 (checkAuthors o).
Proof.
  unfold checkAuthors. destruct o as [[|u a]|]; trivial.
  destruct (_ || _); simpl; trivial.
Qed.

Lemma checkAuthors_filtered o : authorsFiltered (checkAuthors o).
Proof.
  unfold checkAuthors. destruct o as [[|u a]|]; [exact I| |exact I].
  destruct (length (u :: a) <? 3) eqn:Hlen; [exact I|].
  destruct (test (seqs [Bol; digit]) (u :: a)) eqn:Ht; [exact I|].
  apply Nat.ltb_ge in Hlen. unfold authorsFiltered. now split.
Qed.

(** The index handed to [stripNumber] only matters for the index it returns. *)
Lemma stripNumber_text patterns i j trimmed :
  snd (stripNumber patterns i trimmed) = snd (stripNumber patterns j trimmed).
Proof.
  induction patterns as [|pattern rest IH]; simpl; [reflexivity|].
  destruct (exec pattern trimmed); [reflexivity|exact IH].
Qed.

Lemma parseLine_emitted count line r : parseLine count line = Some r -> emitted r.
Proof.
  unfold parseLine.
  destruct (negb _ || _ || _); [discriminate|].
  destruct (negb (test yearToken (trim line))); [discriminate|].
  destruct (stripNumber _ _ _) as [i t].
  destruct (truthy (extractYear t)) eqn:Hy; simpl; [|discriminate].
  intros [= <-]. split; simpl.
  - destruct (extractYear t) as [y|] eqn:E; [|discriminate Hy].
    exact (extractYear_year _ _ E).
  - apply length_prefix.
  - apply extractTitle_length.
  - apply checkAuthors_length, extractAuthors_length.
  - apply checkAuthors_filtered.
  - apply extractDoi_length.
Qed.

Lemma parseLine_hasYear count line :
  hasYear line = false -> parseLine count line = None.
Proof.
  unfold hasYear, parseLine. intros H.
  destruct (negb _ || _ || _); [reflexivity|].
  destruct (test yearToken (trim line)); [|reflexivity].
  rewrite andb_true_l in H.
  rewrite (stripNumber_text _ _ (Z.of_nat count + 1)%Z) in H.
  destruct (stripNumber _ _ _) as [i t]. cbn [snd negb] in H |- *. now rewrite H.
Qed.

Lemma fold_pushLine_emitted lines acc :
  Forall emitted acc -> Forall emitted (fold_left pushLine lines acc).
Proof.
  induction lines as [|line lines IH] in acc |- *; intros Hacc; simpl; [exact Hacc|].
  apply IH. unfold pushLine.
  destruct (parseLine (length acc) line) as [r|] eqn:E; [|exact Hacc].
  apply Forall_app. split; [exact Hacc|].
  apply Forall_cons. split; [|apply Forall_nil; exact I].
  exact (parseLine_emitted _ _ _ E).
Qed.

Lemma parseReferences_emitted text : Forall emitted (parseReferences text).
Proof. apply fold_pushLine_emitted, Forall_nil. exact I. Qed.

Lemma fold_pushLine_filter lines acc :
  fold_left pushLine lines acc = fold_left pushLine (List.filter hasYear lines) acc.
Proof.
  induction lines as [|line lines IH] in acc |- *; simpl; [reflexivity|].
  destruct (hasYear line) eqn:H; simpl; [apply IH|].
  unfold pushLine at 2. rewrite (parseLine_hasYear _ _ H). apply IH.
Qed.

(** C3: every record that [parseReferences] emits has a year, a string of
    four decimal digits, and the segments that fail the year checks
    contribute nothing: the result is the one obtained from the segments
    that have a year. *)
Theorem parseReferences_year_mandatory (referencesText : jsstring) :
  Forall (fun r => isYear (year r) /\ truthy (year r) = true)
         (parseReferences referencesText)
  /\ parseReferences referencesText
     = fold_left pushLine (List.filter hasYear (segments referencesText)) [].
Proof.
  split.
  - eapply Forall_impl; [apply parseReferences_emitted|].
    intros r Hr. pose proof (emitted_year r Hr) as Hy.
    split; [exact Hy|now apply isYear_truthy].
  - apply fold_pushLine_filter.
Qed.

(** C7: in every emitted record [text] has at most 500 code units, [title]
    at most 200 and [authors] at most 250. *)
Theorem parseReferences_lengths (referencesText : jsstring) :
  Forall (fun r => length (text r) <= 500
                   /\ atMost 200 (title r) /\ atMost 250 (authors r))
         (parseReferences referencesText).
Proof.
  eapply Forall_impl; [apply parseReferences_emitted|].
  intros r [_ Htext Htitle Hauthors _ _]. auto.
Qed.

(** C9: on the empty text [parseReferences] returns the empty sequence. *)
Theorem parseReferences_empty_text : parseReferences [] = [].
Proof. vm_compute. reflexivity. Qed.

(** No test follows the trim of the title: on a text with a run of ten
    spaces after the year (page texts have none), the capture is trimmed
    to the empty string and stored. *)
Lemma parseReferences_blank_title :
  parseReferences (js "Smith, J. (2020).           . The end of it")
  = [ {| index := 1;
         text := js "Smith, J. (2020).           . The end of it";
         doi := None;
         authors := Some (js "Smith, J.");
         title := Some [];
         year := Some (js "2020") |} ]
  /\ ~ Forall (fun r => absentOrNonEmpty (doi r) /\ absentOrNonEmpty (authors r)
                        /\ absentOrNonEmpty (title r) /\ absentOrNonEmpty (year r))
        (parseReferences (js "Smith, J. (2020).           . The end of it")).
Proof.
  assert (E : parseReferences (js "Smith, J. (2020).           . The end of it")
              = [ {| index := 1;
                     text := js "Smith, J. (2020).           . The end of it";
                     doi := None;
                     authors := Some (js "Smith, J.");
                     title := Some [];
                     year := Some (js "2020") |} ]) by (vm_compute; reflexivity).
  split; [exact E|].
  rewrite E. intros H. apply Forall_cons in H as [(_ & _ & Ht & _) _]. exact Ht.
Qed.

(** C5: a record can carry [authors] present and empty.  The sanity
    filter [authors && (authors.length < 3 || ...)] is there to drop
    authors that are too short, but the empty string makes its first
    operand false, so the empty string stays.  Here the text before the
    year is a leading [and], which the extractor removes: the record that
    [parseReferences] returns has the empty string for [authors], against
    the claim. *)
Theorem parseReferences_blank_authors :
  let referencesText := js "and (2020). Some title here and so on." in
  parseReferences referencesText
  = [ {| index := 1;
         text := referencesText;
         doi := None;
         authors := Some [];
         title := Some (js "Some title here and so on");
         year := Some (js "2020") |} ]
  /\ checkAuthors (Some []) = Some []
  /\ ~ Forall (fun r => absentOrNonEmpty (doi r) /\ absentOrNonEmpty (authors r)
                        /\ absentOrNonEmpty (title r) /\ absentOrNonEmpty (year r))
        (parseReferences referencesText).
Proof.
  intros referencesText.
  assert (E : parseReferences referencesText
              = [ {| index := 1;
                     text := referencesText;
                     doi := None;
                     authors := Some [];
                     title := Some (js "Some title here and so on");
                     year := Some (js "2020") |} ]) by (vm_compute; reflexivity).
  split; [exact E|]. split; [reflexivity|].
  rewrite E. intros H. apply Forall_cons in H as [(_ & Ha & _) _]. exact Ha.
Qed.

(** What does hold of the optional fields: in every emitted record [doi]
    and [year] are absent or non-empty, and [authors] is absent, empty, or
    has at least three code units and no leading digit. *)
Lemma parseReferences_optional_fields (referencesText : jsstring) :
  Forall (fun r => absentOrNonEmpty (doi r) /\ absentOrNonEmpty (year r)
                   /\ authorsFiltered (authors r))
         (parseReferences referencesText).
Proof.
  eapply Forall_impl; [apply parseReferences_emitted|].
  intros r [Hyear _ _ _ Hfiltered Hdoi]. repeat split.
  - destruct (doi r) as [[|u d]|]; simpl; trivial.
    specialize (Hdoi [] eq_refl). simpl in Hdoi. lia.
  - apply isYear_truthy in Hyear.
    destruct (year r) as [[|u y]|]; simpl in *; trivial. discriminate.
  - exact Hfiltered.
Qed.

(** What [findReferencesSection] computes: for the first segment whose
    trimmed text is a header, the offset after the first occurrence of
    that text in the document; -1 when no segment is a header. *)
Lemma find_header_first text before l after :
  Forall (fun l' => existsb (fun pattern => test pattern (trim l'))
                      REFERENCE_SECTION_PATTERNS = false) before ->
  existsb (fun pattern => test pattern (trim l)) REFERENCE_SECTION_PATTERNS = true ->
  find_header text (before ++ l :: after)
  = ((match indexOf text (trim l) with Some k => Z.of_nat k | None => -1 end)
     + Z.of_nat (length (trim l)))%Z.
Proof.
  intros Hbefore Hl.
  induction Hbefore as [|l' before Hl' _ IH]; cbn [app find_header].
  - now rewrite Hl.
  - now rewrite Hl'.
Qed.

Lemma find_header_none text lines :
  Forall (fun l' => existsb (fun pattern => test pattern (trim l'))
                      REFERENCE_SECTION_PATTERNS = false) lines ->
  find_header text lines = (-1)%Z.
Proof.
  induction 1 as [|l' lines Hl' _ IH]; cbn [find_header]; [reflexivity|].
  now rewrite Hl'.
Qed.

(** C4: the header is looked up again with [indexOf], which finds the first
    occurrence of its text.  Here the second segment is the header; it
    spans offsets 31 to 41, and the function returns 13, the offset after
    the word in the first sentence. *)
Theorem findReferencesSection_first_occurrence :
  let text := js "In References we list sources. References. Smith 2020." in
  split (Cls (fun a => unit_eqb a 46 || unit_eqb a LF)) text
  = [js "In References we list sources"; js " References"; js " Smith 2020"; []]
  /\ existsb (fun pattern => test pattern (js "In References we list sources"))
       REFERENCE_SECTION_PATTERNS = false
  /\ existsb (fun pattern => test pattern (trim (js " References")))
       REFERENCE_SECTION_PATTERNS = true
  /\ substring text 31 41 = js "References"
  /\ findReferencesSection text = 13%Z.
Proof. vm_compute. repeat split; reflexivity. Qed.

End ReferenceParserFacts.

(** ** The citation matcher *)

Module CitationMatcherFacts.
Import JS Regex Db CitationMatcher.

Local Open Scope Q_scope.

Lemma Qdiv_le_cross a b c d :
  0 < b -> 0 < d -> a * d <= c * b -> a / b <= c / d.
Proof.
  intros Hb Hd H. apply Qle_shift_div_r; [exact Hb|].
  assert (E : c / d * b == c * b / d) by (field; lra). rewrite E.
  apply Qle_shift_div_l; [exact Hd|exact H].
Qed.

Lemma Qdiv_lt_cross a b c d :
  0 < b -> 0 < d -> a * d < c * b -> a / b < c / d.
Proof.
  intros Hb Hd H. apply Qlt_shift_div_r; [exact Hb|].
  assert (E : c / d * b == c * b / d) by (field; lra). rewrite E.
  apply Qlt_shift_div_l; [exact Hd|exact H].
Qed.

Lemma inject_nat_le (n m : nat) :
  (n <= m)%nat -> inject_Z (Z.of_nat n) <= inject_Z (Z.of_nat m).
Proof. intros H. rewrite <- Zle_Qle. lia. Qed.

Lemma inject_nat_pos (n : nat) : (0 < n)%nat -> 0 < inject_Z (Z.of_nat n).
Proof. intros H. change 0 with (inject_Z 0). rewrite <- Zlt_Qlt. lia. Qed.

Lemma fuzzyMatch_range str1 str2 : 0 <= fuzzyMatch str1 str2 <= 1.
Proof.
  unfold fuzzyMatch.
  destruct (Nat.eqb_spec (size (wordSet str1)) 0) as [H1|H1]; simpl.
  - destruct (Nat.eqb (size (wordSet str2)) 0); lra.
  - destruct (Nat.eqb (size (wordSet str2)) 0); [lra|].
    assert (Hsub : (size (wordSet str1) <= size (wordSet str1 ∪ wordSet str2))%nat)
      by (apply subseteq_size; set_solver).
    assert (Hint : (size (filter (fun w => w ∈ wordSet str2) (wordSet str1))
                    <= size (wordSet str1 ∪ wordSet str2))%nat).
    { apply subseteq_size. intros w Hw. apply elem_of_filter in Hw as [_ Hw].
      apply elem_of_union. now left. }
    assert (Hpos : 0 < inject_Z (Z.of_nat (size (wordSet str1 ∪ wordSet str2))))
      by (apply inject_nat_pos; lia).
    split.
    + apply Qle_shift_div_l; [exact Hpos|]. rewrite Qmult_0_l.
      change 0 with (inject_Z (Z.of_nat 0)). apply inject_nat_le. lia.
    + apply Qle_shift_div_r; [exact Hpos|]. rewrite Qmult_1_l.
      apply inject_nat_le. exact Hint.
Qed.

Section Scoring.

Variable toLowerCase : jsstring -> jsstring.
Variable fullYear : jsstring -> jsstring.

Local Abbreviation normalizeString := (normalizeString toLowerCase).
Local Abbreviation doiMatches := (doiMatches toLowerCase).
Local Abbreviation doiSignal := (doiSignal toLowerCase).
Local Abbreviation yearSignal := (yearSignal fullYear).
Local Abbreviation titleSignal := (titleSignal toLowerCase).
Local Abbreviation authorsSignal := (authorsSignal toLowerCase).
Local Abbreviation otherSignals := (otherSignals toLowerCase fullYear).
Local Abbreviation signals := (signals toLowerCase fullYear).
Local Abbreviation calculateSimilarity := (calculateSimilarity toLowerCase fullYear).
Local Abbreviation findMatchingItems := (findMatchingItems toLowerCase fullYear).
Local Abbreviation matchReferencesToLibrary :=
  (matchReferencesToLibrary toLowerCase fullYear).

Lemma shifts_compose f g s w s' w' :
  shifts f s w -> shifts g s' w' -> shifts (fun t => g (f t)) (s + s') (w + w').
Proof.
  intros Hf Hg t. destruct (Hf t) as [Hf1 Hf2], (Hg (f t)) as [Hg1 Hg2].
  rewrite Hg1, Hg2, Hf1, Hf2. split; ring.
Qed.

Lemma doiSignal_shift reference it :
  shifts (doiSignal reference it)
         (if doiMatches reference it then 10 else 0)
         (if doiComparable reference it then 10 else 0).
Proof.
  intros t. unfold CitationMatcher.doiSignal, CitationMatcher.doiMatches.
  destruct (doiComparable reference it); simpl; [|split; ring].
  destruct (str_eqb _ _); simpl; split; ring.
Qed.

Lemma yearSignal_shift reference it :
  exists s w, 0 <= s <= w /\ shifts (yearSignal reference it) s w.
Proof.
  unfold CitationMatcher.yearSignal. destruct (yearComparable reference it).
  - destruct (str_eqb _ _).
    + exists 2, 2. split; [lra|]. intros t; simpl; split; ring.
    + exists 0, 2. split; [lra|]. intros t; simpl; split; ring.
  - exists 0, 0. split; [lra|]. intros t; simpl; split; ring.
Qed.

Lemma titleSignal_shift reference it :
  exists s w, 0 <= s <= w /\ shifts (titleSignal reference it) s w.
Proof.
  unfold CitationMatcher.titleSignal. destruct (titleComparable reference it).
  - cbv zeta. set (f := fuzzyMatch _ _).
    assert (Hf : 0 <= f <= 1) by apply fuzzyMatch_range.
    exists (f * 5), 5. split; [lra|]. intros t; simpl; split; reflexivity.
  - exists 0, 0. split; [lra|]. intros t; simpl; split; ring.
Qed.

Lemma authorsSignal_shift reference it :
  exists s w, 0 <= s <= w /\ shifts (authorsSignal reference it) s w.
Proof.
  unfold CitationMatcher.authorsSignal. destruct (authorsComparable reference it).
  - cbv zeta. set (f := fuzzyMatch _ _).
    assert (Hf : 0 <= f <= 1) by apply fuzzyMatch_range.
    destruct (item_creators it) as [|firstAuthor others].
    + exists (f * (3 # 2)), 3. split; [lra|]. intros t; simpl; split; reflexivity.
    + destruct (includes _ _).
      * exists ((3 # 2) + f * (3 # 2)), 3. split; [lra|].
        intros t; simpl; split; [ring|reflexivity].
      * exists (f * (3 # 2)), 3. split; [lra|]. intros t; simpl; split; reflexivity.
  - exists 0, 0. split; [lra|]. intros t; simpl; split; ring.
Qed.

Lemma otherSignals_shift reference it :
  exists s w, 0 <= s <= w /\ shifts (otherSignals reference it) s w.
Proof.
  destruct (yearSignal_shift reference it) as (s1 & w1 & H1 & S1).
  destruct (titleSignal_shift reference it) as (s2 & w2 & H2 & S2).
  destruct (authorsSignal_shift reference it) as (s3 & w3 & H3 & S3).
  exists (s1 + s2 + s3), (w1 + w2 + w3). split; [lra|].
  exact (shifts_compose _ _ _ _ _ _ (shifts_compose _ _ _ _ _ _ S1 S2) S3).
Qed.

Lemma signals_split reference it :
  signals reference it = otherSignals reference it (doiSignal reference it (0, 0)).
Proof. reflexivity. Qed.

Lemma calculateSimilarity_unfold reference it :
  calculateSimilarity reference it
  = if Qeq_bool (snd (signals reference it)) 0 then 0
    else fst (signals reference it) / snd (signals reference it).
Proof.
  unfold CitationMatcher.calculateSimilarity.
  destruct (signals reference it) as [score totalWeight]. reflexivity.
Qed.

(** The score and the total weight of a pair: the DOI part and the rest. *)
Lemma signals_shape reference it :
  exists s w, 0 <= s <= w
    /\ shifts (otherSignals reference it) s w
    /\ fst (signals reference it) == (if doiMatches reference it then 10 else 0) + s
    /\ snd (signals reference it) == (if doiComparable reference it then 10 else 0) + w.
Proof.
  destruct (otherSignals_shift reference it) as (s & w & Hsw & Hshift).
  exists s, w. split; [exact Hsw|]. split; [exact Hshift|].
  rewrite signals_split.
  destruct (Hshift (doiSignal reference it (0, 0))) as [H1 H2].
  destruct (doiSignal_shift reference it (0, 0)) as [D1 D2].
  rewrite H1, H2, D1, D2. simpl. split; ring.
Qed.

Lemma doiMatches_comparable reference it :
  doiMatches reference it = true -> doiComparable reference it = true.
Proof. unfold CitationMatcher.doiMatches. intros H. now apply andb_true_iff in H. Qed.

Lemma ratio sc tw x y :
  sc == x -> tw == y -> 0 < y ->
  (if Qeq_bool tw 0 then 0 else sc / tw) == x / y.
Proof.
  intros Hs Ht Hy. destruct (Qeq_bool tw 0) eqn:E.
  - apply Qeq_bool_iff in E. lra.
  - now rewrite Hs, Ht.
Qed.

Lemma ratio_range x y : 0 <= x <= y -> 0 < y -> 0 <= x / y <= 1.
Proof.
  intros Hx Hy. split.
  - apply Qle_shift_div_l; [exact Hy|]. lra.
  - apply Qle_shift_div_r; [exact Hy|]. lra.
Qed.

Lemma calculateSimilarity_bounds reference it :
  0 <= calculateSimilarity reference it <= 1.
Proof.
  rewrite calculateSimilarity_unfold.
  destruct (signals_shape reference it) as (s & w & Hsw & _ & Hs & Hw).
  destruct (Qeq_bool (snd (signals reference it)) 0) eqn:E; [lra|].
  apply Qeq_bool_neq in E.
  assert (Hd : 0 <= (if doiMatches reference it then 10 else 0)
               <= (if doiComparable reference it then 10 else 0)).
  { destruct (doiMatches reference it) eqn:M.
    - rewrite (doiMatches_comparable _ _ M). lra.
    - destruct (doiComparable reference it); lra. }
  apply ratio_range; [lra|].
  destruct (Qlt_le_dec 0 (snd (signals reference it))) as [Hpos|Hneg]; [exact Hpos|].
  exfalso. apply E. lra.
Qed.

Lemma otherSignals_ext r1 r2 i1 i2 t :
  sameExceptDoi r1 r2 -> sameItemExceptDoi i1 i2 ->
  otherSignals r1 i1 t = otherSignals r2 i2 t.
Proof.
  intros (_ & _ & Ha & Ht & Hy) (_ & Hit & Hic & Hid).
  unfold otherSignals, CitationMatcher.authorsSignal, CitationMatcher.titleSignal,
    CitationMatcher.yearSignal, authorsComparable, titleComparable, yearComparable.
  rewrite Ha, Ht, Hy, Hit, Hic, Hid. reflexivity.
Qed.

(** Either the pair with the matching DOI scores strictly higher, or the
    other pair has no comparable DOI and both score 1. *)
Lemma dominance_cases r1 r2 i1 i2 :
  sameExceptDoi r1 r2 -> sameItemExceptDoi i1 i2 ->
  doiMatches r1 i1 = true -> doiMatches r2 i2 = false ->
  calculateSimilarity r2 i2 < calculateSimilarity r1 i1
  \/ (doiComparable r2 i2 = false
      /\ calculateSimilarity r2 i2 == 1 /\ calculateSimilarity r1 i1 == 1).
Proof.
  intros Hr Hi M1 M2.
  destruct (signals_shape r1 i1) as (s & w & Hsw & Hshift & HsA & HwA).
  rewrite M1 in HsA. rewrite (doiMatches_comparable _ _ M1) in HwA.
  assert (HA : calculateSimilarity r1 i1 == (10 + s) / (10 + w)).
  { rewrite calculateSimilarity_unfold. apply ratio; [exact HsA|exact HwA|lra]. }
  pose proof (signals_split r2 i2) as E2.
  rewrite <- (otherSignals_ext r1 r2 i1 i2 _ Hr Hi) in E2.
  destruct (Hshift (doiSignal r2 i2 (0, 0))) as [HsB HwB].
  destruct (doiSignal_shift r2 i2 (0, 0)) as [D1 D2].
  rewrite M2 in D1. simpl in D1, D2.
  rewrite <- E2, D1 in HsB. rewrite <- E2, D2 in HwB.
  rewrite HA, calculateSimilarity_unfold.
  destruct (doiComparable r2 i2).
  - left. rewrite (ratio _ _ s (10 + w)); [|rewrite HsB; ring|rewrite HwB; ring|lra].
    apply Qdiv_lt_cross; [lra|lra|nra].
  - destruct (Qeq_bool (snd (signals r2 i2)) 0) eqn:Z.
    + left. apply Qlt_shift_div_l; [lra|lra].
    + apply Qeq_bool_neq in Z.
      assert (Hw : 0 < w).
      { destruct (Qlt_le_dec 0 w) as [Hw|Hw]; [exact Hw|].
        exfalso. apply Z. rewrite HwB. lra. }
      assert (HB : fst (signals r2 i2) / snd (signals r2 i2) == s / w).
      { rewrite HsB, HwB. apply Qdiv_comp; ring. }
      rewrite HB.
      destruct (Qlt_le_dec s w) as [Hlt|Hge].
      * left. apply Qdiv_lt_cross; [lra|lra|nra].
      * right. split; [reflexivity|].
        assert (Heq : s == w) by lra.
        split; rewrite Heq; field; lra.
Qed.

(** C1: the score lies in [0,1], and it is 0 when no signal applies. *)
Theorem calculateSimilarity_range reference it :
  0 <= calculateSimilarity reference it <= 1
  /\ (doiComparable reference it || yearComparable reference it
      || titleComparable reference it || authorsComparable reference it = false ->
      snd (signals reference it) = 0 /\ calculateSimilarity reference it = 0).
Proof.
  split; [apply calculateSimilarity_bounds|].
  intros H. repeat (apply orb_false_iff in H as [H ?]).
  unfold CitationMatcher.calculateSimilarity, CitationMatcher.signals,
    CitationMatcher.authorsSignal, CitationMatcher.titleSignal,
    CitationMatcher.yearSignal, CitationMatcher.doiSignal.
  repeat match goal with Hc : _ = false |- _ => rewrite Hc; clear Hc end.
  split; reflexivity.
Qed.

(** C6, amended: with everything but the DOI equal, the pair whose DOIs
    match scores at least as high as the other pair, and strictly higher
    when the other pair has two DOIs to compare or scores below 1; the
    two scores are equal exactly when the other pair has no two DOIs to
    compare and scores 1. *)
Theorem doi_match_dominates r1 r2 i1 i2 :
  sameExceptDoi r1 r2 -> sameItemExceptDoi i1 i2 ->
  doiMatches r1 i1 = true -> doiMatches r2 i2 = false ->
  calculateSimilarity r2 i2 <= calculateSimilarity r1 i1
  /\ (doiComparable r2 i2 = true ->
      calculateSimilarity r2 i2 < calculateSimilarity r1 i1)
  /\ (calculateSimilarity r2 i2 < 1 ->
      calculateSimilarity r2 i2 < calculateSimilarity r1 i1)
  /\ (calculateSimilarity r2 i2 == calculateSimilarity r1 i1
      <-> doiComparable r2 i2 = false /\ calculateSimilarity r2 i2 == 1).
Proof.
  intros Hr Hi M1 M2.
  destruct (dominance_cases r1 r2 i1 i2 Hr Hi M1 M2) as [Hlt|(Hc & HB & HA)].
  - split; [apply Qlt_le_weak; exact Hlt|].
    split; [intros _; exact Hlt|]. split; [intros _; exact Hlt|].
    split.
    + intros Heq. rewrite Heq in Hlt. exfalso. exact (Qlt_irrefl _ Hlt).
    + intros [_ H1]. exfalso.
      pose proof (calculateSimilarity_bounds r1 i1) as [_ Hle].
      rewrite H1 in Hlt. apply (Qlt_irrefl 1). eapply Qlt_le_trans; eassumption.
  - split; [rewrite HA, HB; apply Qle_refl|].
    split; [intros Hc'; congruence|].
    split; [intros Hlt; rewrite HB in Hlt; lra|].
    split; [intros _; split; [exact Hc|exact HB]|].
    intros _. now rewrite HA, HB.
Qed.

(** *** Ranking *)

Lemma insertMatch_Forall (P : MatchResult -> Prop) x l :
  P x -> Forall P l -> Forall P (insertMatch x l).
Proof.
  intros Hx. induction l as [|y l IH]; intros Hl; simpl.
  - now repeat constructor.
  - destruct (Qle_bool (similarity y) (similarity x)).
    + now constructor.
    + apply Forall_cons in Hl as [Hy Hl]. constructor; auto.
Qed.

Lemma sortMatches_Forall (P : MatchResult -> Prop) l :
  Forall P l -> Forall P (sortMatches l).
Proof.
  induction 1 as [|x l Hx Hl IH]; simpl; [constructor|].
  now apply insertMatch_Forall.
Qed.

Lemma insertMatch_descending x l : descending l -> descending (insertMatch x l).
Proof.
  unfold descending. induction l as [|y l IH]; intros Hl; simpl.
  - repeat constructor.
  - apply StronglySorted_inv in Hl as [Hl Hy].
    destruct (Qle_bool (similarity y) (similarity x)) eqn:E.
    + apply Qle_bool_iff in E. constructor.
      * now constructor.
      * constructor; [exact E|].
        eapply Forall_impl; [exact Hy|]. intros b Hb. simpl in Hb. lra.
    + assert (Hxy : similarity x <= similarity y).
      { destruct (Qlt_le_dec (similarity x) (similarity y)) as [Hlt|Hle].
        - now apply Qlt_le_weak.
        - apply Qle_bool_iff in Hle. congruence. }
      constructor; [now apply IH|].
      apply insertMatch_Forall; [exact Hxy|exact Hy].
Qed.

Lemma insertMatch_Permutation x l : insertMatch x l ≡ₚ x :: l.
Proof.
  induction l as [|y l IH]; simpl; [reflexivity|].
  destruct (Qle_bool _ _); [reflexivity|]. rewrite IH. apply Permutation_swap.
Qed.

(** Sorting keeps the matches: only their order changes. *)
Lemma sortMatches_Permutation l : sortMatches l ≡ₚ l.
Proof.
  induction l as [|x l IH]; simpl; [reflexivity|].
  now rewrite insertMatch_Permutation, IH.
Qed.

Lemma sortMatches_descending l : descending (sortMatches l).
Proof.
  induction l as [|x l IH]; simpl; [constructor|].
  now apply insertMatch_descending.
Qed.

Lemma candidates_qualify reference libraryItems :
  Forall (fun m => 1 # 2 <= similarity m)
         (flat_map (candidate toLowerCase fullYear reference) libraryItems).
Proof.
  induction libraryItems as [|it l IH]; simpl; [constructor|].
  apply Forall_app. split; [|exact IH].
  unfold candidate. destruct (Qle_bool _ _) eqn:E; [|constructor].
  apply Qle_bool_iff in E. now repeat constructor.
Qed.

Lemma findMatchingItems_qualify reference libraryItems :
  Forall (fun m => 1 # 2 <= similarity m) (findMatchingItems reference libraryItems).
Proof. apply sortMatches_Forall, candidates_qualify. Qed.

(** Whatever the score, every match of the ranking is the record of a
    library item, with the id and the score of that item, which is at
    least 0.5, and the matches are in descending order. *)
Lemma ranking_scored (score : ParsedReference -> ReferenceItem -> Q)
    reference libraryItems :
  Forall (fun m => In (item m) libraryItems
                   /\ itemId m = item_id (item m)
                   /\ similarity m = score reference (item m)
                   /\ 1 # 2 <= similarity m)
         (Ranking.findMatchingItems score reference libraryItems)
  /\ descending (Ranking.findMatchingItems score reference libraryItems).
Proof.
  split; [|apply sortMatches_descending].
  apply sortMatches_Forall, Forall_forall. intros m Hm.
  apply list_elem_of_In, in_flat_map in Hm as (it & Hit & Hm).
  unfold Ranking.candidate in Hm. destruct (Qle_bool _ _) eqn:E; [|destruct Hm].
  destruct Hm as [<-|[]]. apply Qle_bool_iff in E. simpl. auto.
Qed.

(** C2: every match that [findMatchingItems] returns is the record of an
    item of the library, with the id of that item and, as its similarity,
    the score that [calculateSimilarity] gives the reference and that
    item; this score is at least 0.5; and the matches are in descending
    order of similarity.  The same holds whatever number stands for the
    score, so for the score that the host rounds to a double as for the
    exact one. *)
Theorem findMatchingItems_ranked reference libraryItems :
  (Forall (fun m => In (item m) libraryItems
                    /\ itemId m = item_id (item m)
                    /\ similarity m = calculateSimilarity reference (item m)
                    /\ 1 # 2 <= similarity m)
          (findMatchingItems reference libraryItems)
   /\ descending (findMatchingItems reference libraryItems))
  /\ forall score : ParsedReference -> ReferenceItem -> Q,
       Forall (fun m => In (item m) libraryItems
                        /\ itemId m = item_id (item m)
                        /\ similarity m = score reference (item m)
                        /\ 1 # 2 <= similarity m)
              (Ranking.findMatchingItems score reference libraryItems)
       /\ descending (Ranking.findMatchingItems score reference libraryItems).
Proof.
  split; [|intros score; apply ranking_scored].
  exact (ranking_scored (CitationMatcher.calculateSimilarity toLowerCase fullYear)
           reference libraryItems).
Qed.

(** *** The map from reference index to matches *)

Lemma matches_nonempty (ms : list MatchResult) :
  (0 <? length ms)%nat = true <-> ms <> [].
Proof. destruct ms; simpl; split; done. Qed.

Lemma setMatches_lookup libraryItems matchMap reference k :
  setMatches toLowerCase fullYear libraryItems matchMap reference !! k
  = if decide (index reference = k /\ findMatchingItems reference libraryItems <> [])
    then Some (findMatchingItems reference libraryItems)
    else matchMap !! k.
Proof.
  unfold setMatches.
  destruct (0 <? length (findMatchingItems reference libraryItems))%nat eqn:E.
  - apply matches_nonempty in E.
    destruct (decide (index reference = k)) as [<-|Hne].
    + rewrite lookup_insert_eq. rewrite decide_True by auto. reflexivity.
    + rewrite lookup_insert_ne by exact Hne. rewrite decide_False by tauto. reflexivity.
  - rewrite decide_False; [reflexivity|].
    intros [_ H]. apply matches_nonempty in H. congruence.
Qed.

(** An entry of the result was in the initial map or was set for a
    reference that has matches. *)
Lemma fold_setMatches_inv libraryItems references matchMap k ms :
  fold_left (setMatches toLowerCase fullYear libraryItems) references matchMap !! k
    = Some ms ->
  matchMap !! k = Some ms
  \/ exists r, r ∈ references /\ index r = k
              /\ ms = findMatchingItems r libraryItems /\ ms <> [].
Proof.
  induction references as [|r references IH] in matchMap |- *; simpl; intros H.
  - now left.
  - apply IH in H as [H|(r' & Hin & Hk & Hms & Hne)].
    + rewrite setMatches_lookup in H. case_decide as Hd.
      * injection H as <-. destruct Hd as [Hk Hne].
        right. exists r. split; [apply list_elem_of_here|]. auto.
      * now left.
    + right. exists r'. split; [now apply list_elem_of_further|]. auto.
Qed.

(** References of index [k] that have no match leave the entry of [k]
    as it is. *)
Lemma fold_setMatches_skip libraryItems references matchMap k :
  (forall r, r ∈ references -> index r = k -> findMatchingItems r libraryItems = []) ->
  fold_left (setMatches toLowerCase fullYear libraryItems) references matchMap !! k
  = matchMap !! k.
Proof.
  induction references as [|r references IH] in matchMap |- *; simpl; intros H.
  - reflexivity.
  - rewrite IH.
    + rewrite setMatches_lookup. case_decide as Hd; [|reflexivity].
      destruct Hd as [Hk Hne]. exfalso. apply Hne, H; [apply list_elem_of_here|exact Hk].
    + intros r' Hin. apply H. now apply list_elem_of_further.
Qed.

(** The last reference of an index that has matches decides the entry. *)
Lemma fold_setMatches_last libraryItems before r after matchMap :
  findMatchingItems r libraryItems <> [] ->
  (forall r', r' ∈ after -> index r' = index r ->
              findMatchingItems r' libraryItems = []) ->
  fold_left (setMatches toLowerCase fullYear libraryItems)
            (before ++ r :: after) matchMap !! index r
  = Some (findMatchingItems r libraryItems).
Proof.
  intros Hne Hafter. rewrite fold_left_app. simpl.
  rewrite fold_setMatches_skip by exact Hafter.
  rewrite setMatches_lookup. rewrite decide_True by auto. reflexivity.
Qed.

(** C8: an entry of the map returned by [matchReferencesToLibrary] is the
    non-empty list of qualifying matches of a reference that carries the
    index; an index is absent when every reference that carries it has no
    qualifying match. *)
Theorem matchReferencesToLibrary_entries references libraryItems k :
  (forall ms, matchReferencesToLibrary references libraryItems !! k = Some ms ->
     ms <> []
     /\ Forall (fun m => 1 # 2 <= similarity m) ms
     /\ exists r, r ∈ references /\ index r = k
                 /\ ms = findMatchingItems r libraryItems)
  /\ ((forall r, r ∈ references -> index r = k ->
               findMatchingItems r libraryItems = []) ->
      matchReferencesToLibrary references libraryItems !! k = None).
Proof.
  split.
  - intros ms H. apply fold_setMatches_inv in H as [H|(r & Hin & Hk & Hms & Hne)].
    + rewrite lookup_empty in H. discriminate.
    + split; [exact Hne|]. split; [|eauto].
      rewrite Hms. apply findMatchingItems_qualify.
  - intros H. unfold CitationMatcher.matchReferencesToLibrary.
    rewrite fold_setMatches_skip by exact H. apply lookup_empty.
Qed.

(** C10: when two references carry the same index and both have qualifying
    matches, the entry of that index is the match list of the later one (no
    reference after it carrying the index with a match); the list of the
    earlier one, when different, is not the entry. *)
Theorem matchReferencesToLibrary_later_wins libraryItems before r1 between r2 after :
  index r1 = index r2 ->
  findMatchingItems r1 libraryItems <> [] ->
  findMatchingItems r2 libraryItems <> [] ->
  (forall r, r ∈ after -> index r = index r2 ->
             findMatchingItems r libraryItems = []) ->
  let result :=
    matchReferencesToLibrary (before ++ r1 :: between ++ r2 :: after) libraryItems in
  result !! index r1 = Some (findMatchingItems r2 libraryItems)
  /\ (findMatchingItems r1 libraryItems <> findMatchingItems r2 libraryItems ->
      result !! index r1 <> Some (findMatchingItems r1 libraryItems)).
Proof.
  intros Hidx H1 H2 Hafter result.
  assert (E : result !! index r1 = Some (findMatchingItems r2 libraryItems)).
  { subst result. unfold CitationMatcher.matchReferencesToLibrary.
    rewrite Hidx.
    replace (before ++ r1 :: between ++ r2 :: after)
      with ((before ++ r1 :: between) ++ r2 :: after)
      by (rewrite <- app_assoc; reflexivity).
    now apply fold_setMatches_last. }
  split; [exact E|]. intros Hne. rewrite E. congruence.
Qed.

End Scoring.

(** *** The theorems at the sample data *)

Section AtSamples.
Import Samples.

Local Abbreviation score := (calculateSimilarity asciiLowerCase isoFullYear).
Local Abbreviation matchesOf := (findMatchingItems asciiLowerCase isoFullYear).
Local Abbreviation matchAll := (matchReferencesToLibrary asciiLowerCase isoFullYear).

Lemma calculateSimilarity_range_witness :
  doiComparable bare untitled || yearComparable bare untitled
    || titleComparable bare untitled || authorsComparable bare untitled = false
  /\ 0 <= score bare untitled <= 1
  /\ score bare untitled = 0.
Proof.
  pose proof (calculateSimilarity_range asciiLowerCase isoFullYear bare untitled)
    as [Hrange Hzero].
  split; [reflexivity|]. split; [exact Hrange|].
  apply Hzero. reflexivity.
Defined.

(** C6, as stated, fails: a reference without a DOI whose title agrees with
    the item scores 1, and so does the same reference with the matching
    DOI. *)
Lemma doi_match_not_strict :
  sameExceptDoi titledWithDoi titledNoDoi
  /\ sameItemExceptDoi deepLearning deepLearning
  /\ doiMatches asciiLowerCase titledWithDoi deepLearning = true
  /\ doiMatches asciiLowerCase titledNoDoi deepLearning = false
  /\ score titledWithDoi deepLearning == 1
  /\ score titledNoDoi deepLearning == 1
  /\ ~ score titledNoDoi deepLearning < score titledWithDoi deepLearning.
Proof.
  assert (HA : score titledWithDoi deepLearning = 30 # 30) by (vm_compute; reflexivity).
  assert (HB : score titledNoDoi deepLearning = 10 # 10) by (vm_compute; reflexivity).
  rewrite HA, HB. repeat split; try reflexivity.
  intros H. discriminate H.
Qed.

(** The amended claim at two pairs: against the reference with the DOI of
    another paper the matching pair is strictly ahead; against the
    reference without a DOI, which scores 1, the two are equal. *)
Lemma doi_match_dominates_witness :
  ((sameExceptDoi titledWithDoi titledOtherDoi
    /\ sameItemExceptDoi deepLearning deepLearning
    /\ doiMatches asciiLowerCase titledWithDoi deepLearning = true
    /\ doiMatches asciiLowerCase titledOtherDoi deepLearning = false)
   /\ score titledOtherDoi deepLearning <= score titledWithDoi deepLearning
   /\ score titledOtherDoi deepLearning < score titledWithDoi deepLearning
   /\ ~ score titledOtherDoi deepLearning == score titledWithDoi deepLearning)
  /\ ((sameExceptDoi titledWithDoi titledNoDoi
       /\ doiMatches asciiLowerCase titledNoDoi deepLearning = false)
      /\ score titledNoDoi deepLearning <= score titledWithDoi deepLearning
      /\ score titledNoDoi deepLearning == score titledWithDoi deepLearning).
Proof.
  assert (Hi : sameItemExceptDoi deepLearning deepLearning) by (repeat split).
  assert (M1 : doiMatches asciiLowerCase titledWithDoi deepLearning = true)
    by reflexivity.
  split.
  - assert (Hr : sameExceptDoi titledWithDoi titledOtherDoi) by (repeat split).
    assert (M2 : doiMatches asciiLowerCase titledOtherDoi deepLearning = false)
      by reflexivity.
    destruct (doi_match_dominates asciiLowerCase isoFullYear _ _ _ _ Hr Hi M1 M2)
      as (Hle & Hboth & _ & Heq).
    split; [auto|]. split; [exact Hle|]. split; [apply Hboth; reflexivity|].
    intros H. apply Heq in H as [H _]. discriminate H.
  - assert (Hr : sameExceptDoi titledWithDoi titledNoDoi) by (repeat split).
    assert (M2 : doiMatches asciiLowerCase titledNoDoi deepLearning = false)
      by reflexivity.
    destruct (doi_match_dominates asciiLowerCase isoFullYear _ _ _ _ Hr Hi M1 M2)
      as (Hle & _ & _ & Heq).
    split; [auto|]. split; [exact Hle|].
    apply Heq. split; [reflexivity|]. vm_compute. reflexivity.
Defined.

Lemma matchReferencesToLibrary_entries_witness :
  matchAll [firstCitation; bare] library !! 1%Z = Some [sampleMatch deepLearning]
  /\ ([sampleMatch deepLearning] <> []
      /\ Forall (fun m => 1 # 2 <= similarity m) [sampleMatch deepLearning]
      /\ exists r, r ∈ [firstCitation; bare] /\ index r = 1%Z
                  /\ [sampleMatch deepLearning] = matchesOf r library)
  /\ matchAll [firstCitation; bare] library !! 3%Z = None.
Proof.
  pose proof (matchReferencesToLibrary_entries asciiLowerCase isoFullYear
                [firstCitation; bare] library 1%Z) as [Hentry _].
  pose proof (matchReferencesToLibrary_entries asciiLowerCase isoFullYear
                [firstCitation; bare] library 3%Z) as [_ Habsent].
  assert (H : matchAll [firstCitation; bare] library !! 1%Z
              = Some [sampleMatch deepLearning]) by (vm_compute; reflexivity).
  split; [exact H|]. split; [exact (Hentry _ H)|].
  apply Habsent. intros r Hin Hk.
  apply elem_of_cons in Hin as [->|Hin]; [discriminate Hk|].
  apply list_elem_of_singleton in Hin as ->. vm_compute. reflexivity.
Defined.

Lemma matchReferencesToLibrary_later_wins_witness :
  (index firstCitation = index secondCitation
   /\ matchesOf firstCitation library <> []
   /\ matchesOf secondCitation library <> [])
  /\ matchAll [firstCitation; bare; secondCitation] library !! 1%Z
     = Some (matchesOf secondCitation library).
Proof.
  assert (H1 : matchesOf firstCitation library <> []) by (vm_compute; discriminate).
  assert (H2 : matchesOf secondCitation library <> []) by (vm_compute; discriminate).
  split; [auto|].
  refine (proj1 (matchReferencesToLibrary_later_wins asciiLowerCase isoFullYear
                   library [] firstCitation [bare] secondCitation []
                   eq_refl H1 H2 _)).
  intros r Hin. apply elem_of_nil in Hin. destruct Hin.
Defined.

End AtSamples.

End CitationMatcherFacts.

(** ** More on the citation matcher *)

Module CitationMatcherExtras.
Import JS Regex Db CitationMatcher DetailPanel CitationMatcherFacts.

Local Open Scope Q_scope.
#[local] Set Warnings "-clear-no-such-hyp".

(** *** Jaccard similarity *)

Lemma inter_filter (X Y : gset jsstring) : filter (fun w => w ∈ Y) X = X ∩ Y.
Proof. apply set_eq. intros w. rewrite elem_of_filter, elem_of_intersection. tauto. Qed.

Lemma Qpos_neq (y : Q) : 0 < y -> ~ y == 0.
Proof. intros H E. rewrite E in H. exact (Qlt_irrefl 0 H). Qed.

Lemma inject_nat_eq (n m : nat) :
  (0 < m)%nat -> inject_Z (Z.of_nat n) / inject_Z (Z.of_nat m) == 1 -> n = m.
Proof.
  intros Hm H.
  assert (Hpos : 0 < inject_Z (Z.of_nat m)) by now apply inject_nat_pos.
  assert (E : inject_Z (Z.of_nat n) == inject_Z (Z.of_nat m)).
  { rewrite <- (Qmult_div_r (inject_Z (Z.of_nat n)) (inject_Z (Z.of_nat m)))
      by now apply Qpos_neq.
    rewrite H. ring. }
  apply (proj1 (inject_Z_injective _ _)) in E. lia.
Qed.

Lemma inject_nat_zero (n m : nat) :
  (0 < m)%nat -> inject_Z (Z.of_nat n) / inject_Z (Z.of_nat m) == 0 -> n = 0%nat.
Proof.
  intros Hm H.
  assert (Hpos : 0 < inject_Z (Z.of_nat m)) by now apply inject_nat_pos.
  assert (E : inject_Z (Z.of_nat n) == inject_Z 0).
  { rewrite <- (Qmult_div_r (inject_Z (Z.of_nat n)) (inject_Z (Z.of_nat m)))
      by now apply Qpos_neq.
    rewrite H. ring. }
  apply (proj1 (inject_Z_injective _ _)) in E. lia.
Qed.

Lemma size_zero (X : gset jsstring) : (size X =? 0)%nat = true <-> X = ∅.
Proof.
  rewrite Nat.eqb_eq. split.
  - intros H. now apply size_empty_iff, leibniz_equiv in H.
  - intros ->. apply size_empty.
Qed.

(** [fuzzyMatch] does not depend on the order of its arguments. *)
Theorem fuzzyMatch_symmetric str1 str2 : fuzzyMatch str1 str2 = fuzzyMatch str2 str1.
Proof.
  unfold fuzzyMatch. rewrite !inter_filter.
  rewrite (andb_comm (size (wordSet str1) =? 0)%nat).
  rewrite (orb_comm (size (wordSet str1) =? 0)%nat).
  rewrite (comm_L (∩) (wordSet str1)), (comm_L (∪) (wordSet str1)). reflexivity.
Qed.

(** [fuzzyMatch] is 1 exactly when the two strings have the same set of
    words longer than two code units. *)
Theorem fuzzyMatch_one str1 str2 :
  fuzzyMatch str1 str2 == 1 <-> wordSet str1 = wordSet str2.
Proof.
  unfold fuzzyMatch. rewrite inter_filter.
  destruct (size (wordSet str1) =? 0)%nat eqn:E1;
    destruct (size (wordSet str2) =? 0)%nat eqn:E2; simpl.
  - apply size_zero in E1, E2. rewrite E1, E2. split; reflexivity.
  - apply size_zero in E1. split; [intros H; discriminate H|].
    intros H. rewrite <- H, E1, size_empty in E2. discriminate E2.
  - apply size_zero in E2. split; [intros H; discriminate H|].
    intros H. rewrite H, E2, size_empty in E1. discriminate E1.
  - apply Nat.eqb_neq in E1, E2.
    assert (Hsub : (size (wordSet str1) <= size (wordSet str1 ∪ wordSet str2))%nat)
      by (apply subseteq_size; set_solver).
    split.
    + intros H. apply inject_nat_eq in H; [|lia].
      assert (Heq : wordSet str1 ∩ wordSet str2 = wordSet str1 ∪ wordSet str2).
      { apply set_subseteq_size_eq; [set_solver|lia]. }
      apply leibniz_equiv. set_solver.
    + intros H. rewrite <- H.
      replace (wordSet str1 ∩ wordSet str1) with (wordSet str1) by set_solver.
      replace (wordSet str1 ∪ wordSet str1) with (wordSet str1) by set_solver.
      field. intros Hz. change 0 with (inject_Z 0) in Hz.
      apply (proj1 (inject_Z_injective _ _)) in Hz. lia.
Qed.

(** [fuzzyMatch] is 0 exactly when the two strings share no such word and
    at least one of them has one. *)
Theorem fuzzyMatch_zero str1 str2 :
  fuzzyMatch str1 str2 == 0
  <-> wordSet str1 ∩ wordSet str2 = ∅
      /\ ~ (wordSet str1 = ∅ /\ wordSet str2 = ∅).
Proof.
  unfold fuzzyMatch. rewrite inter_filter.
  destruct (size (wordSet str1) =? 0)%nat eqn:E1;
    destruct (size (wordSet str2) =? 0)%nat eqn:E2; simpl.
  - apply size_zero in E1, E2. split; [intros H; discriminate H|]. tauto.
  - apply size_zero in E1. split; [|reflexivity]. intros _.
    split; [rewrite E1; set_solver|].
    intros [_ H]. rewrite H, size_empty in E2. discriminate E2.
  - apply size_zero in E2. split; [|reflexivity]. intros _.
    split; [rewrite E2; set_solver|].
    intros [H _]. rewrite H, size_empty in E1. discriminate E1.
  - apply Nat.eqb_neq in E1, E2.
    assert (Hsub : (size (wordSet str1) <= size (wordSet str1 ∪ wordSet str2))%nat)
      by (apply subseteq_size; set_solver).
    split.
    + intros H. apply inject_nat_zero in H; [|lia].
      split; [now apply size_empty_iff, leibniz_equiv in H|].
      intros [H1 _]. rewrite H1, size_empty in E1. now apply E1.
    + intros [H _]. rewrite H, size_empty. simpl. field.
      intros Hz. change 0 with (inject_Z 0) in Hz.
      apply (proj1 (inject_Z_injective _ _)) in Hz. lia.
Qed.

Section Scoring.

Variable toLowerCase : jsstring -> jsstring.
Variable fullYear : jsstring -> jsstring.

Local Abbreviation doiMatches := (doiMatches toLowerCase).
Local Abbreviation otherSignals := (otherSignals toLowerCase fullYear).
Local Abbreviation signals := (signals toLowerCase fullYear).
Local Abbreviation calculateSimilarity := (calculateSimilarity toLowerCase fullYear).
Local Abbreviation candidate := (candidate toLowerCase fullYear).
Local Abbreviation findMatchingItems := (findMatchingItems toLowerCase fullYear).
Local Abbreviation matchReferencesToLibrary :=
  (matchReferencesToLibrary toLowerCase fullYear).
Local Abbreviation matchOf := (matchOf toLowerCase fullYear).
Local Abbreviation citationMatchesFor := (citationMatchesFor toLowerCase fullYear).

(** *** The weight of the signals *)

Lemma yearSignal_weight reference it :
  exists s, 0 <= s <= weightOf (yearComparable reference it) 2
    /\ shifts (yearSignal fullYear reference it) s
               (weightOf (yearComparable reference it) 2).
Proof.
  unfold yearSignal, weightOf. destruct (yearComparable reference it).
  - destruct (str_eqb _ _).
    + exists 2. split; [lra|]. intros t; simpl; split; ring.
    + exists 0. split; [lra|]. intros t; simpl; split; ring.
  - exists 0. split; [lra|]. intros t; simpl; split; ring.
Qed.

Lemma titleSignal_weight reference it :
  exists s, 0 <= s <= weightOf (titleComparable reference it) 5
    /\ shifts (titleSignal toLowerCase reference it) s
               (weightOf (titleComparable reference it) 5).
Proof.
  unfold titleSignal, weightOf. destruct (titleComparable reference it).
  - cbv zeta. set (f := fuzzyMatch _ _).
    assert (Hf : 0 <= f <= 1) by apply fuzzyMatch_range.
    exists (f * 5). split; [lra|]. intros t; simpl; split; reflexivity.
  - exists 0. split; [lra|]. intros t; simpl; split; ring.
Qed.

Lemma authorsSignal_weight reference it :
  exists s, 0 <= s <= weightOf (authorsComparable reference it) 3
    /\ shifts (authorsSignal toLowerCase reference it) s
               (weightOf (authorsComparable reference it) 3).
Proof.
  unfold authorsSignal, weightOf. destruct (authorsComparable reference it).
  - cbv zeta. set (f := fuzzyMatch _ _).
    assert (Hf : 0 <= f <= 1) by apply fuzzyMatch_range.
    destruct (item_creators it) as [|firstAuthor others].
    + exists (f * (3 # 2)). split; [lra|]. intros t; simpl; split; reflexivity.
    + destruct (includes _ _).
      * exists ((3 # 2) + f * (3 # 2)). split; [lra|].
        intros t; simpl; split; [ring|reflexivity].
      * exists (f * (3 # 2)). split; [lra|]. intros t; simpl; split; reflexivity.
  - exists 0. split; [lra|]. intros t; simpl; split; ring.
Qed.

Lemma otherWeight_range reference it : 0 <= otherWeight reference it <= 10.
Proof.
  unfold otherWeight, weightOf.
  destruct (yearComparable _ _), (titleComparable _ _), (authorsComparable _ _); lra.
Qed.

Lemma otherSignals_weight reference it :
  exists s, 0 <= s <= otherWeight reference it
    /\ shifts (otherSignals reference it) s (otherWeight reference it).
Proof.
  destruct (yearSignal_weight reference it) as (s1 & H1 & S1).
  destruct (titleSignal_weight reference it) as (s2 & H2 & S2).
  destruct (authorsSignal_weight reference it) as (s3 & H3 & S3).
  exists (s1 + s2 + s3). split; [unfold otherWeight; lra|].
  exact (shifts_compose _ _ _ _ _ _ (shifts_compose _ _ _ _ _ _ S1 S2) S3).
Qed.

Lemma signals_weight reference it :
  exists s, 0 <= s <= otherWeight reference it
    /\ fst (signals reference it) == (if doiMatches reference it then 10 else 0) + s
    /\ snd (signals reference it)
       == weightOf (doiComparable reference it) 10 + otherWeight reference it.
Proof.
  destruct (otherSignals_weight reference it) as (s & Hs & Hshift).
  exists s. split; [exact Hs|].
  rewrite signals_split.
  destruct (Hshift (doiSignal toLowerCase reference it (0, 0))) as [H1 H2].
  destruct (doiSignal_shift toLowerCase reference it (0, 0)) as [D1 D2].
  rewrite H1, H2, D1, D2. unfold weightOf. simpl. split; ring.
Qed.

(** The total weight is the sum of the weights of the signals for which both
    sides have data: 10 for the DOI, 2 for the year, 5 for the title, 3 for
    the authors. *)
Theorem totalWeight_applicable reference it :
  snd (signals reference it)
  == weightOf (doiComparable reference it) 10
     + weightOf (yearComparable reference it) 2
     + weightOf (titleComparable reference it) 5
     + weightOf (authorsComparable reference it) 3.
Proof.
  destruct (signals_weight reference it) as (s & _ & _ & H).
  rewrite H. unfold otherWeight. ring.
Qed.

Lemma doi_match_score reference it :
  doiMatches reference it = true -> 1 # 2 <= calculateSimilarity reference it.
Proof.
  intros M. destruct (signals_weight reference it) as (s & Hs & H1 & H2).
  rewrite M in H1. rewrite (doiMatches_comparable _ _ _ M) in H2.
  unfold weightOf in H2.
  pose proof (otherWeight_range reference it) as Hw.
  rewrite calculateSimilarity_unfold.
  rewrite (ratio _ _ _ _ H1 H2) by lra.
  apply Qle_shift_div_l; lra.
Qed.

Lemma doi_mismatch_score reference it :
  doiComparable reference it = true -> doiMatches reference it = false ->
  calculateSimilarity reference it <= 1 # 2.
Proof.
  intros C M. destruct (signals_weight reference it) as (s & Hs & H1 & H2).
  rewrite M in H1. rewrite C in H2. unfold weightOf in H2.
  pose proof (otherWeight_range reference it) as Hw.
  rewrite calculateSimilarity_unfold.
  rewrite (ratio _ _ _ _ H1 H2) by lra.
  apply Qle_shift_div_r; lra.
Qed.

(** *** Membership and order of the matches *)

Lemma candidate_matchOf reference it m :
  In m (candidate reference it)
  <-> 1 # 2 <= calculateSimilarity reference it /\ m = matchOf reference it.
Proof.
  unfold CitationMatcher.candidate.
  destruct (Qle_bool _ _) eqn:E; simpl.
  - apply Qle_bool_iff in E. split.
    + intros [<-|[]]. now split.
    + intros [_ ->]. now left.
  - split; [intros []|]. intros [H _]. apply Qle_bool_iff in H. congruence.
Qed.

Lemma findMatchingItems_In reference libraryItems m :
  In m (findMatchingItems reference libraryItems)
  <-> exists it, In it libraryItems
        /\ 1 # 2 <= calculateSimilarity reference it /\ m = matchOf reference it.
Proof.
  unfold CitationMatcher.findMatchingItems.
  rewrite <- !list_elem_of_In, sortMatches_Permutation, list_elem_of_In.
  rewrite in_flat_map. split.
  - intros (it & Hin & Hm). apply candidate_matchOf in Hm. eauto.
  - intros (it & Hin & Hm). exists it. split; [exact Hin|].
    now apply candidate_matchOf.
Qed.

Lemma tiedAt_insertMatch v x l : tiedAt v (insertMatch x l) = tiedAt v (x :: l).
Proof.
  induction l as [|y l IH]; [reflexivity|].
  cbn [insertMatch]. destruct (Qle_bool (similarity y) (similarity x)) eqn:E;
    [reflexivity|].
  assert (Hlt : similarity x < similarity y).
  { destruct (Qlt_le_dec (similarity x) (similarity y)) as [H|H]; [exact H|].
    apply Qle_bool_iff in H. congruence. }
  unfold tiedAt in *. cbn [List.filter] in *. rewrite IH.
  destruct (Qeq_bool (similarity x) v) eqn:Ex; [|reflexivity].
  destruct (Qeq_bool (similarity y) v) eqn:Ey; [|reflexivity].
  apply Qeq_bool_iff in Ex, Ey. lra.
Qed.

Lemma tiedAt_sortMatches v l : tiedAt v (sortMatches l) = tiedAt v l.
Proof.
  induction l as [|x l IH]; [reflexivity|].
  cbn [sortMatches foldr]. rewrite tiedAt_insertMatch.
  unfold tiedAt in *. cbn [List.filter]. fold (sortMatches l). now rewrite IH.
Qed.

(** An item whose DOI matches the DOI of the reference scores at least
    0.5, so it is always among the matches that [findMatchingItems]
    returns. *)
Theorem doi_match_listed reference it libraryItems :
  doiMatches reference it = true -> In it libraryItems ->
  1 # 2 <= calculateSimilarity reference it
  /\ In (matchOf reference it) (findMatchingItems reference libraryItems).
Proof.
  intros M Hin. pose proof (doi_match_score reference it M) as Hs.
  split; [exact Hs|]. apply findMatchingItems_In. eauto.
Qed.

(** An item whose DOI differs from the DOI of the reference scores at most
    0.5, whatever the other fields: it never reaches the 0.7 of the
    in-library flag. *)
Theorem doi_mismatch_capped reference it :
  doiComparable reference it = true -> doiMatches reference it = false ->
  calculateSimilarity reference it <= 1 # 2
  /\ Qle_bool (7 # 10) (calculateSimilarity reference it) = false.
Proof.
  intros C M. pose proof (doi_mismatch_score reference it C M) as Hs.
  split; [exact Hs|].
  destruct (Qle_bool _ _) eqn:E; [|reflexivity].
  apply Qle_bool_iff in E. lra.
Qed.

(** *** The map of matches *)

Lemma fold_setMatches_keeps libraryItems references matchMap k :
  is_Some (matchMap !! k) ->
  is_Some (fold_left (setMatches toLowerCase fullYear libraryItems) references matchMap
             !! k).
Proof.
  induction references as [|r references IH] in matchMap |- *; simpl; intros H;
    [exact H|].
  apply IH. rewrite setMatches_lookup. case_decide; [eauto|exact H].
Qed.

Lemma fold_setMatches_sets libraryItems references matchMap r :
  r ∈ references -> findMatchingItems r libraryItems <> [] ->
  is_Some (fold_left (setMatches toLowerCase fullYear libraryItems) references matchMap
             !! index r).
Proof.
  intros Hin Hne. apply list_elem_of_split in Hin as (l1 & l2 & ->).
  rewrite fold_left_app. simpl. apply fold_setMatches_keeps.
  rewrite setMatches_lookup. rewrite decide_True by auto. eauto.
Qed.

(** With distinct indices, the entry of a reference is its own list. *)
Lemma lookup_own references libraryItems r :
  NoDup (map index references) -> r ∈ references ->
  matchReferencesToLibrary references libraryItems !! index r
  = if (0 <? length (findMatchingItems r libraryItems))%nat
    then Some (findMatchingItems r libraryItems) else None.
Proof.
  intros Hnd Hin. apply list_elem_of_split in Hin as (l1 & l2 & ->).
  rewrite map_app in Hnd. simpl in Hnd.
  apply NoDup_app in Hnd as (_ & Hl1 & Hnd). apply NoDup_cons in Hnd as [Hl2 _].
  unfold CitationMatcher.matchReferencesToLibrary. rewrite fold_left_app. simpl.
  rewrite fold_setMatches_skip.
  - rewrite setMatches_lookup.
    destruct (0 <? length (findMatchingItems r libraryItems))%nat eqn:E.
    + apply matches_nonempty in E. now rewrite decide_True by auto.
    + rewrite decide_False.
      * rewrite fold_setMatches_skip; [apply lookup_empty|].
        intros r' Hr' Hk. exfalso. apply (Hl1 (index r)).
        -- rewrite <- Hk. now apply list_elem_of_fmap_2.
        -- apply list_elem_of_here.
      * intros [_ H]. apply matches_nonempty in H. congruence.
  - intros r' Hr' Hk. exfalso. apply Hl2. rewrite <- Hk.
    now apply list_elem_of_fmap_2.
Qed.

(** An index is a key of the map exactly when some reference that carries
    it has a qualifying match. *)
Theorem matchReferencesToLibrary_keys references libraryItems k :
  is_Some (matchReferencesToLibrary references libraryItems !! k)
  <-> exists r, r ∈ references /\ index r = k
                /\ findMatchingItems r libraryItems <> [].
Proof.
  split.
  - intros [ms H]. apply fold_setMatches_inv in H as [H|(r & Hin & Hk & Hms & Hne)].
    + rewrite lookup_empty in H. discriminate.
    + exists r. rewrite <- Hms. auto.
  - intros (r & Hin & <- & Hne). now apply fold_setMatches_sets.
Qed.

(** When the references have distinct indices, the entry of the index of a
    reference is the ranked list of that reference, and there is no entry
    when the list is empty. *)
Theorem matchReferencesToLibrary_own references libraryItems r :
  NoDup (map index references) -> r ∈ references ->
  matchReferencesToLibrary references libraryItems !! index r
  = if (0 <? length (findMatchingItems r libraryItems))%nat
    then Some (findMatchingItems r libraryItems) else None.
Proof. apply lookup_own. Qed.

(** *** The detail panel *)

Lemma str_eqb_eq a b : str_eqb a b = true <-> a = b.
Proof.
  revert b. induction a as [|x a IH]; intros [|y b]; simpl; try (split; done).
  rewrite andb_true_iff, IH. unfold unit_eqb. rewrite N.eqb_eq.
  split; [intros [-> ->]; reflexivity|intros [= -> ->]; auto].
Qed.

(** The item whose references are matched is never among the matches. *)
Theorem citationMatchesFor_not_self self references allItems k ms m :
  citationMatchesFor self references allItems !! k = Some ms -> In m ms ->
  itemId m <> self.
Proof.
  unfold DetailPanel.citationMatchesFor. intros H Hm.
  apply fold_setMatches_inv in H as [H|(r & _ & _ & -> & _)].
  - rewrite lookup_empty in H. discriminate.
  - apply findMatchingItems_In in Hm as (it & Hit & _ & ->).
    unfold otherItems in Hit. apply List.filter_In in Hit as [_ Hne].
    simpl. intros E. apply str_eqb_eq in E. rewrite E in Hne. discriminate.
Qed.

End Scoring.

Section AtSamples.
Import Samples.

Local Abbreviation score := (calculateSimilarity asciiLowerCase isoFullYear).
Local Abbreviation matchesOf := (findMatchingItems asciiLowerCase isoFullYear).
Local Abbreviation matchAll := (matchReferencesToLibrary asciiLowerCase isoFullYear).

Lemma doi_match_listed_witness :
  (doiMatches asciiLowerCase titledWithDoi deepLearning = true
   /\ In deepLearning library)
  /\ 1 # 2 <= score titledWithDoi deepLearning
  /\ In (matchOf asciiLowerCase isoFullYear titledWithDoi deepLearning)
        (matchesOf titledWithDoi library).
Proof.
  assert (M : doiMatches asciiLowerCase titledWithDoi deepLearning = true)
    by reflexivity.
  assert (Hin : In deepLearning library) by now left.
  split; [auto|].
  exact (doi_match_listed asciiLowerCase isoFullYear _ _ _ M Hin).
Defined.

Lemma doi_mismatch_capped_witness :
  (doiComparable firstCitation otherPaper = true
   /\ doiMatches asciiLowerCase firstCitation otherPaper = false)
  /\ score firstCitation otherPaper <= 1 # 2
  /\ Qle_bool (7 # 10) (score firstCitation otherPaper) = false.
Proof.
  assert (C : doiComparable firstCitation otherPaper = true) by reflexivity.
  assert (M : doiMatches asciiLowerCase firstCitation otherPaper = false)
    by reflexivity.
  split; [auto|].
  exact (doi_mismatch_capped asciiLowerCase isoFullYear _ _ C M).
Defined.

Lemma sample_indices_distinct : NoDup (map index [firstCitation; bare]).
Proof.
  apply NoDup_cons. split; [|apply NoDup_singleton].
  intros H. apply list_elem_of_singleton in H. discriminate H.
Defined.

Lemma matchReferencesToLibrary_own_witness :
  (NoDup (map index [firstCitation; bare]) /\ firstCitation ∈ [firstCitation; bare])
  /\ matchAll [firstCitation; bare] library !! 1%Z
     = if (0 <? length (matchesOf firstCitation library))%nat
       then Some (matchesOf firstCitation library) else None.
Proof.
  assert (Hin : firstCitation ∈ [firstCitation; bare]) by apply list_elem_of_here.
  split; [split; [exact sample_indices_distinct|exact Hin]|].
  exact (matchReferencesToLibrary_own asciiLowerCase isoFullYear _ library _
           sample_indices_distinct Hin).
Defined.

Lemma citationMatchesFor_not_self_witness :
  (citationMatchesFor asciiLowerCase isoFullYear (js "item-2") [firstCitation]
     library !! 1%Z = Some [sampleMatch deepLearning]
   /\ In (sampleMatch deepLearning) [sampleMatch deepLearning])
  /\ itemId (sampleMatch deepLearning) <> js "item-2".
Proof.
  assert (H : citationMatchesFor asciiLowerCase isoFullYear (js "item-2")
                [firstCitation] library !! 1%Z = Some [sampleMatch deepLearning])
    by (vm_compute; reflexivity).
  assert (Hm : In (sampleMatch deepLearning) [sampleMatch deepLearning]) by now left.
  split; [auto|].
  exact (citationMatchesFor_not_self asciiLowerCase isoFullYear _ _ _ _ _ _ H Hm).
Defined.

End AtSamples.

End CitationMatcherExtras.

(** ** The ranking, whatever the score *)

Module RankingFacts.
Import JS Db CitationMatcher DetailPanel.

Local Open Scope Q_scope.

(** [findMatchingItems] of the model is the ranking under the exact score. *)
Lemma exact_ranking toLowerCase fullYear reference libraryItems :
  CitationMatcher.findMatchingItems toLowerCase fullYear reference libraryItems
  = Ranking.findMatchingItems (calculateSimilarity toLowerCase fullYear)
      reference libraryItems.
Proof. reflexivity. Qed.

Section Ranking.

(** The score stands for the value that [calculateSimilarity] returns,
    rounded or not. *)
Variable score : ParsedReference -> ReferenceItem -> Q.

Local Abbreviation recordOf reference it :=
  {| itemId := item_id it; similarity := score reference it; item := it |}.

Lemma candidate_record reference it m :
  In m (Ranking.candidate score reference it)
  <-> 1 # 2 <= score reference it /\ m = recordOf reference it.
Proof.
  unfold Ranking.candidate.
  destruct (Qle_bool _ _) eqn:E; simpl.
  - apply Qle_bool_iff in E. split.
    + intros [<-|[]]. now split.
    + intros [_ ->]. now left.
  - split; [intros []|]. intros [H _]. apply Qle_bool_iff in H. congruence.
Qed.

Lemma ranking_In reference libraryItems m :
  In m (Ranking.findMatchingItems score reference libraryItems)
  <-> exists it, In it libraryItems
        /\ 1 # 2 <= score reference it /\ m = recordOf reference it.
Proof.
  unfold Ranking.findMatchingItems.
  rewrite <- !list_elem_of_In, CitationMatcherFacts.sortMatches_Permutation,
    list_elem_of_In.
  rewrite in_flat_map. split.
  - intros (it & Hin & Hm). apply candidate_record in Hm. eauto.
  - intros (it & Hin & Hm). exists it. split; [exact Hin|].
    now apply candidate_record.
Qed.

(** Whatever number [calculateSimilarity] returns, [findMatchingItems]
    returns exactly the records of the library items for which that number
    is at least 0.5, each with its item, the id of the item and that
    number: nothing that qualifies is dropped, and nothing else is
    listed. *)
Theorem findMatchingItems_complete reference libraryItems m :
  In m (Ranking.findMatchingItems score reference libraryItems)
  <-> exists it, In it libraryItems
        /\ 1 # 2 <= score reference it
        /\ itemId m = item_id it
        /\ similarity m = score reference it
        /\ item m = it.
Proof.
  rewrite ranking_In. split.
  - intros (it & Hin & Hs & ->). exists it. auto.
  - intros (it & Hin & Hs & Hid & Hsim & Hit). exists it.
    split; [exact Hin|]. split; [exact Hs|].
    destruct m as [i sm im]. simpl in *. now subst.
Qed.

(** Ties keep the order of the library: the items whose score is a given
    value appear in the result in the order they have in the library. *)
Theorem findMatchingItems_stable reference libraryItems v :
  map item (tiedAt v (Ranking.findMatchingItems score reference libraryItems))
  = List.filter (fun it => Qle_bool (1 # 2) (score reference it)
                           && Qeq_bool (score reference it) v)
                libraryItems.
Proof.
  unfold Ranking.findMatchingItems.
  rewrite CitationMatcherExtras.tiedAt_sortMatches.
  induction libraryItems as [|it l IH]; [reflexivity|].
  cbn [flat_map List.filter]. unfold tiedAt in *.
  rewrite List.filter_app, map_app, IH.
  unfold Ranking.candidate.
  destruct (Qle_bool (1 # 2) (score reference it)); [|reflexivity].
  cbn [List.filter similarity andb].
  destruct (Qeq_bool (score reference it) v); reflexivity.
Qed.

(** The first match is a best one: it is the record of a library item,
    and no item of the library scores higher. *)
Theorem findMatchingItems_best_first reference libraryItems m rest :
  Ranking.findMatchingItems score reference libraryItems = m :: rest ->
  In (item m) libraryItems
  /\ similarity m = score reference (item m)
  /\ forall it, In it libraryItems -> score reference it <= similarity m.
Proof.
  intros E.
  pose proof (ranking_In reference libraryItems) as Hmem.
  pose proof (CitationMatcherFacts.sortMatches_descending
                (flat_map (Ranking.candidate score reference) libraryItems))
    as Hdesc.
  fold (Ranking.findMatchingItems score reference libraryItems) in Hdesc.
  rewrite E in Hmem, Hdesc.
  destruct (proj1 (Hmem m)) as (it0 & Hit0 & Hs0 & Hm); [now left|].
  split; [now rewrite Hm|]. split; [now rewrite Hm|].
  intros it Hit.
  destruct (Qlt_le_dec (score reference it) (1 # 2)) as [Hlow|Hhigh].
  - rewrite Hm. simpl. lra.
  - assert (Hin : In (recordOf reference it) (m :: rest)).
    { apply Hmem. exists it. auto. }
    destruct Hin as [->|Hin]; [apply Qle_refl|].
    apply StronglySorted_inv in Hdesc as [_ Hhead].
    rewrite Forall_forall in Hhead.
    apply list_elem_of_In, Hhead in Hin. exact Hin.
Qed.

End Ranking.

Section AtSamples.
Import Samples.

Local Abbreviation score := (calculateSimilarity asciiLowerCase isoFullYear).

Lemma findMatchingItems_best_first_witness :
  Ranking.findMatchingItems score titledOtherDoi library
  = [matchOf asciiLowerCase isoFullYear titledOtherDoi otherPaper]
  /\ In otherPaper library
  /\ similarity (matchOf asciiLowerCase isoFullYear titledOtherDoi otherPaper)
     = score titledOtherDoi otherPaper
  /\ forall it, In it library ->
       score titledOtherDoi it
       <= similarity (matchOf asciiLowerCase isoFullYear titledOtherDoi otherPaper).
Proof.
  assert (E : Ranking.findMatchingItems score titledOtherDoi library
              = [matchOf asciiLowerCase isoFullYear titledOtherDoi otherPaper])
    by (vm_compute; reflexivity).
  split; [exact E|].
  exact (findMatchingItems_best_first score titledOtherDoi library _ _ E).
Defined.

End AtSamples.

End RankingFacts.

(** ** More on the reference parser *)

Module ReferenceParserExtras.
Import JS Regex Db ReferenceParser Pieces RegexFacts ReferenceParserFacts.

(** *** Occurrences *)

Lemma occursIn_refl s : occursIn s s.
Proof. exists [], []. now rewrite app_nil_r. Qed.

Lemma occursIn_trans p q s : occursIn p q -> occursIn q s -> occursIn p s.
Proof.
  intros (a & b & ->) (c & d & ->). exists (c ++ a), (b ++ d).
  now rewrite <- !app_assoc.
Qed.

Lemma occursIn_drop (s : jsstring) n : occursIn (drop n s) s.
Proof. exists (take n s), []. now rewrite app_nil_r, take_drop. Qed.

Lemma occursIn_take (s : jsstring) n : occursIn (take n s) s.
Proof. exists [], (drop n s). simpl. now rewrite take_drop. Qed.

Lemma occursIn_substring s a b : occursIn (substring s a b) s.
Proof.
  unfold substring. eapply occursIn_trans; [apply occursIn_take|apply occursIn_drop].
Qed.

Lemma occursIn_length p s : occursIn p s -> length p <= length s.
Proof. intros (a & b & ->). rewrite !length_app. lia. Qed.

Lemma trimStart_suffix s : exists a, s = a ++ trimStart s.
Proof.
  induction s as [|c s [a IH]]; simpl; [now exists []|].
  destruct (is_space c); [|now exists []].
  exists (c :: a). simpl. now f_equal.
Qed.

Lemma occursIn_trim s : occursIn (trim s) s.
Proof.
  unfold trim, trimEnd.
  destruct (trimStart_suffix s) as [a Ha].
  destruct (trimStart_suffix (rev (trimStart s))) as [b Hb].
  exists a, (rev b). rewrite Ha at 1. f_equal.
  rewrite <- (rev_involutive (trimStart s)) at 1. rewrite Hb at 1.
  now rewrite rev_app_distr.
Qed.

Lemma split_scan_occurs r s qs p l : In l (split_scan r s qs p) -> occursIn l s.
Proof.
  induction qs as [|q qs IH] in p |- *; simpl.
  - intros [<-|[]]. apply occursIn_drop.
  - destruct (q <? p)%nat; [apply IH|].
    destruct (exec_at r s q) as [y|]; [|apply IH].
    destruct (Nat.min (fst y) (length s) =? p)%nat; [apply IH|].
    intros [<-|H]; [apply occursIn_substring|now apply IH in H].
Qed.

(** Every segment that [split] returns is a piece of the string. *)
Lemma split_occurs r s l : In l (split r s) -> occursIn l s.
Proof.
  unfold split. destruct s as [|c s].
  - destruct (exec_at r [] 0); [intros []|]. intros [<-|[]]. apply occursIn_refl.
  - apply split_scan_occurs.
Qed.

Lemma starts_with_prefix p s : starts_with p s = true <-> exists b, s = p ++ b.
Proof.
  revert s. induction p as [|x p IH]; intros s; simpl.
  - split; [intros _; now exists s|reflexivity].
  - destruct s as [|y s].
    + split; [discriminate|]. intros [b H]. discriminate H.
    + rewrite andb_true_iff, IH. unfold unit_eqb. rewrite N.eqb_eq. split.
      * intros [-> [b ->]]. now exists b.
      * intros [b [= -> ->]]. split; [reflexivity|now exists b].
Qed.

(** [indexOf] finds the first occurrence. *)
Lemma indexOf_from_Some p s i k :
  indexOf_from p s i = Some k ->
  exists a b, k = i + length a /\ s = a ++ p ++ b
    /\ forall a' b', s = a' ++ p ++ b' -> length a <= length a'.
Proof.
  revert i. induction s as [|c s IH]; intros i; simpl.
  - destruct (starts_with p []) eqn:E; [|discriminate].
    intros [= <-]. apply starts_with_prefix in E as [b E].
    exists [], b. simpl. split; [lia|]. split; [exact E|]. intros; lia.
  - destruct (starts_with p (c :: s)) eqn:E.
    + intros [= <-]. apply starts_with_prefix in E as [b E].
      exists [], b. simpl. split; [lia|]. split; [exact E|]. intros; lia.
    + intros H. apply IH in H as (a & b & -> & -> & Hmin).
      exists (c :: a), b. simpl. split; [lia|]. split; [reflexivity|].
      intros [|c' a'] b' H'; simpl in H'.
      * assert (starts_with p (c :: a ++ p ++ b) = true)
          by (apply starts_with_prefix; now exists b').
        congruence.
      * injection H' as _ H'. apply Hmin in H'. simpl. lia.
Qed.

Lemma indexOf_from_None p s i : indexOf_from p s i = None -> ~ occursIn p s.
Proof.
  revert i. induction s as [|c s IH]; intros i; simpl.
  - destruct (starts_with p []) eqn:E; [discriminate|]. intros _ (a & b & H).
    destruct a; [|discriminate H]. simpl in H.
    assert (starts_with p [] = true) by (apply starts_with_prefix; now exists b).
    congruence.
  - destruct (starts_with p (c :: s)) eqn:E; [discriminate|].
    intros H (a & b & H'). destruct a as [|c' a]; simpl in H'.
    + assert (starts_with p (c :: s) = true)
        by (apply starts_with_prefix; now exists b).
      congruence.
    + injection H' as _ H'. apply (IH _ H). now exists a, b.
Qed.

Lemma indexOf_occurs s p :
  occursIn p s ->
  exists k a b, indexOf s p = Some k /\ k = length a /\ s = a ++ p ++ b
    /\ forall a' b', s = a' ++ p ++ b' -> k <= length a'.
Proof.
  intros Hocc. unfold indexOf. destruct (indexOf_from p s 0) as [k|] eqn:E.
  - apply indexOf_from_Some in E as (a & b & -> & Hs & Hmin).
    exists (length a), a, b. simpl. auto.
  - now apply indexOf_from_None in E.
Qed.

Lemma substring_middle (a p b : jsstring) :
  substring (a ++ p ++ b) (length a) (length a + length p) = p.
Proof.
  unfold substring. rewrite drop_app_length.
  replace (length a + length p - length a) with (length p) by lia.
  apply take_app_length.
Qed.

(** *** The section locator *)

Lemma find_header_result text lines :
  (find_header text lines = (-1)%Z
   /\ Forall (fun l => isHeader (trim l) = false) lines)
  \/ (exists l, In l lines /\ isHeader (trim l) = true
        /\ find_header text lines
           = ((match indexOf text (trim l) with Some k => Z.of_nat k | None => -1 end)
              + Z.of_nat (length (trim l)))%Z).
Proof.
  induction lines as [|l lines IH]; cbn [find_header].
  - left. split; [reflexivity|apply Forall_nil; exact I].
  - change (existsb (fun pattern => test pattern (trim l)) REFERENCE_SECTION_PATTERNS)
      with (isHeader (trim l)).
    destruct (isHeader (trim l)) eqn:E.
    + right. exists l. split; [now left|]. split; [exact E|reflexivity].
    + destruct IH as [[H1 H2]|(l' & Hin & Hh & Hr)].
      * left. split; [exact H1|]. apply Forall_cons. now split.
      * right. exists l'. split; [now right|]. now split.
Qed.

Lemma header_offset text l :
  In l (split lineBreak text) ->
  exists k, indexOf text (trim l) = Some k
    /\ substring text k (k + length (trim l)) = trim l
    /\ k + length (trim l) <= length text
    /\ forall a b, text = a ++ trim l ++ b -> k <= length a.
Proof.
  intros Hin.
  assert (Hocc : occursIn (trim l) text).
  { eapply occursIn_trans; [apply occursIn_trim|now apply split_occurs in Hin]. }
  apply indexOf_occurs in Hocc as (k & a & b & Hk & -> & Ht & Hmin).
  exists (length a). split; [exact Hk|]. split.
  - rewrite Ht at 1. apply substring_middle.
  - split; [|exact Hmin]. rewrite Ht at 1. rewrite !length_app. lia.
Qed.

(** [findReferencesSection] returns -1 exactly when no segment of the
    text, once trimmed, is a header. *)
Theorem findReferencesSection_none text :
  findReferencesSection text = (-1)%Z
  <-> Forall (fun l => isHeader (trim l) = false) (split lineBreak text).
Proof.
  unfold findReferencesSection. fold lineBreak.
  destruct (find_header_result text (split lineBreak text))
    as [[H1 H2]|(l & Hin & Hh & Hr)].
  - tauto.
  - destruct (header_offset text l Hin) as (k & Hk & _).
    rewrite Hk in Hr. split.
    + intros H. rewrite H in Hr. lia.
    + intros H. rewrite Forall_forall in H.
      apply list_elem_of_In, H in Hin. congruence.
Qed.

(** When [findReferencesSection] finds a header, the offset it returns is
    the end of the first occurrence of the header text in the document:
    the code units before the offset are the trimmed header segment, and
    the offset lies inside the text. *)
Theorem findReferencesSection_offset text :
  findReferencesSection text <> (-1)%Z ->
  exists l k,
    In l (split lineBreak text) /\ isHeader (trim l) = true
    /\ findReferencesSection text = Z.of_nat (k + length (trim l))
    /\ substring text k (k + length (trim l)) = trim l
    /\ k + length (trim l) <= length text
    /\ forall a b, text = a ++ trim l ++ b -> k <= length a.
Proof.
  unfold findReferencesSection. fold lineBreak. intros Hne.
  destruct (find_header_result text (split lineBreak text))
    as [[H1 H2]|(l & Hin & Hh & Hr)]; [contradiction|].
  destruct (header_offset text l Hin) as (k & Hk & Hsub & Hle & Hmin).
  exists l, k. rewrite Hk in Hr. rewrite Hr.
  repeat split; auto. lia.
Qed.

(** *** The pieces of a record *)

Lemma first_match_anchored r' s starts m :
  first_match (Seq Bol r') s starts = Some m -> m_start m = 0.
Proof.
  induction starts as [|i starts IH]; simpl; [discriminate|].
  unfold exec_at. rewrite run_Seq. cbn [run].
  destruct (Nat.eqb_spec i 0) as [->|Hi]; simpl.
  - destruct (run s r' 0 [] ++ []) as [|y l]; simpl; [exact IH|].
    now intros [= <-].
  - exact IH.
Qed.

Lemma replace_anchored r s : anchored r -> occursIn (replace r [] s) s.
Proof.
  intros [r' ->]. unfold replace, exec.
  destruct (first_match _ s _) as [m|] eqn:E; [|apply occursIn_refl].
  apply first_match_anchored in E. rewrite E. simpl. apply occursIn_drop.
Qed.

Lemma stripNumber_occurs patterns i trimmed :
  Forall anchored patterns ->
  occursIn (snd (stripNumber patterns i trimmed)) trimmed.
Proof.
  induction 1 as [|pattern rest Hp _ IH]; cbn [stripNumber].
  - apply occursIn_refl.
  - destruct (exec pattern trimmed); [|exact IH]. simpl.
    eapply occursIn_trans; [apply occursIn_trim|now apply replace_anchored].
Qed.

Lemma REFERENCE_NUMBER_PATTERNS_anchored : Forall anchored REFERENCE_NUMBER_PATTERNS.
Proof.
  unfold REFERENCE_NUMBER_PATTERNS.
  repeat (apply Forall_cons; split); [| | | |apply Forall_nil; exact I];
    eexists; reflexivity.
Qed.

Lemma first_group_occurs r s v : first_group r s = Some v -> occursIn v s.
Proof.
  unfold first_group, group. destruct (exec r s) as [m|]; [|discriminate].
  destruct (cap_get 1 (m_caps m)) as [[a b]|]; [|discriminate].
  intros [= <-]. apply occursIn_substring.
Qed.

Lemma extractDoi_occurs t : optOccursIn (extractDoi t) t.
Proof.
  unfold extractDoi. destruct (match_all DOI_REGEX t) as [|[a b] rest]; [exact I|].
  apply occursIn_substring.
Qed.

Lemma extractYear_occurs t : optOccursIn (extractYear t) t.
Proof.
  unfold extractYear.
  destruct (first_group yearParen t) eqn:E1; [exact (first_group_occurs _ _ _ E1)|].
  destruct (first_group yearPeriod t) eqn:E2; [exact (first_group_occurs _ _ _ E2)|].
  destruct (first_group yearAny t) eqn:E3; [exact (first_group_occurs _ _ _ E3)|].
  exact I.
Qed.

Lemma extractTitle_occurs t y : optOccursIn (extractTitle t y) t.
Proof.
  unfold extractTitle. destruct y as [[|u y]|]; try exact I.
  destruct (first_group _ t) as [[|v g]|] eqn:E; try exact I.
  apply first_group_occurs in E. unfold optOccursIn.
  eapply occursIn_trans; [apply occursIn_substring|].
  eapply occursIn_trans; [apply occursIn_trim|exact E].
Qed.

Lemma optOccursIn_trans o p s : optOccursIn o p -> occursIn p s -> optOccursIn o s.
Proof. destruct o; simpl; [apply occursIn_trans|trivial]. Qed.

Lemma parseLine_copied count line r : parseLine count line = Some r -> copied line r.
Proof.
  unfold parseLine.
  destruct (negb _ || _ || _); [discriminate|].
  destruct (negb (test yearToken (trim line))); [discriminate|].
  pose proof (stripNumber_occurs REFERENCE_NUMBER_PATTERNS (Z.of_nat count + 1)%Z
                (trim line) REFERENCE_NUMBER_PATTERNS_anchored) as Ht.
  destruct (stripNumber _ _ _) as [i t]. simpl in Ht.
  destruct (truthy (extractYear t)); simpl; [|discriminate].
  intros [= <-].
  assert (Hline : occursIn t line)
    by (eapply occursIn_trans; [exact Ht|apply occursIn_trim]).
  unfold copied. simpl. repeat split.
  - eapply occursIn_trans; [apply occursIn_substring|exact Hline].
  - eapply optOccursIn_trans; [apply extractDoi_occurs|exact Hline].
  - eapply optOccursIn_trans; [apply extractTitle_occurs|exact Hline].
  - eapply optOccursIn_trans; [apply extractYear_occurs|exact Hline].
Qed.

Lemma fold_pushLine_Forall (P : ParsedReference -> Prop) lines acc :
  (forall count line r, In line lines -> parseLine count line = Some r -> P r) ->
  Forall P acc -> Forall P (fold_left pushLine lines acc).
Proof.
  induction lines as [|line lines IH] in acc |- *; intros HP Hacc; simpl;
    [exact Hacc|].
  apply IH; [intros count l r Hl; apply HP; now right|].
  unfold pushLine. destruct (parseLine (length acc) line) as [r|] eqn:E; [|exact Hacc].
  apply Forall_app. split; [exact Hacc|].
  apply Forall_cons. split; [|apply Forall_nil; exact I].
  apply (HP (length acc) line); [now left|exact E].
Qed.

Lemma splitLines_occurs pattern text line :
  In line (splitLines pattern text) -> occursIn line text.
Proof.
  unfold splitLines. intros H. apply List.filter_In in H as [H _].
  now apply split_occurs in H.
Qed.

Lemma segments_occurs text line : In line (segments text) -> occursIn line text.
Proof.
  unfold segments.
  repeat match goal with
         | |- context [if ?b then _ else _] => destruct b
         end; apply splitLines_occurs.
Qed.

(** The text, the DOI, the title and the year of every record are
    contiguous pieces of the input: the segmenter copies them and never
    rewrites them. *)
Theorem parseReferences_copies (referencesText : jsstring) :
  Forall (copied referencesText) (parseReferences referencesText).
Proof.
  apply fold_pushLine_Forall; [|apply Forall_nil; exact I].
  intros count line r Hin H. apply parseLine_copied in H as (H1 & H2 & H3 & H4).
  apply segments_occurs in Hin. unfold copied. repeat split.
  - exact (occursIn_trans _ _ _ H1 Hin).
  - exact (optOccursIn_trans _ _ _ H2 Hin).
  - exact (optOccursIn_trans _ _ _ H3 Hin).
  - exact (optOccursIn_trans _ _ _ H4 Hin).
Qed.

(** *** Indices *)

Lemma stripNumber_unmarked patterns i trimmed :
  existsb (fun pattern => test pattern trimmed) patterns = false ->
  stripNumber patterns i trimmed = (i, trimmed).
Proof.
  induction patterns as [|pattern rest IH]; cbn [stripNumber existsb]; [reflexivity|].
  intros H. apply orb_false_iff in H as [H1 H2]. unfold test in H1.
  destruct (exec pattern trimmed); [discriminate|]. now apply IH.
Qed.

Lemma parseLine_unmarked count line r :
  hasMarker (trim line) = false -> parseLine count line = Some r ->
  index r = (Z.of_nat count + 1)%Z.
Proof.
  intros Hm. unfold parseLine.
  destruct (negb _ || _ || _); [discriminate|].
  destruct (negb (test yearToken (trim line))); [discriminate|].
  rewrite (stripNumber_unmarked _ _ _ Hm).
  destruct (truthy (extractYear (trim line))); simpl; [|discriminate].
  now intros [= <-].
Qed.

Lemma fold_pushLine_ordinals lines acc :
  Forall (fun line => hasMarker (trim line) = false) lines ->
  map index acc = ordinals (length acc) ->
  map index (fold_left pushLine lines acc)
  = ordinals (length (fold_left pushLine lines acc)).
Proof.
  induction lines as [|line lines IH] in acc |- *; intros Hl Hacc; simpl;
    [exact Hacc|].
  apply Forall_cons in Hl as [Hline Hl]. apply IH; [exact Hl|].
  unfold pushLine. destruct (parseLine (length acc) line) as [r|] eqn:E; [|exact Hacc].
  rewrite map_app, length_app, Hacc. simpl. unfold ordinals.
  rewrite Nat.add_1_r, seq_S, map_app. simpl.
  now rewrite (parseLine_unmarked _ _ _ Hline E).
Qed.

(** When no segment starts with a number marker, the records are numbered
    1, 2, 3, ... in the order of the text. *)
Theorem parseReferences_unnumbered (referencesText : jsstring) :
  Forall (fun line => hasMarker (trim line) = false) (segments referencesText) ->
  map index (parseReferences referencesText)
  = ordinals (length (parseReferences referencesText)).
Proof. intros H. now apply fold_pushLine_ordinals. Qed.

Lemma fold_pushLine_length lines acc :
  length (fold_left pushLine lines acc) <= length acc + length lines.
Proof.
  induction lines as [|line lines IH] in acc |- *; simpl; [lia|].
  etransitivity; [apply IH|]. unfold pushLine.
  destruct (parseLine _ _); rewrite ?length_app; simpl; lia.
Qed.

End ReferenceParserExtras.

(** ** The literature graph *)

Module GraphFacts.
Import JS Db Graph.

#[local] Set Warnings "-clear-no-such-hyp".

Lemma str_eqb_true a b : str_eqb a b = true <-> a = b.
Proof.
  revert b. induction a as [|x a IH]; intros [|y b]; simpl; try (split; done).
  rewrite andb_true_iff, IH. unfold unit_eqb. rewrite N.eqb_eq.
  split; [intros [-> ->]; reflexivity|intros [= -> ->]; auto].
Qed.

Lemma str_eqb_false a b : str_eqb a b = false <-> a <> b.
Proof.
  rewrite <- str_eqb_true. destruct (str_eqb a b); split; congruence.
Qed.

(** *** Connected nodes *)

Lemma visit_elem n X l x :
  x ∈ visit n X l
  <-> x ∈ X
      \/ (endId (link_source l) = n /\ endId (link_target l) = x)
      \/ (endId (link_source l) <> n /\ endId (link_target l) = n
          /\ endId (link_source l) = x).
Proof.
  unfold visit.
  destruct (str_eqb (endId (link_source l)) n) eqn:Es.
  - apply str_eqb_true in Es. rewrite elem_of_union, elem_of_singleton.
    split; [intros [->|H]; auto|]. intros [H|[[_ <-]|[H _]]]; auto. contradiction.
  - apply str_eqb_false in Es.
    destruct (str_eqb (endId (link_target l)) n) eqn:Et.
    + apply str_eqb_true in Et. rewrite elem_of_union, elem_of_singleton.
      split; [intros [->|H]; auto|]. intros [H|[[H _]|(_ & _ & <-)]]; auto.
      contradiction.
    + apply str_eqb_false in Et.
      split; [auto|]. intros [H|[[H _]|(_ & H & _)]]; auto; contradiction.
Qed.

Lemma fold_visit_elem n ls X x :
  x ∈ fold_left (visit n) ls X
  <-> x ∈ X
      \/ exists l, In l ls
           /\ ((endId (link_source l) = n /\ endId (link_target l) = x)
               \/ (endId (link_source l) <> n /\ endId (link_target l) = n
                   /\ endId (link_source l) = x)).
Proof.
  revert X. induction ls as [|l ls IH]; intros X; simpl.
  - split; [auto|]. intros [H|(l & [] & _)]. exact H.
  - rewrite IH, visit_elem. split.
    + intros [[H|H]|(l' & Hin & H)]; eauto 6.
    + intros [H|(l' & [<-|Hin] & H)]; eauto 6.
Qed.

Lemma getConnectedNodes_elem_aux graphData nodeId x :
  x ∈ getConnectedNodes graphData nodeId <-> x = nodeId \/ linked graphData nodeId x.
Proof.
  unfold getConnectedNodes, linked. rewrite fold_visit_elem, elem_of_singleton.
  split.
  - intros [H|(l & Hin & [H|(_ & H1 & H2)])]; eauto 6.
  - intros [H|(l & Hin & [H|[H1 H2]])]; eauto 6.
    destruct (str_eqb (endId (link_source l)) nodeId) eqn:E.
    + apply str_eqb_true in E. left. congruence.
    + apply str_eqb_false in E. eauto 8.
Qed.

(** [getConnectedNodes] returns the node itself and the nodes that a link
    joins to it, whatever the direction of the link. *)
Theorem getConnectedNodes_elem graphData nodeId x :
  x ∈ getConnectedNodes graphData nodeId <-> x = nodeId \/ linked graphData nodeId x.
Proof. apply getConnectedNodes_elem_aux. Qed.

Lemma linked_sym graphData a b : linked graphData a b -> linked graphData b a.
Proof. intros (l & Hin & H). exists l. tauto. Qed.

(** Being connected is symmetric: [b] is highlighted with [a] exactly when
    [a] is highlighted with [b]. *)
Theorem getConnectedNodes_symmetric graphData a b :
  b ∈ getConnectedNodes graphData a <-> a ∈ getConnectedNodes graphData b.
Proof.
  rewrite !getConnectedNodes_elem_aux. split; intros [->|H]; auto using linked_sym.
Qed.

(** *** The author map and the tag set *)

Lemma map_get_In k v (m : AuthorMap) : map_get k m = Some v -> In (k, v) m.
Proof.
  induction m as [|[k' v'] m IH]; simpl; [discriminate|].
  destruct (str_eqb k' k) eqn:E.
  - apply str_eqb_true in E. intros [= ->]. left. now subst.
  - intros H. right. now apply IH.
Qed.

Lemma map_get_key k (m : AuthorMap) :
  In k (map fst m) -> exists v, map_get k m = Some v.
Proof.
  induction m as [|[k' v'] m IH]; simpl; [intros []|].
  destruct (str_eqb k' k) eqn:E; [eauto|].
  apply str_eqb_false in E. intros [H|H]; [contradiction|now apply IH].
Qed.

Lemma map_get_None k (m : AuthorMap) : map_get k m = None -> ~ In k (map fst m).
Proof. intros H Hin. apply map_get_key in Hin as [v Hv]. congruence. Qed.

Lemma map_set_keys k v (m : AuthorMap) :
  map fst (map_set k v m)
  = match map_get k m with
    | Some _ => map fst m
    | None => map fst m ++ [k]
    end.
Proof.
  induction m as [|[k' v'] m IH]; simpl; [reflexivity|].
  destruct (str_eqb k' k) eqn:E; simpl.
  - apply str_eqb_true in E. now subst.
  - rewrite IH. now destruct (map_get k m).
Qed.

Lemma map_set_In k v (m : AuthorMap) k' v' :
  NoDup (map fst m) -> In (k', v') (map_set k v m) ->
  (k' = k /\ v' = v) \/ (k' <> k /\ In (k', v') m).
Proof.
  induction m as [|[k0 v0] m IH]; simpl; intros Hnd.
  - intros [[= <- <-]|[]]. now left.
  - apply NoDup_cons in Hnd as [Hk Hnd].
    destruct (str_eqb k0 k) eqn:E; simpl.
    + apply str_eqb_true in E. subst k0. intros [[= <- <-]|H]; [now left|].
      right. split; [|now right]. intros ->. apply Hk, list_elem_of_In.
      change k with (fst (k, v')). now apply in_map.
    + apply str_eqb_false in E. intros [[= <- <-]|H]; [right; auto|].
      apply (IH Hnd) in H. tauto.
Qed.

Lemma map_set_new k v (m : AuthorMap) : In (k, v) (map_set k v m).
Proof.
  induction m as [|[k0 v0] m IH]; simpl; [now left|].
  destruct (str_eqb k0 k); simpl; auto.
Qed.

Lemma map_set_distinct k v (m : AuthorMap) :
  NoDup (map fst m) -> NoDup (map fst (map_set k v m)).
Proof.
  intros H. rewrite map_set_keys. destruct (map_get k m) eqn:E; [exact H|].
  apply NoDup_app. split; [exact H|]. split; [|apply NoDup_singleton].
  intros x Hx Hk. apply list_elem_of_singleton in Hk as ->.
  apply (map_get_None _ _ E). now apply list_elem_of_In.
Qed.

Lemma entry_unique (m : AuthorMap) k e1 e2 :
  NoDup (map fst m) -> In (k, e1) m -> In (k, e2) m -> e1 = e2.
Proof.
  induction m as [|[k0 v0] m IH]; simpl; [intros _ []|].
  intros Hnd. apply NoDup_cons in Hnd as [Hk Hnd].
  assert (Hfresh : forall e, In (k, e) m -> k0 <> k).
  { intros e He <-. apply Hk. apply list_elem_of_In.
    change k0 with (fst (k0, e)). now apply in_map. }
  intros [E1|H1] [E2|H2].
  - congruence.
  - injection E1 as E1 _. now apply Hfresh in H2.
  - injection E2 as E2 _. now apply Hfresh in H1.
  - now apply IH.
Qed.

Section Build.

Variable toLowerCase : jsstring -> jsstring.
Variable toUpperCase : jsstring -> jsstring.

Local Abbreviation keyOf := (normalizeAuthorKey toLowerCase).
Local Abbreviation addCreator := (addCreator toLowerCase toUpperCase).
Local Abbreviation addTag := (addTag toLowerCase).
Local Abbreviation authorsOf := (authorsOf toLowerCase toUpperCase).
Local Abbreviation bestNamed := (bestNamed toLowerCase).
Local Abbreviation buildGraphData := (buildGraphData toLowerCase toUpperCase).

Lemma bestNamed_more cs k c c0 :
  bestNamed cs k c -> keyOf c0 <> k -> bestNamed (cs ++ [c0]) k c.
Proof.
  intros (Hin & Hk & Hmax) Hne. split; [apply in_or_app; now left|].
  split; [exact Hk|]. intros c' Hc' Hk'.
  apply in_app_or in Hc' as [Hc'|[<-|[]]]; [now apply Hmax|contradiction].
Qed.

Lemma authorsOf_nil : authorsOf [] [].
Proof.
  split; simpl.
  - apply NoDup_nil. exact I.
  - intros k e [].
  - intros c [].
Qed.

Lemma addCreator_authorsOf cs m c :
  authorsOf cs m -> authorsOf (cs ++ [c]) (addCreator m c).
Proof.
  intros [Hnd Hentry Hpresent]. unfold Graph.addCreator.
  assert (Hold : forall k e, In (k, e) m -> keyOf c <> k ->
    k <> js "|" /\ author_id e = js "author_" ++ k
    /\ exists c1, bestNamed (cs ++ [c]) k c1
         /\ author_displayName e = getAuthorDisplayName toUpperCase c1
         /\ author_score e = nameScore c1).
  { intros k e Hin Hne. destruct (Hentry k e Hin) as (H1 & H2 & c1 & Hb & H3 & H4).
    split; [exact H1|]. split; [exact H2|]. exists c1.
    split; [now apply bestNamed_more|]. now split. }
  assert (Hkeep : forall c1, In c1 (cs ++ [c]) -> keyOf c1 <> js "|" ->
    keyOf c1 <> keyOf c -> In (keyOf c1) (map fst m)).
  { intros c1 Hc1 H1 H2. apply in_app_or in Hc1 as [Hc1|[<-|[]]];
      [now apply Hpresent|contradiction]. }
  destruct (truthy (Some (keyOf c))) eqn:Et; simpl.
  2: { unfold Graph.normalizeAuthorKey in Et.
       destruct (toLowerCase (trim (lastName c))); discriminate Et. }
  destruct (str_eqb (keyOf c) (js "|")) eqn:Ebar.
  - apply str_eqb_true in Ebar. split; [exact Hnd| |].
    + intros k e Hin. apply Hold; [exact Hin|].
      destruct (Hentry k e Hin) as (H1 & _). congruence.
    + intros c1 Hc1 H1. apply Hkeep; [exact Hc1|exact H1|congruence].
  - apply str_eqb_false in Ebar.
    destruct (map_get (keyOf c) m) as [existing|] eqn:Eget.
    + pose proof (map_get_In _ _ _ Eget) as Hex.
      destruct (Hentry _ _ Hex) as (_ & Hid & c0 & (Hc0 & Hk0 & Hmax) & Hd0 & Hs0).
      destruct (author_score existing <? nameScore c) eqn:Elt.
      * apply Nat.ltb_lt in Elt. split.
        -- now apply map_set_distinct.
        -- intros k e Hin. apply (map_set_In _ _ _ _ _ Hnd) in Hin as [[-> ->]|[Hk Hin]].
           ++ split; [exact Ebar|]. split; [reflexivity|]. exists c.
              split; [|now split]. split; [apply in_or_app; right; now left|].
              split; [reflexivity|]. intros c' Hc' Hk'.
              apply in_app_or in Hc' as [Hc'|[<-|[]]]; [|lia].
              specialize (Hmax c' Hc' Hk'). simpl. lia.
           ++ apply Hold; [exact Hin|congruence].
        -- intros c1 Hc1 H1. rewrite map_set_keys, Eget.
           destruct (str_eqb (keyOf c1) (keyOf c)) eqn:Ek.
           ++ apply str_eqb_true in Ek. rewrite Ek.
              change (keyOf c) with (fst (keyOf c, existing)). now apply in_map.
           ++ apply str_eqb_false in Ek. now apply Hkeep.
      * apply Nat.ltb_ge in Elt. split; [exact Hnd| |].
        -- intros k e Hin. destruct (str_eqb (keyOf c) k) eqn:Ek.
           ++ apply str_eqb_true in Ek. subst k.
              rewrite (entry_unique m _ e existing Hnd Hin Hex).
              split; [exact Ebar|]. split; [exact Hid|]. exists c0.
              split; [|now split]. split; [apply in_or_app; now left|].
              split; [exact Hk0|]. intros c' Hc' Hk'.
              apply in_app_or in Hc' as [Hc'|[<-|[]]]; [now apply Hmax|lia].
           ++ apply str_eqb_false in Ek. now apply Hold.
        -- intros c1 Hc1 H1. destruct (str_eqb (keyOf c1) (keyOf c)) eqn:Ek.
           ++ apply str_eqb_true in Ek. rewrite Ek.
              change (keyOf c) with (fst (keyOf c, existing)). now apply in_map.
           ++ apply str_eqb_false in Ek. now apply Hkeep.
    + split.
      * now apply map_set_distinct.
      * intros k e Hin. apply (map_set_In _ _ _ _ _ Hnd) in Hin as [[-> ->]|[Hk Hin]].
        -- split; [exact Ebar|]. split; [reflexivity|]. exists c.
           split; [|now split]. split; [apply in_or_app; right; now left|].
           split; [reflexivity|]. intros c' Hc' Hk'.
           apply in_app_or in Hc' as [Hc'|[<-|[]]]; [|lia].
           exfalso. apply (map_get_None _ _ Eget). rewrite <- Hk'.
           apply Hpresent; [exact Hc'|congruence].
        -- apply Hold; [exact Hin|congruence].
      * intros c1 Hc1 H1. rewrite map_set_keys, Eget.
        destruct (str_eqb (keyOf c1) (keyOf c)) eqn:Ek.
        -- apply str_eqb_true in Ek. rewrite Ek. apply in_or_app. right. now left.
        -- apply str_eqb_false in Ek. apply in_or_app. left. now apply Hkeep.
Qed.

Lemma existsb_str_eqb x l : existsb (str_eqb x) l = true <-> In x l.
Proof.
  rewrite existsb_exists. split.
  - intros (y & Hy & E). apply str_eqb_true in E. now subst.
  - intros H. exists x. split; [exact H|now apply str_eqb_true].
Qed.

Lemma set_add_In x l t : In t (set_add x l) <-> t = x \/ In t l.
Proof.
  unfold set_add. destruct (existsb (str_eqb x) l) eqn:E.
  - apply existsb_str_eqb in E. split; [auto|]. now intros [->|H].
  - rewrite in_app_iff. simpl. split; [intros [H|[<-|[]]]; auto|].
    intros [->|H]; auto.
Qed.

Lemma set_add_NoDup x l : NoDup l -> NoDup (set_add x l).
Proof.
  intros H. unfold set_add. destruct (existsb (str_eqb x) l) eqn:E; [exact H|].
  apply NoDup_app. split; [exact H|]. split; [|apply NoDup_singleton].
  intros y Hy Hx. apply list_elem_of_singleton in Hx as ->.
  apply list_elem_of_In, existsb_str_eqb in Hy. congruence.
Qed.

Lemma NoDup_map_inj {A B} (f : A -> B) (l : list A) :
  (forall x y, f x = f y -> x = y) -> NoDup l -> NoDup (map f l).
Proof.
  intros Hf. induction 1 as [|x l Hx Hl IH]; simpl; [apply NoDup_nil; exact I|].
  apply NoDup_cons. split; [|exact IH].
  intros H. apply list_elem_of_In, in_map_iff in H as (y & E & Hy).
  apply Hf in E. subst y. now apply Hx, list_elem_of_In.
Qed.

Local Abbreviation firstPass := (firstPass toLowerCase toUpperCase).
Local Abbreviation itemLinks := (itemLinks toLowerCase).

Lemma fold_addCreator_authorsOf cs' cs m :
  authorsOf cs m -> authorsOf (cs ++ cs') (fold_left addCreator cs' m).
Proof.
  induction cs' as [|c cs' IH] in cs, m |- *; simpl; intros H.
  - now rewrite app_nil_r.
  - replace (cs ++ c :: cs') with ((cs ++ [c]) ++ cs')
      by (rewrite <- app_assoc; reflexivity).
    apply IH. now apply addCreator_authorsOf.
Qed.

Lemma fold_addTag_In tgs ts t :
  In t (fold_left addTag tgs ts)
  <-> In t ts
      \/ exists tag, In tag tgs /\ trim tag <> [] /\ t = toLowerCase (trim tag).
Proof.
  induction tgs as [|tag tgs IH] in ts |- *; simpl.
  - split; [auto|]. intros [H|(tag & [] & _)]. exact H.
  - rewrite IH. unfold Graph.addTag.
    destruct (trim tag) as [|u w] eqn:E; simpl.
    + split.
      * intros [H|(tag' & Hin & H)]; eauto 6.
      * intros [H|(tag' & [<-|Hin] & Hne & H)]; eauto 6. congruence.
    + rewrite set_add_In. split.
      * intros [[->|H]|(tag' & Hin & H)]; eauto 6.
        right. exists tag. rewrite E. split; [now left|]. now split.
      * intros [H|(tag' & [<-|Hin] & Hne & H)]; eauto 6.
        rewrite E in H. auto.
Qed.

Lemma fold_addTag_NoDup tgs ts : NoDup ts -> NoDup (fold_left addTag tgs ts).
Proof.
  induction tgs as [|tag tgs IH] in ts |- *; simpl; intros H; [exact H|].
  apply IH. unfold Graph.addTag. destruct (truthy _); [|exact H].
  now apply set_add_NoDup.
Qed.

Lemma firstPass_fold items a t :
  fold_left
    (fun st item =>
       (fold_left addCreator (item_creators (tagged item)) (fst st),
        fold_left addTag (tags item) (snd st)))
    items (a, t)
  = (fold_left addCreator (allCreators items) a, fold_left addTag (allTags items) t).
Proof.
  induction items as [|item items IH] in a, t |- *; simpl; [reflexivity|].
  rewrite IH. now rewrite !fold_left_app.
Qed.

Lemma firstPass_split items :
  firstPass items
  = (fold_left addCreator (allCreators items) [],
     fold_left addTag (allTags items) []).
Proof. apply firstPass_fold. Qed.

Lemma firstPass_authors items : authorsOf (allCreators items) (fst (firstPass items)).
Proof.
  rewrite firstPass_split. simpl.
  apply (fold_addCreator_authorsOf (allCreators items) [] []), authorsOf_nil.
Qed.

Lemma In_allCreators items item c :
  In item items -> In c (item_creators (tagged item)) -> In c (allCreators items).
Proof. intros H1 H2. apply in_flat_map. eauto. Qed.

(** The paper nodes are, in the order of the library, one node for each
    item, named by its title, or [Untitled] when the title is empty. *)
Theorem buildGraphData_papers items :
  List.filter isPaper (nodes (buildGraphData items)) = map paperNode items.
Proof.
  unfold Graph.buildGraphData. destruct (firstPass items) as [m ts]. simpl.
  rewrite !List.filter_app.
  assert (H1 : List.filter isPaper (map authorNode m) = []).
  { induction m as [|e m IH]; [reflexivity|exact IH]. }
  assert (H2 : List.filter isPaper (map tagNode ts) = []).
  { induction ts as [|e ts' IH]; [reflexivity|exact IH]. }
  rewrite H1, H2. simpl.
  induction items as [|item items IH]; simpl; [reflexivity|]. now rewrite IH.
Qed.

Lemma paper_node items item :
  In item items -> hasNode (buildGraphData items) (node_id (paperNode item)) Paper.
Proof.
  intros Hin. exists (paperNode item). split; [|now split].
  unfold Graph.buildGraphData. destruct (firstPass items) as [m ts]. simpl.
  apply in_or_app. right. apply in_or_app. right. now apply in_map.
Qed.

Lemma author_node items k e :
  In (k, e) (fst (firstPass items)) -> hasNode (buildGraphData items) (author_id e) Author.
Proof.
  intros Hin. exists (authorNode (k, e)). split; [|now split].
  unfold Graph.buildGraphData. destruct (firstPass items) as [m ts]. simpl in *.
  apply in_or_app. left. now apply in_map.
Qed.

Lemma tag_node items t :
  In t (snd (firstPass items)) -> hasNode (buildGraphData items) (js "tag_" ++ t) Tag.
Proof.
  intros Hin. exists (tagNode t). split; [|now split].
  unfold Graph.buildGraphData. destruct (firstPass items) as [m ts]. simpl in *.
  apply in_or_app. right. apply in_or_app. left. now apply in_map.
Qed.

Lemma links_of items l :
  In l (links (buildGraphData items))
  <-> exists item, In item items /\ In l (itemLinks (fst (firstPass items)) item).
Proof.
  unfold Graph.buildGraphData. destruct (firstPass items) as [m ts]. simpl.
  apply in_flat_map.
Qed.

(** No link dangles: every link goes from the node of a paper to the
    node of an author or of a tag, and both nodes are in the graph. *)
Theorem buildGraphData_links_resolve items :
  toLowerCase [] = [] ->
  Forall (fun l =>
            hasNode (buildGraphData items) (endId (link_source l)) Paper
            /\ (hasNode (buildGraphData items) (endId (link_target l)) Author
                \/ hasNode (buildGraphData items) (endId (link_target l)) Tag))
         (links (buildGraphData items)).
Proof.
  intros Hlower. apply Forall_forall. intros l Hl.
  apply list_elem_of_In, links_of in Hl as (item & Hitem & Hl).
  unfold Graph.itemLinks in Hl. apply in_app_or in Hl as [Hl|Hl].
  - apply in_flat_map in Hl as (c & Hc & Hl). unfold authorLink in Hl.
    destruct (map_get _ _) as [found|] eqn:E; [|destruct Hl].
    destruct Hl as [<-|[]]. simpl. split; [now apply paper_node|].
    left. apply map_get_In in E. now apply author_node in E.
  - apply in_flat_map in Hl as (tag & Htag & Hl). unfold tagLink in Hl.
    destruct (toLowerCase (trim tag)) as [|u w] eqn:E; simpl in Hl; [destruct Hl|].
    destruct Hl as [<-|[]]. simpl. split; [now apply paper_node|].
    right. apply tag_node. rewrite firstPass_split. simpl.
    apply fold_addTag_In. right. exists tag.
    split; [apply in_flat_map; eauto|]. split; [|now rewrite E].
    intros Ht. rewrite Ht, Hlower in E. discriminate E.
Qed.

Lemma author_ids items :
  map node_id (map authorNode (fst (firstPass items)))
  = map (fun k => js "author_" ++ k) (map fst (fst (firstPass items))).
Proof.
  pose proof (firstPass_authors items) as [_ Hentry _].
  induction (fst (firstPass items)) as [|[k e] m IH]; simpl; [reflexivity|].
  destruct (Hentry k e) as (_ & Hid & _); [now left|].
  rewrite Hid. f_equal. apply IH. intros k' e' Hin. apply Hentry. now right.
Qed.

Lemma prefixed_head (prefix : jsstring) u (l : list jsstring) x :
  head prefix = Some u -> In x (map (fun k => prefix ++ k) l) -> head x = Some u.
Proof.
  intros Hp H. apply in_map_iff in H as (k & <- & _).
  destruct prefix; [discriminate|exact Hp].
Qed.

(** When the items have distinct ids, so have the nodes. *)
Theorem buildGraphData_ids_distinct items :
  NoDup (map (fun item => item_id (tagged item)) items) ->
  NoDup (map node_id (nodes (buildGraphData items))).
Proof.
  intros Hitems.
  pose proof (firstPass_authors items) as [Hkeys _ _].
  pose proof (author_ids items) as Hauthors.
  assert (Htags : NoDup (snd (firstPass items))).
  { rewrite firstPass_split. simpl. apply fold_addTag_NoDup, NoDup_nil. exact I. }
  unfold Graph.buildGraphData. destruct (firstPass items) as [m ts].
  cbn [fst snd nodes] in *.
  assert (Htagids : map node_id (map tagNode ts) = map (fun t => js "tag_" ++ t) ts)
    by (rewrite map_map; reflexivity).
  assert (Hpapers : map node_id (map paperNode items)
                    = map (fun i => js "paper_" ++ i)
                          (map (fun item => item_id (tagged item)) items))
    by (rewrite !map_map; reflexivity).
  rewrite !map_app, Hauthors, Htagids, Hpapers.
  pose proof (fun l x => prefixed_head (js "author_") 97%N l x eq_refl) as Ha.
  pose proof (fun l x => prefixed_head (js "tag_") 116%N l x eq_refl) as Ht.
  pose proof (fun l x => prefixed_head (js "paper_") 112%N l x eq_refl) as Hp.
  assert (Hinj : forall prefix x y : jsstring, prefix ++ x = prefix ++ y -> x = y)
    by (intros prefix x y E; now apply app_inv_head in E).
  apply NoDup_app. split; [|split].
  - apply NoDup_map_inj; [apply Hinj|exact Hkeys].
  - intros x Hx Hy. apply list_elem_of_In, Ha in Hx.
    apply list_elem_of_In, in_app_or in Hy as [Hy|Hy].
    + apply Ht in Hy. congruence.
    + apply Hp in Hy. congruence.
  - apply NoDup_app. split; [|split].
    + apply NoDup_map_inj; [apply Hinj|exact Htags].
    + intros x Hx Hy. apply list_elem_of_In, Ht in Hx.
      apply list_elem_of_In, Hp in Hy. congruence.
    + apply NoDup_map_inj; [apply Hinj|exact Hitems].
Qed.

(** Creators that share a key share a node: every creator of an item
    whose key is not the bare separator is linked to the one author node
    of that key, and the node is named after a creator of that key with
    the longest first name. *)
Theorem buildGraphData_author items item c :
  In item items -> In c (item_creators (tagged item)) ->
  keyOf c <> js "|" ->
  exists n c1,
    In n (nodes (buildGraphData items))
    /\ node_type n = Author
    /\ node_id n = js "author_" ++ keyOf c
    /\ bestNamed (allCreators items) (keyOf c) c1
    /\ node_name n = getAuthorDisplayName toUpperCase c1
    /\ In {| link_source := EndId (js "paper_" ++ item_id (tagged item));
             link_target := EndId (node_id n);
             link_color := Some (js "rgba(34, 197, 94, 0.3)") |}
          (links (buildGraphData items)).
Proof.
  intros Hitem Hc Hkey.
  pose proof (firstPass_authors items) as [_ Hentry Hpresent].
  pose proof (Hpresent c (In_allCreators _ _ _ Hitem Hc) Hkey) as Hin.
  apply map_get_key in Hin as [e Hget].
  pose proof (map_get_In _ _ _ Hget) as He.
  destruct (Hentry _ _ He) as (_ & Hid & c1 & Hbest & Hname & _).
  exists (authorNode (keyOf c, e)), c1. simpl.
  split; [|split; [reflexivity|split; [exact Hid|split; [exact Hbest|split;
    [exact Hname|]]]]].
  - unfold Graph.buildGraphData. destruct (firstPass items) as [m ts]. simpl in *.
    apply in_or_app. left. now apply in_map.
  - apply links_of. exists item. split; [exact Hitem|].
    unfold Graph.itemLinks. apply in_or_app. left.
    apply in_flat_map. exists c. split; [exact Hc|].
    unfold authorLink. rewrite Hget. now left.
Qed.

(** *** The neighbours of a node *)

Lemma key_not_empty c : truthy (Some (keyOf c)) = true.
Proof.
  unfold Graph.normalizeAuthorKey. destruct (toLowerCase (trim (lastName c))); reflexivity.
Qed.

Lemma links_ends items l :
  In l (links (buildGraphData items)) ->
  exists item, In item items
    /\ link_source l = EndId (js "paper_" ++ item_id (tagged item))
    /\ ((exists c, In c (item_creators (tagged item)) /\ keyOf c <> js "|"
                   /\ link_target l = EndId (js "author_" ++ keyOf c))
        \/ (exists tag, In tag (tags item) /\ toLowerCase (trim tag) <> []
                        /\ link_target l = EndId (js "tag_" ++ toLowerCase (trim tag)))).
Proof.
  intros Hl. apply links_of in Hl as (item & Hitem & Hl).
  pose proof (firstPass_authors items) as [_ Hentry _].
  exists item. split; [exact Hitem|].
  unfold Graph.itemLinks in Hl. apply in_app_or in Hl as [Hl|Hl].
  - apply in_flat_map in Hl as (c & Hc & Hl). unfold authorLink in Hl.
    destruct (map_get _ _) as [found|] eqn:E; [|destruct Hl].
    destruct Hl as [<-|[]]. split; [reflexivity|]. left. exists c.
    apply map_get_In, Hentry in E as (Hk & Hid & _).
    split; [exact Hc|]. split; [exact Hk|]. cbn [link_target]. now rewrite Hid.
  - apply in_flat_map in Hl as (tag & Htag & Hl). unfold tagLink in Hl.
    destruct (toLowerCase (trim tag)) as [|u w] eqn:E; simpl in Hl; [destruct Hl|].
    destruct Hl as [<-|[]]. split; [reflexivity|]. right. exists tag.
    split; [exact Htag|]. rewrite E. now split.
Qed.

Lemma author_link_In items item c :
  In item items -> In c (item_creators (tagged item)) -> keyOf c <> js "|" ->
  In {| link_source := EndId (js "paper_" ++ item_id (tagged item));
        link_target := EndId (js "author_" ++ keyOf c);
        link_color := Some (js "rgba(34, 197, 94, 0.3)") |}
     (links (buildGraphData items)).
Proof.
  intros Hitem Hc Hkey.
  pose proof (firstPass_authors items) as [_ Hentry Hpresent].
  pose proof (Hpresent c (In_allCreators _ _ _ Hitem Hc) Hkey) as Hin.
  apply map_get_key in Hin as [e Hget].
  destruct (Hentry _ _ (map_get_In _ _ _ Hget)) as (_ & Hid & _).
  apply links_of. exists item. split; [exact Hitem|].
  unfold Graph.itemLinks. apply in_or_app. left.
  apply in_flat_map. exists c. split; [exact Hc|].
  unfold authorLink. rewrite Hget, Hid. now left.
Qed.

Lemma tag_link_In items item tag :
  In item items -> In tag (tags item) -> toLowerCase (trim tag) <> [] ->
  In {| link_source := EndId (js "paper_" ++ item_id (tagged item));
        link_target := EndId (js "tag_" ++ toLowerCase (trim tag));
        link_color := Some (js "rgba(249, 115, 22, 0.3)") |}
     (links (buildGraphData items)).
Proof.
  intros Hitem Htag Hne.
  apply links_of. exists item. split; [exact Hitem|].
  unfold Graph.itemLinks. apply in_or_app. right.
  apply in_flat_map. exists tag. split; [exact Htag|].
  unfold tagLink. destruct (toLowerCase (trim tag)) as [|u w]; [congruence|].
  now left.
Qed.

Lemma paper_not_author (i k : jsstring) : js "paper_" ++ i <> js "author_" ++ k.
Proof. discriminate. Qed.

Lemma paper_not_tag (i t : jsstring) : js "paper_" ++ i <> js "tag_" ++ t.
Proof. discriminate. Qed.

Lemma author_not_tag (k t : jsstring) : js "author_" ++ k <> js "tag_" ++ t.
Proof. discriminate. Qed.

Lemma prefix_inj (prefix x y : jsstring) : prefix ++ x = prefix ++ y -> x = y.
Proof. apply app_inv_head. Qed.

(** The nodes highlighted with a paper are the paper, the author nodes of
    its creators whose key is not the bare separator, and the nodes of its
    tags that are not blank. *)
Theorem getConnectedNodes_paper items i x :
  x ∈ getConnectedNodes (buildGraphData items) (js "paper_" ++ i)
  <-> x = js "paper_" ++ i
      \/ exists item, In item items /\ item_id (tagged item) = i
           /\ ((exists c, In c (item_creators (tagged item)) /\ keyOf c <> js "|"
                          /\ x = js "author_" ++ keyOf c)
               \/ (exists tag, In tag (tags item) /\ toLowerCase (trim tag) <> []
                               /\ x = js "tag_" ++ toLowerCase (trim tag))).
Proof.
  rewrite getConnectedNodes_elem_aux. unfold linked. split.
  - intros [H|(l & Hl & Hends)]; [now left|]. right.
    apply links_ends in Hl as (item & Hitem & Hs & Ht).
    rewrite Hs in Hends. exists item. split; [exact Hitem|].
    destruct Ht as [(c & Hc & Hk & Ht)|(tag & Htag & Hne & Ht)];
      rewrite Ht in Hends; cbn [endId] in Hends.
    + destruct Hends as [[E <-]|[E _]].
      * apply prefix_inj in E. split; [exact E|]. left. eauto.
      * symmetry in E. now apply paper_not_author in E.
    + destruct Hends as [[E <-]|[E _]].
      * apply prefix_inj in E. split; [exact E|]. right. eauto.
      * symmetry in E. now apply paper_not_tag in E.
  - intros [H|(item & Hitem & <- & [(c & Hc & Hk & ->)|(tag & Htag & Hne & ->)])];
      [now left| |]; right.
    + eexists. split; [exact (author_link_In _ _ _ Hitem Hc Hk)|]. left. now split.
    + eexists. split; [exact (tag_link_In _ _ _ Hitem Htag Hne)|]. left. now split.
Qed.

(** The nodes highlighted with an author are the author and the papers
    that have a creator of that key, however the creator is spelled. *)
Theorem getConnectedNodes_author items k x :
  x ∈ getConnectedNodes (buildGraphData items) (js "author_" ++ k)
  <-> x = js "author_" ++ k
      \/ (k <> js "|"
          /\ exists item c, In item items /\ In c (item_creators (tagged item))
               /\ keyOf c = k /\ x = js "paper_" ++ item_id (tagged item)).
Proof.
  rewrite getConnectedNodes_elem_aux. unfold linked. split.
  - intros [H|(l & Hl & Hends)]; [now left|]. right.
    apply links_ends in Hl as (item & Hitem & Hs & Ht).
    rewrite Hs in Hends.
    destruct Ht as [(c & Hc & Hk & Ht)|(tag & Htag & Hne & Ht)];
      rewrite Ht in Hends; cbn [endId] in Hends.
    + destruct Hends as [[E _]|[E <-]]; [now apply paper_not_author in E|].
      apply prefix_inj in E. subst k. split; [exact Hk|]. eauto 6.
    + destruct Hends as [[E _]|[E _]]; [now apply paper_not_author in E|].
      symmetry in E. now apply author_not_tag in E.
  - intros [H|(Hk & item & c & Hitem & Hc & <- & ->)]; [now left|]. right.
    eexists. split; [exact (author_link_In _ _ _ Hitem Hc Hk)|]. right. now split.
Qed.

(** The nodes highlighted with a tag are the tag and the papers that
    carry it, in whatever case and with whatever blanks around it. *)
Theorem getConnectedNodes_tag items t x :
  x ∈ getConnectedNodes (buildGraphData items) (js "tag_" ++ t)
  <-> x = js "tag_" ++ t
      \/ (t <> []
          /\ exists item tag, In item items /\ In tag (tags item)
               /\ toLowerCase (trim tag) = t
               /\ x = js "paper_" ++ item_id (tagged item)).
Proof.
  rewrite getConnectedNodes_elem_aux. unfold linked. split.
  - intros [H|(l & Hl & Hends)]; [now left|]. right.
    apply links_ends in Hl as (item & Hitem & Hs & Ht).
    rewrite Hs in Hends.
    destruct Ht as [(c & Hc & Hk & Ht)|(tag & Htag & Hne & Ht)];
      rewrite Ht in Hends; cbn [endId] in Hends.
    + destruct Hends as [[E _]|[E _]]; [now apply paper_not_tag in E|].
      now apply author_not_tag in E.
    + destruct Hends as [[E _]|[E <-]]; [now apply paper_not_tag in E|].
      apply prefix_inj in E. subst t. split; [exact Hne|]. eauto 6.
  - intros [H|(Hne & item & tag & Hitem & Htag & <- & ->)]; [now left|]. right.
    eexists. split; [exact (tag_link_In _ _ _ Hitem Htag Hne)|]. right. now split.
Qed.

Lemma nodes_of items n :
  In n (nodes (buildGraphData items))
  <-> (exists k e, In (k, e) (fst (firstPass items)) /\ n = authorNode (k, e))
      \/ (exists t, In t (snd (firstPass items)) /\ n = tagNode t)
      \/ (exists item, In item items /\ n = paperNode item).
Proof.
  unfold Graph.buildGraphData. destruct (firstPass items) as [m ts].
  cbn [nodes fst snd]. rewrite !in_app_iff, !in_map_iff. split.
  - intros [([k e] & <- & H)|[(t & <- & H)|(item & <- & H)]]; eauto 8.
  - intros [(k & e & H & ->)|[(t & H & ->)|(item & H & ->)]]; eauto 8.
Qed.

(** No author node and no tag node is isolated: each one is the target
    of a link from a paper. *)
Theorem buildGraphData_no_orphans items n :
  (forall s, s <> [] -> toLowerCase s <> []) ->
  In n (nodes (buildGraphData items)) -> node_type n <> Paper ->
  exists l, In l (links (buildGraphData items))
            /\ endId (link_target l) = node_id n.
Proof.
  intros Hlower Hn Htype.
  apply nodes_of in Hn as [(k & e & He & ->)|[(t & Ht & ->)|(item & _ & ->)]].
  - pose proof (firstPass_authors items) as [_ Hentry _].
    destruct (Hentry _ _ He) as (Hk & Hid & c & (Hc & Hkey & _) & _).
    apply in_flat_map in Hc as (item & Hitem & Hc). subst k.
    eexists. split; [exact (author_link_In _ _ _ Hitem Hc Hk)|].
    cbn [endId link_target authorNode node_id snd]. now rewrite Hid.
  - rewrite firstPass_split in Ht. cbn [snd] in Ht.
    apply fold_addTag_In in Ht as [[]|(tag & Htag & Hne & ->)].
    apply in_flat_map in Htag as (item & Hitem & Htag).
    eexists. split; [exact (tag_link_In _ _ _ Hitem Htag (Hlower _ Hne))|].
    reflexivity.
  - now contradiction Htype.
Qed.

End Build.

End GraphFacts.

(** ** The extractor and the graph on the sample data *)

Module ExamplesFacts.
Import JS Regex Db ReferenceParser Pieces Graph Examples CitationMatcher.

Local Abbreviation graphOf := (buildGraphData asciiLowerCase asciiUpperCase).
Local Abbreviation keyOf := (normalizeAuthorKey asciiLowerCase).

Lemma findReferencesSection_offset_witness :
  findReferencesSection withHeader <> (-1)%Z
  /\ exists l k,
       In l (split lineBreak withHeader) /\ isHeader (trim l) = true
       /\ findReferencesSection withHeader = Z.of_nat (k + length (trim l))
       /\ substring withHeader k (k + length (trim l)) = trim l
       /\ k + length (trim l) <= length withHeader
       /\ forall a b, withHeader = a ++ trim l ++ b -> k <= length a.
Proof.
  assert (H : findReferencesSection withHeader <> (-1)%Z)
    by (vm_compute; intros E; discriminate E).
  split; [exact H|].
  exact (ReferenceParserExtras.findReferencesSection_offset withHeader H).
Defined.

Lemma parseReferences_unnumbered_witness :
  Forall (fun line => hasMarker (trim line) = false) (segments authorYearList)
  /\ map index (parseReferences authorYearList)
     = ordinals (length (parseReferences authorYearList))
  /\ length (parseReferences authorYearList) = 3.
Proof.
  assert (H : Forall (fun line => hasMarker (trim line) = false)
                     (segments authorYearList)).
  { assert (E : forallb (fun line => negb (hasMarker (trim line)))
                        (segments authorYearList) = true)
      by (vm_compute; reflexivity).
    apply Forall_forall. intros line Hin.
    rewrite forallb_forall in E. apply list_elem_of_In, E in Hin.
    now apply negb_true_iff in Hin. }
  split; [exact H|]. split; [|vm_compute; reflexivity].
  exact (ReferenceParserExtras.parseReferences_unnumbered authorYearList H).
Defined.

Lemma buildGraphData_links_resolve_witness :
  asciiLowerCase [] = []
  /\ Forall (fun l =>
               hasNode (graphOf shelf) (endId (link_source l)) Paper
               /\ (hasNode (graphOf shelf) (endId (link_target l)) Author
                   \/ hasNode (graphOf shelf) (endId (link_target l)) Tag))
            (links (graphOf shelf)).
Proof.
  split; [reflexivity|].
  exact (GraphFacts.buildGraphData_links_resolve
           asciiLowerCase asciiUpperCase shelf eq_refl).
Defined.

Lemma shelf_ids_distinct : NoDup (map (fun item => item_id (tagged item)) shelf).
Proof.
  apply NoDup_cons. split; [|apply NoDup_singleton].
  intros H. apply list_elem_of_singleton in H. discriminate H.
Defined.

Lemma buildGraphData_ids_distinct_witness :
  NoDup (map (fun item => item_id (tagged item)) shelf)
  /\ NoDup (map node_id (nodes (graphOf shelf))).
Proof.
  split; [exact shelf_ids_distinct|].
  exact (GraphFacts.buildGraphData_ids_distinct
           asciiLowerCase asciiUpperCase shelf shelf_ids_distinct).
Defined.

Lemma buildGraphData_no_orphans_witness :
  ((forall s, s <> [] -> asciiLowerCase s <> [])
   /\ In (tagNode (js "braids")) (nodes (graphOf shelf))
   /\ node_type (tagNode (js "braids")) <> Paper)
  /\ exists l, In l (links (graphOf shelf))
               /\ endId (link_target l) = node_id (tagNode (js "braids")).
Proof.
  assert (H1 : forall s, s <> [] -> asciiLowerCase s <> []).
  { intros s Hs E. apply Hs. destruct s; [reflexivity|discriminate E]. }
  assert (H2 : In (tagNode (js "braids")) (nodes (graphOf shelf))).
  { right. right. left. reflexivity. }
  assert (H3 : node_type (tagNode (js "braids")) <> Paper) by discriminate.
  split; [auto|].
  exact (GraphFacts.buildGraphData_no_orphans
           asciiLowerCase asciiUpperCase shelf _ H1 H2 H3).
Defined.

Lemma buildGraphData_author_witness :
  (In onKnots shelf /\ In smithJ (item_creators (tagged onKnots))
   /\ keyOf smithJ <> js "|")
  /\ exists n c1,
       In n (nodes (graphOf shelf))
       /\ node_type n = Author
       /\ node_id n = js "author_" ++ keyOf smithJ
       /\ bestNamed asciiLowerCase (allCreators shelf) (keyOf smithJ) c1
       /\ node_name n = getAuthorDisplayName asciiUpperCase c1
       /\ In {| link_source := EndId (js "paper_" ++ item_id (tagged onKnots));
                link_target := EndId (node_id n);
                link_color := Some (js "rgba(34, 197, 94, 0.3)") |}
             (links (graphOf shelf)).
Proof.
  assert (H1 : In onKnots shelf) by (left; reflexivity).
  assert (H2 : In smithJ (item_creators (tagged onKnots))) by (left; reflexivity).
  assert (H3 : keyOf smithJ <> js "|") by (vm_compute; intros E; discriminate E).
  split; [auto|].
  exact (GraphFacts.buildGraphData_author
           asciiLowerCase asciiUpperCase shelf onKnots smithJ H1 H2 H3).
Defined.

End ExamplesFacts.

(** ** Global replacement of a class and of its runs *)

Module RegexExtras.
Import JS Regex PdfText.

Lemma cap_clear_none c : cap_clear [] c = c.
Proof.
  unfold cap_clear. induction c as [|x c IH]; [reflexivity|].
  simpl. f_equal. exact IH.
Qed.

Lemma repeat_cls s p mx : forall mn i c, mn <= mx ->
  option_map fst (head (repeat_matcher (run s (Cls p)) (cap_clear []) true mn mx i c))
  = if mn <=? Nat.min (runLength p (drop i s)) mx
    then Some (i + Nat.min (runLength p (drop i s)) mx) else None.
Proof.
  set (m := run s (Cls p)).
  assert (Hm : forall i c, m i c = match s !! i with
                                   | Some a => if p a then [(S i, c)] else []
                                   | None => []
                                   end) by reflexivity.
  clearbody m.
  induction mx as [|mx IH]; intros mn i c Hle.
  - assert (mn = 0) by lia. subst. cbn [repeat_matcher head option_map fst].
    rewrite Nat.min_0_r. cbn. f_equal. lia.
  - cbn [repeat_matcher]. rewrite cap_clear_none, Hm.
    destruct (s !! i) as [a|] eqn:E.
    + rewrite (drop_S _ _ _ E). cbn [runLength]. destruct (p a) eqn:Pa.
      * cbn [flat_map fst snd]. rewrite app_nil_r.
        assert (Hi : Nat.eqb (S i) i = false) by (apply Nat.eqb_neq; lia).
        rewrite Hi, andb_false_r.
        specialize (IH (pred mn) (S i) c ltac:(lia)).
        rewrite <- Nat.succ_min_distr.
        destruct mn as [|mn']; cbn [Nat.eqb negb pred] in *.
        -- destruct (repeat_matcher _ _ _ 0 mx (S i) c) as [|y ys]; cbn in IH |- *.
           ++ discriminate IH.
           ++ injection IH as ->. f_equal. lia.
        -- rewrite IH. cbn [Nat.leb].
           destruct (mn' <=? _); [f_equal; lia|reflexivity].
      * cbn [flat_map]. destruct mn as [|mn']; cbn; [f_equal; lia|reflexivity].
    + apply lookup_ge_None in E. rewrite (drop_ge _ _ E). cbn [flat_map runLength].
      destruct mn as [|mn']; cbn; [f_equal; lia|reflexivity].
Qed.

Lemma runLength_le p s : runLength p s <= length s.
Proof. induction s as [|a s IH]; simpl; [lia|]. destruct (p a); lia. Qed.

(** A greedy [+] on a class matches the whole run at the offset. *)
Lemma exec_at_plus s p i :
  option_map fst (exec_at (plus (Cls p)) s i)
  = if 1 <=? runLength p (drop i s) then Some (i + runLength p (drop i s)) else None.
Proof.
  unfold exec_at, plus.
  change (run s (Rep true 1 None (Cls p)) i [])
    with (repeat_matcher (run s (Cls p)) (cap_clear []) true 1
            (1 + (length s - i) + 1) i []).
  rewrite repeat_cls by lia.
  pose proof (runLength_le p (drop i s)) as H. rewrite length_drop in H.
  now rewrite Nat.min_l by lia.
Qed.

Lemma exec_at_cls s p i :
  option_map fst (exec_at (Cls p) s i)
  = match s !! i with
    | Some a => if p a then Some (S i) else None
    | None => None
    end.
Proof.
  unfold exec_at. cbn [run]. destruct (s !! i) as [a|]; [|reflexivity].
  now destruct (p a).
Qed.


Lemma substring_same s i : substring s i i = [].
Proof. unfold substring. now rewrite Nat.sub_diag. Qed.

Lemma substring_snoc s from i a :
  from <= i -> s !! i = Some a -> substring s from (S i) = substring s from i ++ [a].
Proof.
  intros Hle E. unfold substring.
  replace (S i - from) with (S (i - from)) by lia.
  apply take_S_r. rewrite lookup_drop. now replace (from + (i - from)) with i by lia.
Qed.

Lemma substring_past s from i :
  length s <= i -> substring s from (S i) = substring s from i.
Proof.
  intros H. unfold substring.
  rewrite !take_ge; [reflexivity| |]; rewrite length_drop; lia.
Qed.

Lemma squeeze_flag p repl s :
  runLength p s = 0 -> squeeze p repl true s = squeeze p repl false s.
Proof. destruct s as [|a s]; [reflexivity|]. simpl. now destruct (p a). Qed.

Lemma runLength_pos p s b i :
  i < b -> runLength p (drop i s) = b - i ->
  exists a, s !! i = Some a /\ p a = true /\ runLength p (drop (S i) s) = b - S i.
Proof.
  intros Hlt H. destruct (s !! i) as [a|] eqn:E.
  - rewrite (drop_S _ _ _ E) in H. simpl in H. exists a.
    destruct (p a); [|lia]. split; [reflexivity|]. split; [reflexivity|]. lia.
  - apply lookup_ge_None in E. rewrite (drop_ge _ _ E) in H. simpl in H. lia.
Qed.

(** The matches of a greedy [+] on a class are the maximal runs. *)
Lemma splice_plus s p repl n : forall i, i + n = S (length s) ->
  (forall from last, from <= i -> last <= i ->
     splice s repl from (scan_all (plus (Cls p)) s (seq i n) last)
     = substring s from i ++ squeeze p repl false (drop i s))
  /\ (forall b, i <= b -> runLength p (drop i s) = b - i ->
        splice s repl b (scan_all (plus (Cls p)) s (seq i n) b)
        = squeeze p repl true (drop i s)).
Proof.
  induction n as [|n IH]; intros i Hi.
  - split.
    + intros from last Hf Hl. cbn [seq scan_all splice].
      rewrite (drop_ge s i) by lia. cbn [squeeze]. rewrite app_nil_r.
      unfold substring. rewrite take_ge; [reflexivity|]. rewrite length_drop. lia.
    + intros b Hb Hrun. cbn [seq scan_all splice].
      now rewrite (drop_ge s i), (drop_ge s b) by lia.
  - destruct (IH (S i) ltac:(lia)) as [IHout IHskip].
    assert (Hout : forall from last, from <= i -> last <= i ->
              splice s repl from (scan_all (plus (Cls p)) s (seq i (S n)) last)
              = substring s from i ++ squeeze p repl false (drop i s)).
    { intros from last Hf Hl. cbn [seq scan_all].
      replace (i <? last) with false by (symmetry; apply Nat.ltb_ge; lia).
      pose proof (exec_at_plus s p i) as Hexec.
      destruct (s !! i) as [a|] eqn:E.
      - rewrite (drop_S _ _ _ E) in *. cbn [runLength squeeze] in *.
        destruct (p a) eqn:Pa.
        + destruct (exec_at (plus (Cls p)) s i) as [y|]; [|discriminate Hexec].
          cbn in Hexec. injection Hexec as Hy. rewrite Hy.
          replace (Nat.eqb (i + S (runLength p (drop (S i) s))) i) with false
            by (symmetry; apply Nat.eqb_neq; lia).
          cbn [splice]. f_equal. f_equal.
          apply IHskip; lia.
        + destruct (exec_at (plus (Cls p)) s i) as [y|]; [discriminate Hexec|].
          rewrite IHout by lia. rewrite (substring_snoc _ _ _ _ Hf E).
          now rewrite <- app_assoc.
      - apply lookup_ge_None in E. rewrite (drop_ge _ _ E) in *.
        cbn [runLength] in Hexec.
        destruct (exec_at (plus (Cls p)) s i) as [y|]; [discriminate Hexec|].
        rewrite IHout by lia. rewrite substring_past by lia.
        now rewrite (drop_ge s (S i)) by lia. }
    split; [exact Hout|].
    intros b Hb Hrun. destruct (decide (i = b)) as [->|Hne].
    + rewrite Hout by lia. rewrite substring_same. cbn [app]. symmetry.
      apply squeeze_flag. lia.
    + destruct (runLength_pos p s b i ltac:(lia) Hrun) as (a & E & Pa & Hrest).
      cbn [seq scan_all].
      replace (i <? b) with true by (symmetry; apply Nat.ltb_lt; lia).
      rewrite (drop_S _ _ _ E). cbn [squeeze]. rewrite Pa.
      apply IHskip; [lia|exact Hrest].
Qed.

(** [s.replace(/[p]+/g, repl)] replaces each maximal run by [repl]. *)
Lemma replace_all_plus p repl s :
  replace_all (plus (Cls p)) repl s = squeeze p repl false s.
Proof.
  unfold replace_all, match_all.
  destruct (splice_plus s p repl (S (length s)) 0 eq_refl) as [H _].
  rewrite H by lia. now rewrite substring_same, drop_0.
Qed.

Lemma splice_cls s p repl n : forall i from last,
  i + n = S (length s) -> from <= i -> last <= i ->
  splice s repl from (scan_all (Cls p) s (seq i n) last)
  = substring s from i ++ flat_map (fun a => if p a then repl else [a]) (drop i s).
Proof.
  induction n as [|n IH]; intros i from last Hi Hf Hl.
  - cbn [seq scan_all splice]. rewrite (drop_ge s i) by lia. cbn [flat_map].
    rewrite app_nil_r. unfold substring. rewrite take_ge; [reflexivity|].
    rewrite length_drop. lia.
  - cbn [seq scan_all].
    replace (i <? last) with false by (symmetry; apply Nat.ltb_ge; lia).
    pose proof (exec_at_cls s p i) as Hexec.
    destruct (s !! i) as [a|] eqn:E.
    + rewrite (drop_S _ _ _ E). unfold jsstring in *. rewrite E in Hexec.
      cbn [flat_map]. destruct (p a) eqn:Pa.
        destruct (exec_at (Cls p) s i) as [y|]; cbn in Hexec; [|discriminate Hexec].
        injection Hexec as Hy. rewrite Hy.
        replace (Nat.eqb (S i) i) with false by (symmetry; apply Nat.eqb_neq; lia).
        cbn [splice]. f_equal. f_equal.
        rewrite IH by lia. now rewrite substring_same.
        destruct (exec_at (Cls p) s i) as [y|]; cbn in Hexec; [discriminate Hexec|].
        rewrite IH by lia. rewrite (substring_snoc _ _ _ _ Hf E).
        now rewrite <- app_assoc.
    + unfold jsstring in *. rewrite E in Hexec. apply lookup_ge_None in E.
      destruct (exec_at (Cls p) s i) as [y|]; cbn in Hexec; [discriminate Hexec|].
      rewrite IH by lia. rewrite substring_past by lia.
      now rewrite (drop_ge s i), (drop_ge s (S i)) by lia.
Qed.

(** [s.replace(/[p]/g, repl)] replaces each code unit of the class. *)
Lemma replace_all_cls p repl s :
  replace_all (Cls p) repl s = flat_map (fun a => if p a then repl else [a]) s.
Proof.
  unfold replace_all, match_all.
  rewrite (splice_cls s p repl (S (length s)) 0 0) by lia.
  now rewrite substring_same, drop_0.
Qed.

End RegexExtras.

(** ** White space after normalisation *)

Module NormaliseFacts.
Import JS Regex Db CitationMatcher Pieces PdfText RegexExtras.

Lemma word_not_space a : is_word a = true -> is_space a = false.
Proof.
  intros H. apply not_true_is_false. intros Hs.
  unfold is_word, is_digit, is_upper, is_lower, is_space, in_range in *.
  rewrite ?orb_true_iff, ?andb_true_iff, ?N.leb_le, ?N.eqb_eq in *. lia.
Qed.

Lemma spacedOnce_cons a t :
  spacedOnce t -> (a <> 32%N \/ head t <> Some 32%N) -> spacedOnce (a :: t).
Proof.
  intros Ht Ha (x & y & E). destruct x as [|b x]; simpl in E.
  - injection E as -> ->. destruct Ha as [Ha|Ha]; now apply Ha.
  - injection E as _ ->. apply Ht. now exists x, y.
Qed.

Lemma squeeze_spaced s : forall inRun,
  spacedOnce (squeeze is_space (js " ") inRun s)
  /\ (inRun = true -> head (squeeze is_space (js " ") inRun s) <> Some 32%N).
Proof.
  induction s as [|a s IH]; intros inRun.
  - split; [|discriminate]. intros (x & y & E). now destruct x.
  - cbn [squeeze]. destruct (is_space a) eqn:Sa.
    + destruct (IH true) as [H1 H2]. destruct inRun.
      * split; [exact H1|exact H2].
      * split; [|discriminate]. apply spacedOnce_cons; [exact H1|]. right. now apply H2.
    + destruct (IH false) as [H1 _]. split.
      * apply spacedOnce_cons; [exact H1|]. left. intros ->. discriminate Sa.
      * intros _ [= ->]. discriminate Sa.
Qed.

Lemma squeeze_Forall (Q R : N -> Prop) p repl s : forall inRun,
  Forall Q s -> (forall a, Q a -> p a = false -> R a) -> Forall R repl ->
  Forall R (squeeze p repl inRun s).
Proof.
  intros inRun Hs HQ Hrepl. revert inRun.
  induction Hs as [|a s Ha Hs IH]; intros inRun; cbn [squeeze]; [constructor|].
  destruct (p a) eqn:Pa.
  - destruct inRun; [apply IH|]. apply Forall_app. split; [exact Hrepl|apply IH].
  - constructor; [now apply HQ|apply IH].
Qed.

Lemma space_is_plain : Forall (fun a => is_space a = true -> a = 32%N) (js " ").
Proof. repeat constructor. Qed.

Lemma pageText_plain strs : plainSpaced (pageText strs).
Proof.
  unfold pageText, space. rewrite replace_all_plus.
  apply (squeeze_Forall (fun _ => True)); [now apply Forall_forall| |exact space_is_plain].
  intros a _ Ha Hs. congruence.
Qed.

(** A page text has no white space but single spaces: no line break, no
    tab, and no two spaces in a row. *)
Theorem pageText_spaces strs :
  plainSpaced (pageText strs) /\ spacedOnce (pageText strs).
Proof.
  split; [apply pageText_plain|].
  unfold pageText, space. rewrite replace_all_plus. apply squeeze_spaced.
Qed.

Lemma join_Forall (P : N -> Prop) sep l :
  Forall P sep -> Forall (Forall P) l -> Forall P (join sep l).
Proof.
  intros Hsep. induction 1 as [|x l Hx Hl IH]; [constructor|].
  cbn [join]. destruct l as [|y l']; [exact Hx|].
  apply Forall_app. split; [exact Hx|]. apply Forall_app. split; [exact Hsep|exact IH].
Qed.

(** The text in which the references are looked up has no white space
    but the space; in particular it has no line feed. *)
Theorem fullText_no_line_break pages :
  plainSpaced (fullText pages) /\ ~ In LF (fullText pages).
Proof.
  assert (H : plainSpaced (fullText pages)).
  { apply join_Forall; [exact space_is_plain|].
    apply Forall_forall. intros t Ht. apply list_elem_of_In, in_map_iff in Ht as (strs & <- & _).
    apply pageText_plain. }
  split; [exact H|]. intros Hin.
  unfold plainSpaced in H. rewrite Forall_forall in H.
  apply list_elem_of_In, H in Hin; [discriminate Hin|reflexivity].
Qed.

Lemma trimStart_head s a : head (trimStart s) = Some a -> is_space a = false.
Proof.
  induction s as [|c s IH]; simpl; [discriminate|].
  destruct (is_space c) eqn:Sc; [exact IH|]. now intros [= <-].
Qed.

Lemma trimEnd_prefix s : exists b, s = trimEnd s ++ b.
Proof.
  unfold trimEnd. destruct (ReferenceParserExtras.trimStart_suffix (rev s)) as [b Hb].
  exists (rev b). rewrite <- rev_app_distr, <- Hb. now rewrite rev_involutive.
Qed.

Lemma trimEnd_last s a : last (trimEnd s) = Some a -> is_space a = false.
Proof.
  unfold trimEnd. intros H. apply (trimStart_head (rev s)).
  destruct (trimStart (rev s)) as [|c t]; [discriminate H|].
  simpl in H. rewrite last_snoc in H. exact H.
Qed.

Lemma trim_ends s :
  (forall a, head (trim s) = Some a -> is_space a = false)
  /\ (forall a, last (trim s) = Some a -> is_space a = false).
Proof.
  unfold trim. split; [|apply trimEnd_last].
  intros a H. destruct (trimEnd_prefix (trimStart s)) as [b Hb].
  apply (trimStart_head s). rewrite Hb.
  destruct (trimEnd (trimStart s)); [discriminate H|exact H].
Qed.

Lemma occursIn_Forall (P : N -> Prop) p s : occursIn p s -> Forall P s -> Forall P p.
Proof.
  intros (a & b & ->) H. apply Forall_app in H as [_ H]. now apply Forall_app in H as [H _].
Qed.

Lemma extractAuthors_spaced text year : singleSpaced (ReferenceParser.extractAuthors text year).
Proof.
  unfold ReferenceParser.extractAuthors. destruct year as [[|u y]|]; try exact I.
  destruct (ReferenceParser.first_group _ _) as [[|v g]|]; try exact I.
  unfold space. rewrite replace_all_plus.
  set (sq := squeeze is_space (js " ") false _).
  assert (Hin : occursIn (substring (trim sq) 0 250) sq).
  { eapply ReferenceParserExtras.occursIn_trans;
      [apply ReferenceParserExtras.occursIn_substring
      |apply ReferenceParserExtras.occursIn_trim]. }
  split; [|split].
  - apply (occursIn_Forall _ _ _ Hin).
    apply (squeeze_Forall (fun _ => True)); [now apply Forall_forall| |exact space_is_plain].
    intros a _ Ha Hs. congruence.
  - assert (Hsp : spacedOnce sq) by apply squeeze_spaced.
    intros H. apply Hsp.
    exact (ReferenceParserExtras.occursIn_trans _ _ _ H Hin).
  - intros c Hc ->. unfold substring in Hc. rewrite drop_0 in Hc.
    destruct (trim_ends sq) as [Hh _].
    assert (E : is_space 32 = false); [|discriminate E].
    apply Hh. destruct (trim sq); [discriminate Hc|exact Hc].
Qed.

Lemma checkAuthors_spaced o : singleSpaced o -> singleSpaced (ReferenceParser.checkAuthors o).
Proof.
  unfold ReferenceParser.checkAuthors. destruct o as [[|u a]|]; auto.
  destruct (_ || _); [intros _; exact I|auto].
Qed.

Lemma parseLine_spaced count line r :
  ReferenceParser.parseLine count line = Some r -> singleSpaced (authors r).
Proof.
  unfold ReferenceParser.parseLine.
  destruct (negb _ || _ || _); [discriminate|].
  destruct (negb (test ReferenceParser.yearToken (trim line))); [discriminate|].
  destruct (ReferenceParser.stripNumber _ _ _) as [i t].
  destruct (truthy (ReferenceParser.extractYear t)); simpl; [|discriminate].
  intros [= <-]. simpl. apply checkAuthors_spaced, extractAuthors_spaced.
Qed.

(** The authors of a record have no line break and no white space but
    single spaces, and do not start with a space. *)
Theorem parseReferences_authors_spaced (referencesText : jsstring) :
  Forall (fun r => singleSpaced (authors r))
         (ReferenceParser.parseReferences referencesText).
Proof.
  apply ReferenceParserExtras.fold_pushLine_Forall; [|constructor].
  intros count line r _. apply parseLine_spaced.
Qed.

Section Normalise.

Variable toLowerCase : jsstring -> jsstring.

Lemma normalizeString_shape s : wordsOnly (normalizeString toLowerCase s).
Proof.
  unfold normalizeString, space. rewrite replace_all_plus, replace_all_cls.
  set (cleaned := flat_map _ (toLowerCase s)).
  assert (Hc : Forall (fun a => is_word a = true \/ is_space a = true) cleaned).
  { apply Forall_forall. intros a Ha.
    apply list_elem_of_In, in_flat_map in Ha as (c & _ & Ha).
    destruct (is_word c || is_space c) eqn:E; simpl in Ha.
    - destruct Ha as [<-|[]]. now apply orb_true_iff in E.
    - destruct Ha as [<-|[]]. now right. }
  set (squeezed := squeeze is_space (js " ") false cleaned).
  assert (Hs : Forall (fun a => is_word a = true \/ a = 32%N) squeezed).
  { apply (squeeze_Forall _ _ _ _ _ _ Hc).
    - intros a [H|H] Hn; [now left|congruence].
    - change (js " ") with [32%N]. constructor; [now right|constructor]. }
  pose proof (ReferenceParserExtras.occursIn_trim squeezed) as Hin.
  destruct (trim_ends squeezed) as [Hh Hl].
  split; [exact (occursIn_Forall _ _ _ Hin Hs)|]. split; [|split].
  - intros H. apply (proj1 (squeeze_spaced cleaned false)).
    exact (ReferenceParserExtras.occursIn_trans _ _ _ H Hin).
  - intros a H ->. now apply Hh in H.
  - intros a H ->. now apply Hl in H.
Qed.

(** Whatever the string, [normalizeString] returns words of letters,
    digits and underscores separated by single spaces, with no space at
    either end. *)
Theorem normalizeString_words_only s : wordsOnly (normalizeString toLowerCase s).
Proof. apply normalizeString_shape. Qed.

Lemma split_unit_pieces (P : N -> Prop) sep s : forall cur w,
  In w (split_unit sep cur s) -> Forall P cur ->
  Forall (fun a => P a \/ a = sep) s -> Forall P w.
Proof.
  induction s as [|c s IH]; intros cur w Hw Hcur Hs; cbn [split_unit] in Hw.
  - destruct Hw as [<-|[]]. now apply List.Forall_rev.
  - apply Forall_cons in Hs as [Hc Hs].
    destruct (unit_eqb c sep) eqn:E.
    + destruct Hw as [<-|Hw]; [now apply List.Forall_rev|].
      apply (IH [] w Hw); [constructor|exact Hs].
    + apply (IH (c :: cur) w Hw); [|exact Hs]. constructor; [|exact Hcur].
      destruct Hc as [Hc| ->]; [exact Hc|].
      unfold unit_eqb in E. rewrite N.eqb_refl in E. discriminate E.
Qed.

(** The words that [fuzzyMatch] counts in a normalised string are runs
    of at least three letters, digits or underscores. *)
Theorem normalizeString_words s w :
  w ∈ wordSet (normalizeString toLowerCase s) ->
  Forall (fun a => is_word a = true) w /\ 2 < length w.
Proof.
  unfold wordSet. rewrite elem_of_list_to_set, list_elem_of_In, List.filter_In.
  intros [Hw Hlen]. apply Nat.ltb_lt in Hlen. split; [|exact Hlen].
  apply (split_unit_pieces _ _ _ _ _ Hw); [constructor|].
  apply normalizeString_shape.
Qed.

End Normalise.

Lemma normalizeString_words_witness :
  js "deep" ∈ wordSet (normalizeString asciiLowerCase Examples.rawTitle)
  /\ Forall (fun a => is_word a = true) (js "deep") /\ 2 < length (js "deep").
Proof.
  assert (H : js "deep" ∈ wordSet (normalizeString asciiLowerCase Examples.rawTitle)).
  { unfold wordSet. apply elem_of_list_to_set.
    assert (E : List.filter (fun w => 2 <? length w)
                  (split_unit 32 [] (normalizeString asciiLowerCase Examples.rawTitle))
                = [js "deep"; js "learning"; js "2nd"])
      by (vm_compute; reflexivity).
    rewrite E. apply list_elem_of_here. }
  split; [exact H|].
  exact (normalizeString_words asciiLowerCase Examples.rawTitle (js "deep") H).
Defined.

End NormaliseFacts.
